(** * short-link: the existence filter, the resolution cascade, the rate
    limiter and the Base62 short codes

    A shallow embedding of the Go sources

      - internal/utils/shortcode.go       (Module [Shortcode])
      - internal/filter/bloom.go          (Module [Filter])
      - internal/service/url_service.go   (Module [Service])
      - internal/middleware/ratelimit.go  (Module [RateLimit])
      - internal/cache/redis.go           (Module [Cache])
      - internal/utils/snowflake.go       (Module [Snowflake])
      - package repository                (Module [Repository])
      - the rest of url_service.go        (Module [UrlService])
      - cmd/server/main.go, the limiter   (Module [Server])

    Conventions.  A Go [int64] (and [int], [time.Duration]) is a [Z]; every
    arithmetic operation of the source that can overflow is wrapped with
    [wrap64].  A [time.Time] is the number of nanoseconds since the Unix
    epoch.  A Go [string] is a [string] of bytes.  A [float64] is a
    [spec_float] of precision 53 and maximal exponent 1024, computed with
    the operations of the Standard Library's [SpecFloat].

    What the sources leave to a library or to the deployment is a
    parameter of the definitions: the conversions between floats and
    text ([FloatText]), the parser of URLs ([NetURL]), the generator of
    identifiers ([Snowflake.Library]) and the collation by which the
    database compares strings ([Collation]).  What the network and the
    database do to a call is read from the outside of the call ([Net],
    [Delivery]). *)

From Stdlib Require Import ZArith String Ascii List Lia Bool.
From Stdlib Require Import SpecFloat.
From stdpp Require Import base option list gmap strings pretty.
From Equations Require Import Equations.
Import ListNotations.

Local Open Scope Z_scope.

(** ** Machine integers *)

(** Two's complement wrap-around of a 64-bit signed integer. *)
Definition wrap64 (z : Z) : Z := (z + 2^63) mod 2^64 - 2^63.

Definition int64_range (z : Z) : Prop := - 2^63 <= z < 2^63.

(** ** internal/utils/shortcode.go *)

Module Shortcode.

Definition base62Chars : string :=
  "0123456789abcdefghijklmnopqrstuvwxyzABCDEFGHIJKLMNOPQRSTUVWXYZ".

(** [s[i]]: the byte of [s] at index [i].  Go panics out of range; the only
    index expression of the file, [base62Chars[remainder]], has
    [0 <= remainder < 62], see [index_in_range]. *)
Definition byte_at (s : string) (i : Z) : option ascii :=
  if i <? 0 then None else String.get (Z.to_nat i) s.

Definition len (s : string) : Z := Z.of_nat (String.length s).

(** [result.WriteByte(c)] on a [strings.Builder]. *)
Definition WriteByte (result : string) (c : ascii) : string :=
  result +:+ String c EmptyString.

(** [reverseString]: the string goes through [[]rune]; on a string of ASCII
    bytes, the only ones [EncodeBase62] builds, a rune is a byte. *)
Definition reverseString (s : string) : string :=
  string_of_list_ascii (rev (list_ascii_of_string s)).

(** The number of loop iterations left is bounded by the binary size of
    [num]; it is the termination measure of [encode_loop]. *)
Definition bits (num : Z) : nat := Z.to_nat (Z.log2 (2 * num + 1)).

(** The loop [for num > 0 { ... }] of [EncodeBase62].  The index is always
    in range; the [None] branch stands for the panic of an index out of
    range and leaves the loop. *)
Equations? encode_loop (num : Z) (result : string) : string
  by wf (bits num) lt :=
  encode_loop num result with Z_lt_dec 0 num => {
    | left _ with byte_at base62Chars (Z.rem num (len base62Chars)) => {
        | Some c := encode_loop (Z.quot num (len base62Chars))
                                (WriteByte result c);
        | None := result };
    | right _ := result }.
Proof.
  change (len base62Chars) with 62. unfold bits.
  assert (Hq : 0 <= Z.quot num 62) by (apply Z.quot_pos; lia).
  assert (Hle : 2 * Z.quot num 62 + 1 <= num).
  { rewrite Z.quot_div_nonneg by lia.
    pose proof (Z.mul_div_le num 62 ltac:(lia)). lia. }
  pose proof (Z.log2_le_mono _ _ Hle) as Hmono.
  rewrite (Z.log2_succ_double num) by lia.
  pose proof (Z.log2_nonneg (2 * Z.quot num 62 + 1)).
  pose proof (Z.log2_nonneg num).
  lia.
Qed.

Definition EncodeBase62 (num : Z) : string :=
  if num =? 0 then
    match byte_at base62Chars 0 with
    | Some c => String c EmptyString
    | None => EmptyString
    end
  else reverseString (encode_loop num EmptyString).

(** The [switch] of [DecodeBase62] on one byte: its value, or [None] for the
    [default] case. *)
Definition char_value (char : ascii) : option Z :=
  let c := Z.of_N (N_of_ascii char) in
  if (48 <=? c) && (c <=? 57) then Some (c - 48)
  else if (97 <=? c) && (c <=? 122) then Some (c - 97 + 10)
  else if (65 <=? c) && (c <=? 90) then Some (c - 65 + 36)
  else None.

(** The loop of [DecodeBase62], from the current index on, with the
    accumulator [num]; the [default] case returns 0 from the function. *)
Fixpoint decode_loop (encoded : string) (num : Z) : Z :=
  match encoded with
  | EmptyString => num
  | String char rest =>
      match char_value char with
      | Some value =>
          decode_loop rest (wrap64 (num * len base62Chars + value))
      | None => 0
      end
  end.

Definition DecodeBase62 (encoded : string) : Z := decode_loop encoded 0.

End Shortcode.

(** ** float64 *)

Module Float64.

Definition prec : Z := 53.
Definition emax : Z := 1024.

Definition float64 : Type := spec_float.

(** [float64(n)] for an integer [n]: the nearest float, ties to even. *)
Definition of_int (n : Z) : float64 := binary_normalize prec emax n 0 false.

Definition add : float64 -> float64 -> float64 := SFadd prec emax.
Definition sub : float64 -> float64 -> float64 := SFsub prec emax.
Definition mul : float64 -> float64 -> float64 := SFmul prec emax.
Definition div : float64 -> float64 -> float64 := SFdiv prec emax.

(** [x < y] and [x <= y]; both are false when an operand is NaN. *)
Definition ltb : float64 -> float64 -> bool := SFltb.
Definition leb : float64 -> float64 -> bool := SFleb.

Definition one : float64 := of_int 1.

(** [int64(f)]: the value of [f] truncated toward zero.  When the value
    does not fit (or [f] is NaN) Go leaves the result to the
    implementation; amd64 yields the least [int64]. *)
Definition to_int64 (f : float64) : Z :=
  match f with
  | S754_zero _ => 0
  | S754_finite s m e =>
      let v := if 0 <=? e then Z.pos m * 2 ^ e else Z.pos m / 2 ^ (- e) in
      let t := if s then - v else v in
      if (- 2^63 <=? t) && (t <? 2^63) then t else - 2^63
  | S754_infinity _ | S754_nan => - 2^63
  end.

(** The value of [float64(n)] as an integer: [n] rounded to 53 significant
    bits, ties to even.  Every float of magnitude at least [2^53] is an
    integer, so this is the exact value of the float. *)
Definition round_even (a k : Z) : Z :=
  let q := a / 2 ^ k in
  let r := a mod 2 ^ k in
  let h := 2 ^ (k - 1) in
  if r <? h then q * 2 ^ k
  else if h <? r then (q + 1) * 2 ^ k
  else if Z.even q then q * 2 ^ k
  else (q + 1) * 2 ^ k.

Definition int_value (n : Z) : Z :=
  let a := Z.abs n in
  let k := Z.log2 a - 52 in
  Z.sgn n * (if k <=? 0 then a else round_even a k).

End Float64.

(** ** package time *)

Module GoTime.
Import Float64.

Definition Millisecond : Z := 1000000.
Definition Second : Z := 1000000000.

(** Seconds from the zero [Time] (January 1 of year 1) to the Unix epoch. *)
Definition unixToInternal : Z := 62135596800.

(** [t.Truncate(d)]: [t] rounded down to a multiple of [d] since the zero
    time; [t] itself when [d <= 0]. *)
Definition Truncate (t d : Z) : Z :=
  if d <=? 0 then t else t - (t + unixToInternal * Second) mod d.

(** [t.Unix()]: whole seconds since the epoch. *)
Definition Unix (t : Z) : Z := t / Second.

(** [t.UnixNano()]: the result wraps when it does not fit an [int64]. *)
Definition UnixNano (t : Z) : Z := wrap64 t.

(** [t.Add(d)]. *)
Definition Add (t d : Z) : Z := t + d.

(** [d.Seconds()]:
    [sec := d / Second; nsec := d % Second;
     return float64(sec) + float64(nsec)/1e9]. *)
Definition Seconds (d : Z) : float64 :=
  let sec := Z.quot d Second in
  let nsec := Z.rem d Second in
  add (of_int sec) (div (of_int nsec) (of_int 1000000000)).

End GoTime.

(** ** package strconv and fmt *)

Module Strconv.
Import Float64.

(** [strconv.Itoa] and [strconv.FormatInt(n, 10)], also [%d]. *)
Definition FormatInt (n : Z) : string := pretty n.

Fixpoint parse_digits (s : string) (acc : Z) : option Z :=
  match s with
  | EmptyString => Some acc
  | String c rest =>
      let d := Z.of_N (N_of_ascii c) - 48 in
      if (0 <=? d) && (d <=? 9) then parse_digits rest (acc * 10 + d)
      else None
  end.

(** [strconv.ParseInt(s, 10, 64)]: an optional sign and decimal digits;
    [None] is a non-nil error (syntax or range). *)
Definition ParseInt (s : string) : option Z :=
  let '(neg, body) :=
    match s with
    | String "+"%char rest => (false, rest)
    | String "-"%char rest => (true, rest)
    | _ => (false, s)
    end in
  match body with
  | EmptyString => None
  | _ =>
      match parse_digits body 0 with
      | Some v =>
          let n := if neg : bool then - v else v in
          if (- 2^63 <=? n) && (n <? 2^63) then Some n else None
      | None => None
      end
  end.

(** The two float conversions of the token bucket, [strconv.ParseFloat(s,
    64)] and [fmt.Sprintf("%.2f", f)], are library code; the limiter is
    parametrised by them. *)
Class FloatText := {
  ParseFloat : string -> option float64;
  Sprintf_2f : float64 -> string
}.

(** An instance for plain decimal literals, which are what the limiter
    writes: an optional sign, digits, and an optional fraction, with at
    most 15 digits.  On these [parse_decimal] is the float nearest to the
    decimal (the quotient of two exact floats, rounded once) and
    [format_2f] prints the hundredths nearest to the float, ties to even,
    as the library does.  The other syntaxes of [strconv.ParseFloat]
    (exponents, hexadecimal, [Inf], [NaN], underscores) are not covered:
    [parse_decimal] answers [None] there.  The statements that hold for
    every check are proved for every [FloatText]; this instance serves the
    evaluations on concrete inputs. *)
Fixpoint split_dot (s : string) (int_part : string) : string * option string :=
  match s with
  | EmptyString => (int_part, None)
  | String c rest =>
      if Ascii.eqb c "."%char then (int_part, Some rest)
      else split_dot rest (int_part +:+ String c EmptyString)
  end.

Definition parse_decimal (s : string) : option float64 :=
  let '(neg, body) :=
    match s with
    | String "-"%char rest => (true, rest)
    | String "+"%char rest => (false, rest)
    | _ => (false, s)
    end in
  let '(ip, fp) := split_dot body EmptyString in
  let frac := match fp with Some f => f | None => EmptyString end in
  match ip +:+ frac with
  | EmptyString => None
  | digits =>
      match parse_digits digits 0 with
      | Some v =>
          let scale := 10 ^ Z.of_nat (String.length frac) in
          if (v <? 2^53) && (scale <? 2^53) then
            let q := div (of_int v) (of_int scale) in
            Some (if neg : bool then SFopp q else q)
          else None
      | None => None
      end
  end.

(** [n] as at least [w] decimal digits. *)
Definition pad_digits (w : nat) (n : Z) : string :=
  let s := FormatInt n in
  String.concat EmptyString (repeat "0"%string (w - String.length s)) +:+ s.

Definition format_2f (f : float64) : string :=
  match f with
  | S754_nan => "NaN"
  | S754_infinity s => if s then "-Inf" else "+Inf"
  | S754_zero s => if s then "-0.00" else "0.00"
  | S754_finite s m e =>
      (* hundredths, rounded to nearest, ties to even *)
      let k :=
        if 0 <=? e then Z.pos m * 2 ^ e * 100
        else
          let d := 2 ^ (- e) in
          let q := (Z.pos m * 100) / d in
          let r := (Z.pos m * 100) mod d in
          if 2 * r <? d then q
          else if d <? 2 * r then q + 1
          else if Z.even q then q else q + 1 in
      (if s then "-" else "") +:+ FormatInt (k / 100) +:+ "." +:+
      pad_digits 2 (k mod 100)
  end.

Definition decimal_text : FloatText :=
  {| ParseFloat := parse_decimal; Sprintf_2f := format_2f |}.

End Strconv.

(** ** The shared key-value store

    The limiter talks to Redis through go-redis pipelines.  The store is a
    finite map from keys to values with an optional expiry instant; its
    commands are the calls the limiter makes on the client, with the
    durations as the source passes them ([time.Duration], nanoseconds).
    The client turns a duration into the whole seconds or milliseconds of
    the command it sends ([formatSec], [formatMs]); the store reads the
    same clock as the caller. *)

Module Redis.
Import Float64 GoTime Strconv.

Inductive Value :=
| VInt (n : Z)                  (* a string that holds a decimal int64 *)
| VStr (s : string)             (* any other string *)
| VZSet (z : gmap Z Z).         (* sorted set: member |-> score *)

Record Entry := { value : Value; expireAt : option Z }.

Abbreviation Store := (gmap string Entry).

Inductive Error :=
| RedisNil        (* redis.Nil: the key does not exist *)
| Transport       (* the store could not be reached, or its reply was lost *)
| WrongType       (* WRONGTYPE, or a value that is not an integer *)
| Overflow.       (* increment would overflow *)

Inductive Reply :=
| RInt (n : Z)
| RStr (s : string)
| RBool (b : bool)
| RStatus.

Inductive CmdResult :=
| Res (r : Reply)
| Fail (e : Error).

Inductive Cmd :=
| Incr (key : string)
| Expire (key : string) (expiration : Z)
| ZRemRangeByScore (key : string) (min max : Z)
| ZAdd (key : string) (score member : Z)
| ZCard (key : string)
| Get (key : string)
| Set_ (key : string) (v : Value) (expiration : Z).

(** [formatSec] of go-redis: the seconds that [EXPIRE] and [SET ... EX]
    carry.  A positive duration below one second is sent as 1; any other
    duration is cut to whole seconds. *)
Definition formatSec (dur : Z) : Z :=
  if (0 <? dur) && (dur <? Second) then 1 else Z.quot dur Second.

(** [formatMs]: the milliseconds that [SET ... PX] carries. *)
Definition formatMs (dur : Z) : Z :=
  if (0 <? dur) && (dur <? Millisecond) then 1 else Z.quot dur Millisecond.

(** [usePrecise]: the duration is not a whole number of seconds. *)
Definition usePrecise (dur : Z) : bool :=
  (dur <? Second) || negb (Z.rem dur Second =? 0).

(** [redis.KeepTTL] *)
Definition KeepTTL : Z := -1.

(** The entry of [key] that is alive at [now]. *)
Definition live (now : Z) (st : Store) (key : string) : option Entry :=
  match st !! key with
  | Some e =>
      match expireAt e with
      | Some t => if t <=? now then None else Some e
      | None => Some e
      end
  | None => None
  end.

(** The expiry instant a [Set] with [expiration] gives a key at [now]:
    [PX] in milliseconds when the duration is not whole seconds, [EX] in
    seconds when it is, [KEEPTTL] (the expiry of the entry [old] that is
    replaced) for [KeepTTL], and none for any other duration. *)
Definition set_expiry (now expiration : Z) (old : option Entry) : option Z :=
  if 0 <? expiration then
    if usePrecise expiration
    then Some (now + formatMs expiration * Millisecond)
    else Some (now + formatSec expiration * Second)
  else if expiration =? KeepTTL then
    match old with Some e => expireAt e | None => None end
  else None.

Definition in_score_range (min max : Z) (kv : Z * Z) : Prop :=
  min <= kv.2 <= max.

Global Instance in_score_range_dec min max kv :
  Decision (in_score_range min max kv).
Proof. unfold in_score_range. apply _. Defined.

(** One command, run by the store at [now]. *)
Definition run (now : Z) (c : Cmd) (st : Store) : Store * CmdResult :=
  match c with
  | Incr key =>
      match live now st key with
      | None =>
          (<[key := {| value := VInt 1; expireAt := None |}]> st,
           Res (RInt 1))
      | Some e =>
          match value e with
          | VInt n =>
              if n =? 2^63 - 1 then (st, Fail Overflow)
              else (<[key := {| value := VInt (n + 1);
                                expireAt := expireAt e |}]> st,
                    Res (RInt (n + 1)))
          | _ => (st, Fail WrongType)
          end
      end
  | Expire key expiration =>
      match live now st key with
      | None => (st, Res (RBool false))
      | Some e =>
          (* EXPIRE key seconds: a time to live that is not positive
             deletes the key *)
          let seconds := formatSec expiration in
          if seconds <=? 0 then (delete key st, Res (RBool true))
          else (<[key := {| value := value e;
                            expireAt := Some (now + seconds * Second) |}]> st,
                Res (RBool true))
      end
  | ZRemRangeByScore key min max =>
      match live now st key with
      | None => (st, Res (RInt 0))
      | Some e =>
          match value e with
          | VZSet z =>
              let z' := filter (fun kv => ~ in_score_range min max kv) z in
              let removed := Z.of_nat (size z) - Z.of_nat (size z') in
              if decide (z' = ∅) then (delete key st, Res (RInt removed))
              else (<[key := {| value := VZSet z';
                                expireAt := expireAt e |}]> st,
                    Res (RInt removed))
          | _ => (st, Fail WrongType)
          end
      end
  | ZAdd key score member =>
      match live now st key with
      | None =>
          (<[key := {| value := VZSet {[ member := score ]};
                       expireAt := None |}]> st,
           Res (RInt 1))
      | Some e =>
          match value e with
          | VZSet z =>
              (<[key := {| value := VZSet (<[member := score]> z);
                           expireAt := expireAt e |}]> st,
               Res (RInt (match z !! member with Some _ => 0 | None => 1 end)))
          | _ => (st, Fail WrongType)
          end
      end
  | ZCard key =>
      match live now st key with
      | None => (st, Res (RInt 0))
      | Some e =>
          match value e with
          | VZSet z => (st, Res (RInt (Z.of_nat (size z))))
          | _ => (st, Fail WrongType)
          end
      end
  | Get key =>
      match live now st key with
      | None => (st, Fail RedisNil)
      | Some e =>
          match value e with
          | VInt n => (st, Res (RStr (FormatInt n)))
          | VStr s => (st, Res (RStr s))
          | VZSet _ => (st, Fail WrongType)
          end
      end
  | Set_ key v expiration =>
      (<[key := {| value := v;
                   expireAt :=
                     set_expiry now expiration (live now st key) |}]> st,
       Res RStatus)
  end.

(** The commands of a pipeline run one after the other; a pipeline is not
    a transaction, the commands of other clients may come in between (see
    [Concurrent] below). *)
Fixpoint run_all (now : Z) (cmds : list Cmd) (st : Store)
  : Store * list CmdResult :=
  match cmds with
  | [] => (st, [])
  | c :: cmds' =>
      let '(st1, r) := run now c st in
      let '(st2, rs) := run_all now cmds' st1 in
      (st2, r :: rs)
  end.

(** What the network does to one [pipe.Exec].  The client sends the
    pipeline and reads the replies; when that fails it may send the
    pipeline again (go-redis retries a failed attempt, three times unless
    it is configured otherwise).  An attempt that does not reach the
    store leaves no trace; one that does has run the commands. *)
Inductive Net :=
| NetOk                (* request and replies delivered *)
| NetDown              (* the request never reaches the store *)
| NetLost (n : nat)    (* the store runs the commands; the replies from
                          index [n] on are lost *)
| NetAgain (net : Net).  (* the store runs the commands, the replies are
                            lost, and the client sends the pipeline
                            again, with the outcome [net] *)

Definition lose_from (n : nat) (rs : list CmdResult) : list CmdResult :=
  take n rs ++ map (fun _ => Fail Transport) (drop n rs).

(** The first error among the commands: what [pipe.Exec] returns. *)
Fixpoint first_error (rs : list CmdResult) : option Error :=
  match rs with
  | [] => None
  | Fail e :: _ => Some e
  | Res _ :: rs' => first_error rs'
  end.

(** [pipe.Exec(ctx)]: the new store, the result of every queued command
    and the returned error. *)
Fixpoint Exec (now : Z) (net : Net) (cmds : list Cmd) (st : Store)
  : Store * list CmdResult * option Error :=
  match net with
  | NetOk =>
      let '(st', rs) := run_all now cmds st in (st', rs, first_error rs)
  | NetDown =>
      let rs := map (fun _ => Fail Transport) cmds in
      (st, rs, first_error rs)
  | NetLost n =>
      let '(st', rs) := run_all now cmds st in
      let rs' := lose_from n rs in
      (st', rs', first_error rs')
  | NetAgain net' => Exec now net' cmds (run_all now cmds st).1
  end.

(** The result of the [i]-th queued command. *)
Definition cmd_at (rs : list CmdResult) (i : nat) : CmdResult :=
  nth i rs (Fail Transport).

(** [cmd.Err()]. *)
Definition Err (r : CmdResult) : option Error :=
  match r with Res _ => None | Fail e => Some e end.

(** [cmd.Val()] of an [IntCmd]: the zero value when the command failed. *)
Definition IntVal (r : CmdResult) : Z :=
  match r with Res (RInt n) => n | _ => 0 end.

(** [cmd.Val()] of a [StringCmd]. *)
Definition StringVal (r : CmdResult) : string :=
  match r with Res (RStr s) => s | _ => EmptyString end.

End Redis.

(** ** internal/middleware/ratelimit.go *)

Module RateLimit.
Import Float64 GoTime Strconv Redis.

(** [type RateLimitStrategy string] and its three constants. *)
Definition RateLimitStrategy : Type := string.
Definition FixedWindow : RateLimitStrategy := "fixed_window".
Definition SlidingWindow : RateLimitStrategy := "sliding_window".
Definition TokenBucket : RateLimitStrategy := "token_bucket".

(** What the middleware reads of a [*gin.Context]. *)
Record Context := {
  ClientIP : string;
  Path : string;                          (* c.Request.URL.Path *)
  RequestHeader : list (string * string)
}.

(** What the middleware does to the request chain and to the response, in
    order. *)
Inductive Action :=
| Header (key value : string)       (* c.Header(key, value) *)
| Next                              (* c.Next(): the downstream handlers *)
| Abort                             (* c.Abort() *)
| JSON (code : Z) (obj : list (string * string))
                                    (* c.JSON(code, gin.H{...}) *)
| Printf (e : Error)                (* the log line of the fail-open path *)
| Panic.                            (* a run-time panic (nil dereference) *)

Record RateLimitConfig := {
  Strategy : RateLimitStrategy;
  Limit : Z;
  Window : Z;
  KeyFunc : option (Context -> string);
  ErrorHandler : option (Context -> list Action);
  SkipFunc : option (Context -> bool)
}.

(** The handle of the Redis client; the state of the store it points to is
    threaded through the checks. *)
Inductive Client := client (addr : string).

Record RateLimiter := { redis : Client; config : RateLimitConfig }.

(** A Go call either returns or panics. *)
Inductive Outcome (A : Type) :=
| Returned (a : A)
| Panicked.
Arguments Returned {A} a.
Arguments Panicked {A}.

(** [http.StatusTooManyRequests] *)
Definition StatusTooManyRequests : Z := 429.

Definition defaultErrorHandler (c : Context) : list Action :=
  [JSON StatusTooManyRequests
        [("code", FormatInt StatusTooManyRequests);
         ("message", "Rate limit exceeded. Please try again later.");
         ("error", "too_many_requests")]].

Definition IPBasedKey (c : Context) : string :=
  "rate_limit:ip:" +:+ ClientIP c.

Definition PathBasedKey (c : Context) : string :=
  "rate_limit:path:" +:+ Path c.

Definition IPAndPathKey (c : Context) : string :=
  "rate_limit:" +:+ ClientIP c +:+ ":" +:+ Path c.

Definition SkipHealthCheck (c : Context) : bool :=
  String.eqb (Path c) "/health" || String.eqb (Path c) "/metrics".

(** [NewRateLimiter]: [config] is a pointer; dereferencing [nil] panics.
    The three function fields get their defaults; nothing else is looked
    at. *)
Definition NewRateLimiter (redisClient : Client)
    (config : option RateLimitConfig) : Outcome RateLimiter :=
  match config with
  | None => Panicked
  | Some cfg =>
      let keyFunc :=
        match KeyFunc cfg with
        | None =>
            Some (fun c => "rate_limit:" +:+ ClientIP c +:+ ":" +:+ Path c)
        | Some f => Some f
        end in
      let errorHandler :=
        match ErrorHandler cfg with
        | None => Some defaultErrorHandler
        | Some h => Some h
        end in
      let skipFunc :=
        match SkipFunc cfg with
        | None => Some (fun _ : Context => false)
        | Some f => Some f
        end in
      Returned {| redis := redisClient;
                  config := {| Strategy := Strategy cfg;
                               Limit := Limit cfg;
                               Window := Window cfg;
                               KeyFunc := keyFunc;
                               ErrorHandler := errorHandler;
                               SkipFunc := skipFunc |} |}
  end.

(** The four results of a check. *)
Record CheckResult := {
  allowed : bool;
  remaining : Z;
  resetTime : Z;
  err : option Error
}.

Definition failed (e : Error) : CheckResult :=
  {| allowed := false; remaining := 0; resetTime := 0; err := Some e |}.

(** What a check reads from the outside: the clock and the fate of its
    pipelines. *)
Record Env := {
  now : Z;            (* time.Now() inside the check *)
  now_retry : Z;      (* time.Now() when Retry-After is computed *)
  net_first : Net;    (* the first pipe.Exec of the check *)
  net_second : Net    (* the second one (token bucket only) *)
}.

(** *** Algorithm 1: fixed window counter *)

Definition windowKey (key : string) (windowStart : Z) : string :=
  key +:+ ":" +:+ FormatInt windowStart.

(** The commands the check queues on its pipeline. *)
Definition fixedWindowCmds (rl : RateLimiter) (env : Env) (key : string)
  : list Cmd :=
  let windowStart := Unix (Truncate (now env) (Window (config rl))) in
  let windowKey := windowKey key windowStart in
  [Incr windowKey;
   Expire windowKey (wrap64 (Window (config rl) * 2))].

(** What the check makes of the results of its commands and of the error
    of [pipe.Exec]. *)
Definition fixedWindowResult (rl : RateLimiter) (env : Env)
    (rs : list CmdResult) (err : option Error) : CheckResult :=
  let windowStart := Unix (Truncate (now env) (Window (config rl))) in
  match err with
  | Some e => failed e
  | None =>
      let count := IntVal (cmd_at rs 0) in
      let resetTime :=
        wrap64 (windowStart + to_int64 (Seconds (Window (config rl)))) in
      let allowed := count <=? Limit (config rl) in
      let remaining := wrap64 (Limit (config rl) - count) in
      let remaining := if remaining <? 0 then 0 else remaining in
      {| allowed := allowed; remaining := remaining;
         resetTime := resetTime; err := None |}
  end.

Definition fixedWindowCheck (rl : RateLimiter) (env : Env) (key : string)
    (st : Store) : Store * CheckResult :=
  let '(st', rs, err) :=
    Exec (now env) (net_first env) (fixedWindowCmds rl env key) st in
  (st', fixedWindowResult rl env rs err).

(** *** Algorithm 2: sliding window log *)

(** The commands the check queues on its pipeline.  The bounds of
    [ZREMRANGEBYSCORE] travel as decimal strings and the store reads them
    as floats; the score of [ZADD] is [float64(nowNano)] and the member
    is [nowNano] itself. *)
Definition slidingWindowCmds (rl : RateLimiter) (env : Env) (key : string)
  : list Cmd :=
  let windowStart :=
    UnixNano (Add (now env) (wrap64 (- Window (config rl)))) in
  let nowNano := UnixNano (now env) in
  [ZRemRangeByScore key 0 (int_value windowStart);
   ZAdd key (int_value nowNano) nowNano;
   ZCard key;
   Expire key (wrap64 (Window (config rl) * 2))].

Definition slidingWindowResult (rl : RateLimiter) (env : Env)
    (rs : list CmdResult) (err : option Error) : CheckResult :=
  match err with
  | Some e => failed e
  | None =>
      let count := IntVal (cmd_at rs 2) in
      let resetTime := Unix (Add (now env) (Window (config rl))) in
      let allowed := count <=? Limit (config rl) in
      let remaining := wrap64 (Limit (config rl) - count) in
      let remaining := if remaining <? 0 then 0 else remaining in
      {| allowed := allowed; remaining := remaining;
         resetTime := resetTime; err := None |}
  end.

Definition slidingWindowCheck (rl : RateLimiter) (env : Env) (key : string)
    (st : Store) : Store * CheckResult :=
  let '(st', rs, err) :=
    Exec (now env) (net_first env) (slidingWindowCmds rl env key) st in
  (st', slidingWindowResult rl env rs err).

(** Checks on one key made one after the other, each with its own reading
    of the outside. *)
Fixpoint CheckAll
    (check : RateLimiter -> Env -> string -> Store -> Store * CheckResult)
    (rl : RateLimiter) (key : string) (envs : list Env) (st : Store)
  : Store * list CheckResult :=
  match envs with
  | [] => (st, [])
  | env :: envs' =>
      let '(st1, r) := check rl env key st in
      let '(st2, rs) := CheckAll check rl key envs' st1 in
      (st2, r :: rs)
  end.

(** *** Algorithm 3: token bucket *)

Section TokenBucket.
Context `{FT : FloatText}.

(** The token count after the refill and the attempt to take one token:
    the middle of [tokenBucketCheck], between its two pipelines. *)
Definition refill (limit : Z) (refillRate : float64) (nowUnix : Z)
    (getTokensCmd getLastRefillCmd : CmdResult) : bool * float64 :=
  let tokens := of_int limit in
  let tokens :=
    match Err getTokensCmd with
    | None =>
        match ParseFloat (StringVal getTokensCmd) with
        | Some val => val
        | None => tokens
        end
    | Some _ => tokens
    end in
  let lastRefill := nowUnix in
  let lastRefill :=
    match Err getLastRefillCmd with
    | None =>
        match ParseInt (StringVal getLastRefillCmd) with
        | Some val => val
        | None => lastRefill
        end
    | Some _ => lastRefill
    end in
  let elapsed := wrap64 (nowUnix - lastRefill) in
  let tokensToAdd := mul (of_int elapsed) refillRate in
  let tokens := add tokens tokensToAdd in
  let tokens := if ltb (of_int limit) tokens then of_int limit else tokens in
  let allowed := leb one tokens in
  let tokens := if allowed then sub tokens one else tokens in
  (allowed, tokens).

Definition tokenBucketCheck (rl : RateLimiter) (env : Env) (key : string)
    (st : Store) : Store * CheckResult :=
  let tokensKey := key +:+ ":tokens" in
  let lastRefillKey := key +:+ ":last_refill" in
  let refillRate :=
    div (of_int (Limit (config rl))) (Seconds (Window (config rl))) in
  (* the error of the first pipeline is dropped: [_, _ = pipe.Exec(ctx)] *)
  let '(st1, rs, _) :=
    Exec (now env) (net_first env) [Get tokensKey; Get lastRefillKey] st in
  let '(allowed, tokens) :=
    refill (Limit (config rl)) refillRate (Unix (now env))
           (cmd_at rs 0) (cmd_at rs 1) in
  let '(st2, _, err) :=
    Exec (now env) (net_second env)
      [Set_ tokensKey (VStr (Sprintf_2f tokens))
            (wrap64 (Window (config rl) * 2));
       Set_ lastRefillKey (VInt (Unix (now env)))
            (wrap64 (Window (config rl) * 2))] st1 in
  match err with
  | Some e => (st2, failed e)
  | None =>
      let resetTime := Unix (now env) in
      let resetTime :=
        if ltb tokens one then
          let secondsUntilRefill :=
            to_int64 (div (sub one tokens) refillRate) in
          wrap64 (resetTime + secondsUntilRefill)
        else resetTime in
      let remaining := to_int64 tokens in
      let remaining := if remaining <? 0 then 0 else remaining in
      (st2, {| allowed := allowed; remaining := remaining;
               resetTime := resetTime; err := None |})
  end.

(** [checkRateLimit]: the [switch] on the strategy, with the fixed window
    as [default]. *)
Definition checkRateLimit (rl : RateLimiter) (env : Env) (key : string)
    (st : Store) : Store * CheckResult :=
  if String.eqb (Strategy (config rl)) FixedWindow then
    fixedWindowCheck rl env key st
  else if String.eqb (Strategy (config rl)) SlidingWindow then
    slidingWindowCheck rl env key st
  else if String.eqb (Strategy (config rl)) TokenBucket then
    tokenBucketCheck rl env key st
  else fixedWindowCheck rl env key st.

(** [Middleware]: the handler it returns, run on one request.  Calling a
    [nil] function field panics; [NewRateLimiter] fills all three. *)
Definition Middleware (rl : RateLimiter) (env : Env) (c : Context)
    (st : Store) : Store * list Action :=
  match SkipFunc (config rl) with
  | None => (st, [Panic])
  | Some skipFunc =>
      if skipFunc c then (st, [Next])
      else
        match KeyFunc (config rl) with
        | None => (st, [Panic])
        | Some keyFunc =>
            let key := keyFunc c in
            let '(st', r) := checkRateLimit rl env key st in
            match err r with
            | Some e => (st', [Printf e; Next])
            | None =>
                let headers :=
                  [Header "X-RateLimit-Limit" (FormatInt (Limit (config rl)));
                   Header "X-RateLimit-Remaining" (FormatInt (remaining r));
                   Header "X-RateLimit-Reset" (FormatInt (resetTime r))] in
                if negb (allowed r) then
                  let retryAfter :=
                    wrap64 (resetTime r - Unix (now_retry env)) in
                  let retryAfter :=
                    if retryAfter <? 0 then 0 else retryAfter in
                  match ErrorHandler (config rl) with
                  | None =>
                      (st', headers ++
                            [Header "Retry-After" (FormatInt retryAfter);
                             Panic])
                  | Some errorHandler =>
                      (st', headers ++
                            [Header "Retry-After" (FormatInt retryAfter)] ++
                            errorHandler c ++ [Abort])
                  end
                else (st', headers ++ [Next])
            end
        end
  end.

(** Requests served one after the other by the handler, each with its own
    reading of the outside. *)
Fixpoint ServeAll (rl : RateLimiter) (reqs : list (Env * Context))
    (st : Store) : Store * list (list Action) :=
  match reqs with
  | [] => (st, [])
  | (env, c) :: reqs' =>
      let '(st1, actions) := Middleware rl env c st in
      let '(st2, rest) := ServeAll rl reqs' st1 in
      (st2, actions :: rest)
  end.

End TokenBucket.

End RateLimit.

(** ** internal/filter/bloom.go *)

Module Filter.

(** Modelled from the spec: the type [bloom.BloomFilter] of
    github.com/bits-and-blooms/bloom/v3, with its methods [AddString],
    [TestString] and [ClearAll], is not under src/.  Section 3 of the spec
    gives its state: "a fixed-size bit array plus a derived set of hash
    functions"; adding a key sets the bit of every hash function, testing
    a key looks whether all of them are set, and nothing but [ClearAll]
    resets a bit.  The bit array is the set of the indices of its set
    bits. *)
Module bloom.

Record BloomFilter := {
  m : N;                      (* the size of the bit array *)
  k : nat;                    (* the number of hash functions *)
  hash : nat -> string -> N;  (* the hash functions *)
  b : gset N                  (* the bits that are set *)
}.

(** The bit of the [i]-th hash function for [data]. *)
Definition location (f : BloomFilter) (data : string) (i : nat) : N :=
  (hash f i data mod m f)%N.

Definition locations (f : BloomFilter) (data : string) : list N :=
  map (location f data) (seq 0 (k f)).

Definition New (m k : N) (hash : nat -> string -> N) : BloomFilter :=
  {| m := N.max 1 m; k := N.to_nat (N.max 1 k); hash := hash; b := ∅ |}.

(** [NewWithEstimates(n, fp)]: a filter of the size and with the number of
    hash functions that the library estimates for [n] keys at the
    false-positive rate [fp]; the estimate is a parameter. *)
Definition NewWithEstimates
    (estimate : N -> Float64.float64 -> N * N)
    (hash : nat -> string -> N) (n : N) (fp : Float64.float64)
  : BloomFilter :=
  New (estimate n fp).1 (estimate n fp).2 hash.

Definition AddString (f : BloomFilter) (data : string) : BloomFilter :=
  {| m := m f; k := k f; hash := hash f;
     b := list_to_set (locations f data) ∪ b f |}.

Definition TestString (f : BloomFilter) (data : string) : bool :=
  forallb (fun i => bool_decide (i ∈ b f)) (locations f data).

Definition ClearAll (f : BloomFilter) : BloomFilter :=
  {| m := m f; k := k f; hash := hash f; b := ∅ |}.

End bloom.

(** [BloomFilter]: the library filter behind a [sync.RWMutex].  Every
    method holds the lock for its whole body, so the methods run one at a
    time and a method is a function of the filter. *)
Record BloomFilter := { filter : bloom.BloomFilter }.

Definition NewBloomFilter
    (estimate : N -> Float64.float64 -> N * N)
    (hash : nat -> string -> N) (capacity : N) (fpRate : Float64.float64)
  : BloomFilter :=
  {| filter := bloom.NewWithEstimates estimate hash capacity fpRate |}.

Definition Add (bf : BloomFilter) (shortCode : string) : BloomFilter :=
  {| filter := bloom.AddString (filter bf) shortCode |}.

Definition Test (bf : BloomFilter) (shortCode : string) : bool :=
  bloom.TestString (filter bf) shortCode.

(** [for _, code := range shortCodes { bf.filter.AddString(code) }] *)
Definition AddBatch (bf : BloomFilter) (shortCodes : list string)
  : BloomFilter :=
  {| filter := fold_left bloom.AddString shortCodes (filter bf) |}.

Definition Clear (bf : BloomFilter) : BloomFilter :=
  {| filter := bloom.ClearAll (filter bf) |}.

(** A call on the filter, and a sequence of calls: each one returns the
    filter it leaves and, for [Test], the answer. *)
Inductive Op :=
| OpAdd (shortCode : string)
| OpAddBatch (shortCodes : list string)
| OpTest (shortCode : string)
| OpClear.

Definition step (bf : BloomFilter) (op : Op) : BloomFilter * option bool :=
  match op with
  | OpAdd c => (Add bf c, None)
  | OpAddBatch cs => (AddBatch bf cs, None)
  | OpTest c => (bf, Some (Test bf c))
  | OpClear => (Clear bf, None)
  end.

Definition run (bf : BloomFilter) (ops : list Op) : BloomFilter :=
  fold_left (fun bf op => (step bf op).1) ops bf.

Definition is_clear (op : Op) : bool :=
  match op with OpClear => true | _ => false end.

(** [op] adds the key [c]. *)
Definition adds (c : string) (op : Op) : Prop :=
  match op with
  | OpAdd c' => c' = c
  | OpAddBatch cs => c ∈ cs
  | _ => False
  end.

End Filter.

(** ** internal/service/url_service.go *)

Module Service.
Import GoTime Redis.

(** internal/model/url.go *)
Record URLMapping := {
  ID : Z;
  ShortCode : string;
  OriginalURL : string;
  CreatedAt : Z;
  ExpiredAt : option Z;
  VisitCount : Z;
  Status : Z
}.

Definition IsExpired (u : URLMapping) (now : Z) : bool :=
  match ExpiredAt u with
  | None => false
  | Some t => t <? now          (* time.Now().After(t) *)
  end.

Definition IsActive (u : URLMapping) (now : Z) : bool :=
  (Status u =? 1) && negb (IsExpired u now).

(** The database compares the strings of a column by the collation of
    the column: two strings are the same short code, or the same URL, for
    [WHERE column = ?] and for a unique index exactly when their sort keys
    (the weight strings of the collation) are equal.  The collation is
    set by the schema, not by the Go code (migrations/001_init.sql asks
    for [utf8mb4_unicode_ci], which ignores case, accents and trailing
    spaces); the service is parametrised by it. *)
Class Collation := { sort_key : string -> string }.

(** internal/cache/redis.go *)
Definition ShortCodePrefix : string := "short:code:".
Definition DefaultTTL : Z := 24 * 3600 * Second.

(** An access to the Resolution Cache or to the durable store. *)
Inductive Access :=
| CacheGet (shortCode : string)
| CacheSet (shortCode originalURL : string)
| RepoGetByShortCode (shortCode : string).

(** What [URLService] holds ([repo], [cache], [bloom]) and the accesses
    made so far. *)
Record State := {
  bloom : Filter.BloomFilter;
  cache : Store;
  repo : gmap string URLMapping;     (* url_mappings, by the sort key of
                                        short_code (its unique index) *)
  accesses : list Access
}.

(** What a call reads from the outside. *)
Record Env := {
  now : Z;
  cache_get_net : Net;
  cache_set_net : Net;
  repo_up : bool
}.

Inductive ServiceError :=
| ErrNotFound           (* "short code not found" *)
| ErrInactive           (* "short code is expired or disabled" *)
| ErrCache (e : Error)  (* "failed to get from Redis: ..." *)
| ErrRepo.              (* "failed to get URL mapping: ..." *)

(** A small state monad for the calls of the service, with stdpp's
    notation [x ← m; k]. *)
Definition M (A : Type) : Type := State -> A * State.

Global Instance M_ret : MRet M := fun A (a : A) s => (a, s).
Global Instance M_bind : MBind M :=
  fun A B (f : A -> M B) (m : M A) s => let '(a, s') := m s in f a s'.

Definition record (a : Access) : M unit :=
  fun s => (tt, {| bloom := bloom s; cache := cache s; repo := repo s;
                   accesses := accesses s ++ [a] |}).

(** [RedisCache.Get]: [""] and no error on a miss.  The command is sent
    on its own; it is run as a pipeline of one command. *)
Definition cache_Get (env : Env) (shortCode : string)
  : M (string * option ServiceError) :=
  _ ← record (CacheGet shortCode);
  (fun s =>
    let '(st', rs, _) :=
      Exec (now env) (cache_get_net env)
           [Get (ShortCodePrefix +:+ shortCode)] (cache s) in
    let r := cmd_at rs 0 in
    let res :=
      match Err r with
      | Some RedisNil => (EmptyString, None)
      | Some e => (EmptyString, Some (ErrCache e))
      | None => (StringVal r, None)
      end in
    (res, {| bloom := bloom s; cache := st'; repo := repo s;
             accesses := accesses s |})) : M _.

(** [RedisCache.Set]: [SetWithTTL] with [DefaultTTL]. *)
Definition cache_Set (env : Env) (shortCode originalURL : string)
  : M (option ServiceError) :=
  _ ← record (CacheSet shortCode originalURL);
  (fun s =>
    let '(st', rs, _) :=
      Exec (now env) (cache_set_net env)
           [Set_ (ShortCodePrefix +:+ shortCode) (VStr originalURL)
                 DefaultTTL] (cache s) in
    (match Err (cmd_at rs 0) with
     | Some e => Some (ErrCache e)
     | None => None
     end,
     {| bloom := bloom s; cache := st'; repo := repo s;
        accesses := accesses s |})) : M _.

Section WithCollation.
Context `{C : Collation}.

(** [URLRepository.GetByShortCode]: the row whose short code the
    database takes for [shortCode]; [nil, nil] when no record matches. *)
Definition repo_GetByShortCode (env : Env) (shortCode : string)
  : M (option URLMapping * option ServiceError) :=
  _ ← record (RepoGetByShortCode shortCode);
  (fun s =>
    if repo_up env then ((repo s !! sort_key shortCode, None), s)
    else ((None, Some ErrRepo), s)) : M _.

(** [GetOriginalURL]: the cascade Bloom filter -> Redis -> MySQL.  The
    error of the cache read is printed and dropped. *)
Definition GetOriginalURL (env : Env) (shortCode : string)
  : M (string * option ServiceError) :=
  fun s =>
    if negb (Filter.Test (bloom s) shortCode) then
      ((EmptyString, Some ErrNotFound), s)
    else
      (r ← cache_Get env shortCode;
       let originalURL := r.1 in
       if negb (String.eqb originalURL EmptyString) then
         mret (originalURL, None)
       else
         q ← repo_GetByShortCode env shortCode;
         match q with
         | (_, Some e) => mret (EmptyString, Some e)
         | (None, None) => mret (EmptyString, Some ErrNotFound)
         | (Some mapping, None) =>
             if negb (IsActive mapping (now env)) then
               mret (EmptyString, Some ErrInactive)
             else
               _ ← cache_Set env shortCode (OriginalURL mapping);
               mret (OriginalURL mapping, None)
         end) s.

End WithCollation.

End Service.

(** ** internal/cache/redis.go *)

Module Cache.
Import GoTime Redis.

(** [r.client.Del(ctx, key)], sent on its own: the key is removed; the
    reply counts the keys that were there. *)
Fixpoint Del (now : Z) (net : Net) (key : string) (st : Store)
  : Store * CmdResult :=
  let removed :=
    match live now st key with Some _ => 1 | None => 0 end in
  match net with
  | NetOk | NetLost (S _) => (delete key st, Res (RInt removed))
  | NetDown => (st, Fail Transport)
  | NetLost O => (delete key st, Fail Transport)
  | NetAgain net' => Del now net' key (delete key st)
  end.

(** [RedisCache.Get]: the empty string and no error on a miss
    ([redis.Nil]); any other error is returned. *)
Definition Get (now : Z) (net : Net) (shortCode : string) (st : Store)
  : Store * (string * option Error) :=
  let key := Service.ShortCodePrefix +:+ shortCode in
  let '(st', rs, _) := Exec now net [Redis.Get key] st in
  let r := cmd_at rs 0 in
  (st',
   match Err r with
   | Some RedisNil => (EmptyString, None)
   | Some e => (EmptyString, Some e)
   | None => (StringVal r, None)
   end).

(** [RedisCache.SetWithTTL] *)
Definition SetWithTTL (now : Z) (net : Net) (shortCode originalURL : string)
    (ttl : Z) (st : Store) : Store * option Error :=
  let key := Service.ShortCodePrefix +:+ shortCode in
  let '(st', rs, _) := Exec now net [Set_ key (VStr originalURL) ttl] st in
  (st', Err (cmd_at rs 0)).

(** [RedisCache.Set]: [SetWithTTL] with [DefaultTTL]. *)
Definition Set_ (now : Z) (net : Net) (shortCode originalURL : string)
    (st : Store) : Store * option Error :=
  SetWithTTL now net shortCode originalURL Service.DefaultTTL st.

(** [RedisCache.Delete] *)
Definition Delete (now : Z) (net : Net) (shortCode : string) (st : Store)
  : Store * option Error :=
  let key := Service.ShortCodePrefix +:+ shortCode in
  let '(st', r) := Del now net key st in
  (st', Err r).

End Cache.

(** ** internal/utils/snowflake.go *)

Module Snowflake.

(** The library github.com/bwmarrin/snowflake is not part of the
    repository; the generator is parametrised by its two functions:
    [snowflake.NewNode], which refuses some node numbers, and
    [Node.Generate], which reads the clock, updates the node and
    returns the next identifier. *)
Class Library := {
  Node : Type;
  NewNode : Z -> option Node;
  Generate : Node -> Z -> Node * Z
}.

Inductive Error :=
| ErrNewNode            (* the error of [snowflake.NewNode] *)
| ErrNotInitialized.    (* "snowflake node not initialized" *)

(** [nodeID := (datacenterID << 5) | workerID] on [int64]. *)
Definition nodeID (datacenterID workerID : Z) : Z :=
  Z.lor (wrap64 (Z.shiftl datacenterID 5)) workerID.

Section WithLibrary.
Context `{L : Library}.

(** The package variables [node] and [once]. *)
Record Global := { node : option Node; once : bool }.

Definition initial : Global := {| node := None; once := false |}.

(** [InitSnowflake]: the body runs in [once.Do]; a later call does
    nothing and returns the zero value of [err]. *)
Definition InitSnowflake (datacenterID workerID : Z) (g : Global)
  : Global * option Error :=
  if once g then (g, None)
  else
    match NewNode (nodeID datacenterID workerID) with
    | Some n => ({| node := Some n; once := true |}, None)
    | None => ({| node := None; once := true |}, Some ErrNewNode)
    end.

(** [GenerateID], called at [now]. *)
Definition GenerateID (now : Z) (g : Global) : Global * (Z * option Error) :=
  match node g with
  | None => (g, (0, Some ErrNotInitialized))
  | Some n =>
      let '(n', id) := Generate n now in
      ({| node := Some n'; once := once g |}, (id, None))
  end.

Definition GetNode (g : Global) : option Node := node g.

(** [GenerateShortCode] of internal/utils/shortcode.go. *)
Definition GenerateShortCode (now : Z) (g : Global)
  : Global * (string * option Error) :=
  let '(g', (id, err)) := GenerateID now g in
  match err with
  | Some e => (g', (EmptyString, Some e))
  | None => (g', (Shortcode.EncodeBase62 id, None))
  end.

End WithLibrary.

End Snowflake.

(** ** package repository

    The table [url_mappings] is the finite map of its rows by the sort
    key of [short_code], the column of its unique index: the database
    holds at most one row for the short codes that its collation takes
    for the same.  Times are stored as they are.  A statement that reads
    reaches the database or fails, as the outside decides; so does a
    statement that writes, and its answer may get lost after it was
    committed. *)

Module Repository.
Import Service.

Inductive Error :=
| FailedToCreate       (* "failed to create URL mapping: ..." *)
| FailedToGet          (* "failed to get URL mapping: ..." *)
| FailedToGetAll.      (* "failed to get all short codes: ..." *)

(** What becomes of a statement that writes. *)
Inductive Delivery :=
| Applied       (* the statement is run and its result comes back *)
| Refused       (* the statement is not run, or is rolled back: no
                   connection, a deadline, an error of the database *)
| Unanswered.   (* the statement is run and committed; the result does
                   not come back (the connection breaks, the context is
                   cancelled) and the driver returns an error *)

(** The next value of [AUTO_INCREMENT] in a table that never shrinks. *)
Definition next_id (table : gmap string URLMapping) : Z :=
  1 + map_fold (fun _ m acc => Z.max (ID m) acc) 0 table.

(** [First(&mapping)]: the row with the least primary key. *)
Definition first_by_id (rows : list URLMapping) : option URLMapping :=
  foldr (fun m acc =>
           match acc with
           | Some m' => if ID m' <? ID m then Some m' else Some m
           | None => Some m
           end) None rows.

Section WithCollation.
Context `{C : Collation}.

(** [GetByOriginalURL]: the first of the rows whose URL the database
    takes for [originalURL]; [nil, nil] when no row matches. *)
Definition GetByOriginalURL (up : bool) (table : gmap string URLMapping)
    (originalURL : string) : option URLMapping * option Error :=
  if up then
    (first_by_id
       (List.filter
          (fun m => String.eqb (sort_key (OriginalURL m))
                               (sort_key originalURL))
          (map snd (map_to_list table))),
     None)
  else (None, Some FailedToGet).

(** [Create]: the insertion fails when the database refuses it and when
    the unique index has a row for the short code already; otherwise the
    row gets its primary key and its creation time, in the table and in
    [mapping].  When the answer to a committed insertion is lost, the row
    is in the table and the error is returned all the same. *)
Definition Create (net : Delivery) (now : Z) (table : gmap string URLMapping)
    (mapping : URLMapping)
  : gmap string URLMapping * URLMapping * option Error :=
  match net with
  | Refused => (table, mapping, Some FailedToCreate)
  | Applied | Unanswered =>
      match table !! sort_key (ShortCode mapping) with
      | Some _ => (table, mapping, Some FailedToCreate)
      | None =>
          let row :=
            {| ID := next_id table; ShortCode := ShortCode mapping;
               OriginalURL := OriginalURL mapping; CreatedAt := now;
               ExpiredAt := ExpiredAt mapping;
               VisitCount := VisitCount mapping;
               Status := Status mapping |} in
          (<[sort_key (ShortCode mapping) := row]> table, row,
           match net with
           | Unanswered => Some FailedToCreate
           | _ => None
           end)
      end
  end.

End WithCollation.

(** [GetAllShortCodes]: the column [short_code], in the order the
    database gives the rows. *)
Definition GetAllShortCodes (up : bool) (table : gmap string URLMapping)
  : list string * option Error :=
  if up then (map (fun kv => ShortCode kv.2) (map_to_list table), None)
  else ([], Some FailedToGetAll).

End Repository.

(** ** internal/service/url_service.go: creation, information, start-up

    [RecordVisit] only starts two goroutines and returns [nil]; it is not
    modelled.  The calls to [GetByOriginalURL], [Create] and
    [GetAllShortCodes] are not recorded in [accesses], which lists the
    accesses of a resolution. *)

Module UrlService.
Import GoTime Redis Service.

(** net/url: what [validateURL] reads of a parsed URL.  The parser
    [url.ParseRequestURI] is library code; the service is parametrised
    by it. *)
Record URL := { Scheme : string; Host : string }.

Class NetURL := { ParseRequestURI : string -> option URL }.

Inductive Error :=
| ErrEmptyURL                       (* "URL cannot be empty" *)
| ErrInvalidFormat                  (* "invalid URL format: ..." *)
| ErrScheme                         (* "URL must use http or https scheme" *)
| ErrHost                           (* "URL must have a valid host" *)
| ErrGenerate (e : Snowflake.Error) (* "failed to generate short code: ..." *)
| ErrRepository (e : Repository.Error)
| ErrDatabase (e : ServiceError)    (* an error of [GetByShortCode] *)
| ErrShortCodeNotFound.             (* "short code not found" *)

(** What a call to [CreateShortURL] reads from the outside: the clock,
    whether each of its reads of the database gets through, what becomes
    of its insertion, and the fate of its write to the cache. *)
Record Outside := {
  now : Z;
  url_lookup_up : bool;                (* GetByOriginalURL *)
  code_lookup_up : nat -> bool;        (* GetByShortCode, by iteration *)
  create_net : Repository.Delivery;    (* Create *)
  cache_net : Net                      (* cache.Set *)
}.

(** The outside of the call of iteration [i] to [GetByShortCode], and of
    the call to [cache.Set]. *)
Definition env_of (out : Outside) (i : nat) : Env :=
  {| Service.now := now out; cache_get_net := NetOk;
     cache_set_net := cache_net out; repo_up := code_lookup_up out i |}.

Section WithLibraries.
Context `{C : Collation} `{P : NetURL} `{L : Snowflake.Library}.

(** The service and the generator of identifiers it uses. *)
Record World := { service : State; generator : Snowflake.Global }.

Definition validateURL (rawURL : string) : option Error :=
  if String.eqb rawURL EmptyString then Some ErrEmptyURL
  else
    match ParseRequestURI rawURL with
    | None => Some ErrInvalidFormat
    | Some parsedURL =>
        if negb (String.eqb (Scheme parsedURL) "http") &&
           negb (String.eqb (Scheme parsedURL) "https")
        then Some ErrScheme
        else if String.eqb (Host parsedURL) EmptyString then Some ErrHost
        else None
    end.

(** The loop [for i := 0; i < 3; i++] that looks for a collision:
    [todo] iterations are left, [i] is the number of the next one.  It
    ends with an error or with the short code to use. *)
Fixpoint collision_loop (out : Outside) (todo i : nat) (shortCode : string)
    (w : World) : (Error + string) * World :=
  match todo with
  | O => (inr shortCode, w)
  | S todo' =>
      let '((exists_, err), s1) :=
        repo_GetByShortCode (env_of out i) shortCode (service w) in
      let w1 := {| service := s1; generator := generator w |} in
      match err, exists_ with
      | Some e, _ => (inl (ErrDatabase e), w1)
      | None, None => (inr shortCode, w1)
      | None, Some _ =>
          let '(g', (shortCode', err')) :=
            Snowflake.GenerateShortCode (now out) (generator w1) in
          let w2 := {| service := s1; generator := g' |} in
          match err' with
          | Some e => (inl (ErrGenerate e), w2)
          | None => collision_loop out todo' (S i) shortCode' w2
          end
      end
  end.

(** The rest of [CreateShortURL] once no active mapping of the URL was
    found, from "Generate short code" on.  The fields [ID] and
    [CreatedAt] of the new mapping are zero; [Create] fills them in.
    When [Create] returns an error the function returns it at once: the
    table is the one [Create] leaves, cache and filter are not touched. *)
Definition create_new (out : Outside) (originalURL : string)
    (expiredAt : option Z) (w : World)
  : (option URLMapping * option Error) * World :=
  let '(g1, (shortCode, err)) :=
    Snowflake.GenerateShortCode (now out) (generator w) in
  let w1 := {| service := service w; generator := g1 |} in
  match err with
  | Some e => ((None, Some (ErrGenerate e)), w1)
  | None =>
      match collision_loop out 3 0 shortCode w1 with
      | (inl e, w2) => ((None, Some e), w2)
      | (inr shortCode, w2) =>
          let s2 := service w2 in
          let mapping :=
            {| ID := 0; ShortCode := shortCode; OriginalURL := originalURL;
               CreatedAt := 0; ExpiredAt := expiredAt; VisitCount := 0;
               Status := 1 |} in
          match Repository.Create (create_net out) (now out) (repo s2)
                  mapping with
          | (table, _, Some e) =>
              ((None, Some (ErrRepository e)),
               {| service := {| bloom := bloom s2; cache := cache s2;
                                repo := table; accesses := accesses s2 |};
                  generator := generator w2 |})
          | (table, row, None) =>
              let s3 := {| bloom := bloom s2; cache := cache s2;
                           repo := table; accesses := accesses s2 |} in
              (* the error of [cache.Set] is printed and dropped *)
              let '(_, s4) :=
                cache_Set (env_of out 0) shortCode originalURL s3 in
              let s5 := {| bloom := Filter.Add (bloom s4) shortCode;
                           cache := cache s4; repo := repo s4;
                           accesses := accesses s4 |} in
              ((Some row, None),
               {| service := s5; generator := generator w2 |})
          end
      end
  end.

(** [CreateShortURL]: the mapping it returns, or the error. *)
Definition CreateShortURL (out : Outside) (originalURL : string)
    (expiredAt : option Z) (w : World)
  : (option URLMapping * option Error) * World :=
  match validateURL originalURL with
  | Some e => ((None, Some e), w)
  | None =>
      match Repository.GetByOriginalURL (url_lookup_up out)
              (repo (service w)) originalURL with
      | (_, Some e) => ((None, Some (ErrRepository e)), w)
      | (Some existing, None) =>
          if IsActive existing (now out) then ((Some existing, None), w)
          else create_new out originalURL expiredAt w
      | (None, None) => create_new out originalURL expiredAt w
      end
  end.

End WithLibraries.

(** [GetURLInfo]: the row of the short code, whatever its state. *)
Definition GetURLInfo `{C : Collation} (env : Env) (shortCode : string)
  : M (option URLMapping * option Error) :=
  q ← repo_GetByShortCode env shortCode;
  match q with
  | (_, Some e) => mret (None, Some (ErrDatabase e))
  | (None, None) => mret (None, Some ErrShortCodeNotFound)
  | (Some mapping, None) => mret (Some mapping, None)
  end.

(** [InitBloomFilter]: every short code of the table goes into the
    filter. *)
Definition InitBloomFilter (up : bool) (s : State) : option Error * State :=
  match Repository.GetAllShortCodes up (repo s) with
  | (_, Some e) => (Some (ErrRepository e), s)
  | (shortCodes, None) =>
      (None,
       {| bloom := Filter.AddBatch (bloom s) shortCodes; cache := cache s;
          repo := repo s; accesses := accesses s |})
  end.

End UrlService.

(** ** cmd/server/main.go: the limiter of the server *)

Module Server.
Import GoTime RateLimit.

(** The [switch] on [cfg.RateLimit.Strategy]: the name of the
    configuration file as a strategy, the sliding window by [default]. *)
Definition strategyFromConfig (name : string) : RateLimitStrategy :=
  if String.eqb name "fixed_window" then FixedWindow
  else if String.eqb name "sliding_window" then SlidingWindow
  else if String.eqb name "token_bucket" then TokenBucket
  else SlidingWindow.

(** The configuration of [globalLimiter]: limit and window (in seconds)
    come from the configuration file, health checks are skipped. *)
Definition globalLimiterConfig (name : string) (limit window : Z)
  : RateLimitConfig :=
  {| Strategy := strategyFromConfig name;
     Limit := limit;
     Window := wrap64 (window * Second);
     KeyFunc := None;
     ErrorHandler := None;
     SkipFunc := Some SkipHealthCheck |}.

End Server.

(** ** Two checks at the same time

    Every rate limiter instance has its own connection; the store runs
    the commands it receives one at a time.  [rl.redis.Pipeline()] queues
    and sends commands without [MULTI]/[EXEC] (that would be
    [TxPipeline()]), so the store is free to run a command of another
    client between two commands of a pipeline.  A schedule tells whose
    command the store runs next. *)

Module Concurrent.
Import Redis RateLimit.

Inductive Who := A | B.

Global Instance Who_eq_dec : EqDecision Who.
Proof. solve_decision. Defined.

(** A client in the middle of its pipeline: its clock, the commands the
    store has not run yet and the results of those it has run. *)
Record Client := {
  clock : Z;
  queued : list Cmd;
  results : list CmdResult
}.

Definition start (clock : Z) (cmds : list Cmd) : Client :=
  {| clock := clock; queued := cmds; results := [] |}.

(** The store runs the next command of [c]. *)
Definition serve (c : Client) (st : Store) : Store * Client :=
  match queued c with
  | [] => (st, c)
  | cmd :: cmds =>
      let '(st', r) := run (clock c) cmd st in
      (st', {| clock := clock c; queued := cmds;
               results := results c ++ [r] |})
  end.

Fixpoint run_schedule (sched : list Who) (a b : Client) (st : Store)
  : Store * Client * Client :=
  match sched with
  | [] => (st, a, b)
  | A :: sched' =>
      let '(st', a') := serve a st in run_schedule sched' a' b st'
  | B :: sched' =>
      let '(st', b') := serve b st in run_schedule sched' a b' st'
  end.

(** Every way to interleave [na] commands of A with [nb] commands of B. *)
Fixpoint schedules (na nb : nat) : list (list Who) :=
  match na with
  | O => [repeat B nb]
  | S na' =>
      (fix with_b (nb : nat) : list (list Who) :=
         match nb with
         | O => [repeat A (S na')]
         | S nb' =>
             map (cons A) (schedules na' (S nb')) ++
             map (cons B) (with_b nb')
         end) nb
  end.

(** A then B, each pipeline in one piece: what an atomic unit would be. *)
Definition serial_AB (na nb : nat) : list Who := repeat A na ++ repeat B nb.
Definition serial_BA (na nb : nat) : list Who := repeat B nb ++ repeat A na.

(** Two checks of the same limiter on the same key, their commands run in
    the order of [sched] over a working network: the store they leave and
    the answer of each. *)
Definition two_checks
    (cmds : RateLimiter -> Env -> string -> list Cmd)
    (result : RateLimiter -> Env -> list CmdResult -> option Error ->
              CheckResult)
    (rl : RateLimiter) (envA envB : Env) (key : string)
    (sched : list Who) (st : Store) : Store * CheckResult * CheckResult :=
  let '(st', a, b) :=
    run_schedule sched (start (now envA) (cmds rl envA key))
                 (start (now envB) (cmds rl envB key)) st in
  (st',
   result rl envA (results a) (first_error (results a)),
   result rl envB (results b) (first_error (results b))).

End Concurrent.

(** ** Sample data

    Concrete filters, states, configurations and requests on which the
    statements below are instantiated. *)

Module Samples.
Import GoTime Strconv Redis.

Definition sample_hash (i : nat) (data : string) : N :=
  (N.of_nat (String.length data) * 31 + N.of_nat i * 7)%N.

(** A filter of 64 bits with 3 hash functions. *)
Definition sample_filter : Filter.BloomFilter :=
  Filter.NewBloomFilter (fun _ _ => (64, 3)%N) sample_hash 10
    (Float64.div (Float64.of_int 1) (Float64.of_int 100)).

Definition T0 : Z := 1700000000 * Second.

Definition sample_state : Service.State :=
  {| Service.bloom := Filter.Add sample_filter "abc";
     Service.cache := ∅;
     Service.repo :=
       {[ "abc" := {| Service.ID := 1; Service.ShortCode := "abc";
                      Service.OriginalURL := "https://example.org/";
                      Service.CreatedAt := 0; Service.ExpiredAt := None;
                      Service.VisitCount := 0; Service.Status := 1 |} ]};
     Service.accesses := [] |}.

(** A collation for the examples: it ignores the case of the letters
    A to Z, as the collation of the schema does. *)
Definition fold_char (c : ascii) : ascii :=
  let n := N_of_ascii c in
  if ((65 <=? n) && (n <=? 90))%N then ascii_of_N (n + 32) else c.

Fixpoint fold_case (s : string) : string :=
  match s with
  | EmptyString => EmptyString
  | String c rest => String (fold_char c) (fold_case rest)
  end.

Definition folding : Service.Collation :=
  {| Service.sort_key := fold_case |}.

Definition sample_env : Service.Env :=
  {| Service.now := T0; Service.cache_get_net := NetOk;
     Service.cache_set_net := NetOk; Service.repo_up := true |}.

Definition sample_context : RateLimit.Context :=
  {| RateLimit.ClientIP := "192.168.1.100";
     RateLimit.Path := "/api/v1/shorten";
     RateLimit.RequestHeader := [] |}.

Definition sample_config (strategy : RateLimit.RateLimitStrategy)
    (limit window : Z) : RateLimit.RateLimitConfig :=
  {| RateLimit.Strategy := strategy; RateLimit.Limit := limit;
     RateLimit.Window := window; RateLimit.KeyFunc := None;
     RateLimit.ErrorHandler := None; RateLimit.SkipFunc := None |}.

(** The limiter [NewRateLimiter] builds from [sample_config]. *)
Definition sample_limiter (strategy : RateLimit.RateLimitStrategy)
    (limit window : Z) : RateLimit.RateLimiter :=
  match RateLimit.NewRateLimiter (RateLimit.client "localhost:6379")
          (Some (sample_config strategy limit window)) with
  | RateLimit.Returned rl => rl
  | RateLimit.Panicked =>
      {| RateLimit.redis := RateLimit.client "";
         RateLimit.config := sample_config strategy limit window |}
  end.

(** The global limiter of cmd/server/main.go: health checks are skipped. *)
Definition health_limiter : RateLimit.RateLimiter :=
  match RateLimit.NewRateLimiter (RateLimit.client "localhost:6379")
          (Some {| RateLimit.Strategy := RateLimit.SlidingWindow;
                   RateLimit.Limit := 100;
                   RateLimit.Window := 60 * Second;
                   RateLimit.KeyFunc := None;
                   RateLimit.ErrorHandler := None;
                   RateLimit.SkipFunc := Some RateLimit.SkipHealthCheck |})
  with
  | RateLimit.Returned rl => rl
  | RateLimit.Panicked =>
      {| RateLimit.redis := RateLimit.client "";
         RateLimit.config := sample_config RateLimit.SlidingWindow 100 0 |}
  end.

Definition health_context : RateLimit.Context :=
  {| RateLimit.ClientIP := "192.168.1.100"; RateLimit.Path := "/health";
     RateLimit.RequestHeader := [] |}.

(** A token bucket that is empty, last refilled in the current second. *)
Definition empty_bucket : Store :=
  {[ ("rate_limit:192.168.1.100:/api/v1/shorten:tokens")%string :=
       {| Redis.value := VStr "0.00"; Redis.expireAt := Some (T0 + 10 * Second) |};
     ("rate_limit:192.168.1.100:/api/v1/shorten:last_refill")%string :=
       {| Redis.value := VInt 1700000000; Redis.expireAt := Some (T0 + 10 * Second) |}
  ]}.

(** The log of three checks made right after [T0], under the key ["id"],
    for a window of two seconds. *)
Definition three_entries_log : gmap Z Z :=
  {[ T0 := Float64.int_value T0;
     T0 + 1 := Float64.int_value (T0 + 1);
     T0 + 2 := Float64.int_value (T0 + 2) ]}.

Definition three_entries : Store :=
  {[ "id"%string :=
       {| Redis.value := VZSet three_entries_log;
          Redis.expireAt := Some (T0 + 2 + 4 * Second) |} ]}.

(** A reading of the outside with a working network. *)
Definition env_at (t : Z) : RateLimit.Env :=
  {| RateLimit.now := t; RateLimit.now_retry := t;
     RateLimit.net_first := NetOk; RateLimit.net_second := NetOk |}.

End Samples.

(** ** More sample data *)

Module MoreSamples.
Import GoTime Strconv Redis RateLimit.

(** The limiter [NewRateLimiter] builds from a configuration. *)
Definition sample_limiter_of (cfg : RateLimitConfig) : RateLimiter :=
  match NewRateLimiter (client "localhost:6379") (Some cfg) with
  | Returned rl => rl
  | Panicked => {| redis := client ""; config := cfg |}
  end.

End MoreSamples.

(** ** Sample data for the service *)

Module ServiceSamples.
Import GoTime Redis Service UrlService Samples.

(** The host of the rest of a URL: what comes before the first [/]. *)
Fixpoint sample_host (s : string) : string :=
  match s with
  | EmptyString => EmptyString
  | String c rest =>
      if Ascii.eqb c "/"%char then EmptyString
      else String c (sample_host rest)
  end.

(** A parser for the URLs of the examples: [scheme://host/...]. *)
Fixpoint sample_parse (scheme s : string) (fuel : nat) : option URL :=
  match fuel, s with
  | _, String ":"%char (String "/"%char (String "/"%char rest)) =>
      Some {| Scheme := scheme; Host := sample_host rest |}
  | S fuel', String c rest =>
      sample_parse (scheme +:+ String c EmptyString) rest fuel'
  | _, _ => None
  end.

Definition sample_parser : NetURL :=
  {| ParseRequestURI := fun s => sample_parse EmptyString s 8 |}.

(** A generator of identifiers for the examples: milliseconds of the
    clock, then a sequence number. *)
Definition sample_library : Snowflake.Library :=
  {| Snowflake.Node := Z;
     Snowflake.NewNode := fun id =>
       if (0 <=? id) && (id <=? 1023) then Some 0 else None;
     Snowflake.Generate := fun n now =>
       (n + 1, (now / Millisecond) * 4194304 + n) |}.

Definition sample_world : World (L := sample_library) :=
  {| service := sample_state;
     generator :=
       (Snowflake.InitSnowflake (L := sample_library) 1 1
          Snowflake.initial).1 |}.

(** Everything gets through. *)
Definition sample_outside : Outside :=
  {| now := T0; url_lookup_up := true; code_lookup_up := fun _ => true;
     create_net := Repository.Applied; cache_net := NetOk |}.

(** Everything gets through, but the answer to the insertion is lost. *)
Definition lost_answer : Outside :=
  {| now := T0; url_lookup_up := true; code_lookup_up := fun _ => true;
     create_net := Repository.Unanswered; cache_net := NetOk |}.

End ServiceSamples.

(** ** More sample data for the service *)

Module ReuseSamples.
Import GoTime Redis Service UrlService Samples ServiceSamples.

(** Two rows for one URL: the older one has expired, the newer one is
    active. *)
Definition two_rows : State :=
  {| bloom := Filter.AddBatch sample_filter ["old"; "new"];
     cache := ∅;
     repo :=
       {[ "old"%string :=
            {| ID := 1; ShortCode := "old";
               OriginalURL := "https://example.org/";
               CreatedAt := 0; ExpiredAt := Some (T0 - Second);
               VisitCount := 0; Status := 1 |};
          "new"%string :=
            {| ID := 2; ShortCode := "new";
               OriginalURL := "https://example.org/";
               CreatedAt := 0; ExpiredAt := None;
               VisitCount := 0; Status := 1 |} ]};
     accesses := [] |}.

Definition two_rows_world : World (L := sample_library) :=
  {| service := two_rows; generator := generator sample_world |}.

End ReuseSamples.

(** * Vocabulary of the statements

    What the statements of the second part say about stores, answers and
    schedules. *)

Module Vocabulary.
Import Float64 GoTime Strconv Redis RateLimit Concurrent.

(** A string of Base62 digits. *)
Fixpoint all_valid (s : string) : Prop :=
  match s with
  | EmptyString => True
  | String c rest => Shortcode.char_value c <> None /\ all_valid rest
  end.

(** The value of [float64(a)] for [0 <= a]. *)
Definition pos_value (a : Z) : Z :=
  if Z.log2 a - 52 <=? 0 then a else round_even a (Z.log2 a - 52).

(** The least integer not below a float: the [ceil] of the spec, as an
    [int64]. *)
Definition ceil_int64 (f : float64) : Z :=
  match f with
  | S754_zero _ => 0
  | S754_finite s m e =>
      let n := if s then Z.neg m else Z.pos m in
      if 0 <=? e then n * 2 ^ e else - ((- n) / 2 ^ (- e))
  | S754_infinity _ | S754_nan => - 2^63
  end.

(** The replies that [Exec] loses: at its last attempt the pipeline
    cannot reach the store, or the reply of one of its [ncmds] commands
    does not come back. *)
Fixpoint transport_failure (net : Net) (ncmds : nat) : Prop :=
  match net with
  | NetOk => False
  | NetDown => True
  | NetLost n => (n < ncmds)%nat
  | NetAgain net' => transport_failure net' ncmds
  end.

(** The value of the counter at [key] as the store sees it at [now]: 0
    when the key is absent or expired, nothing when the key holds
    something that is not an integer. *)
Definition counter (now : Z) (st : Store) (key : string) : option Z :=
  match live now st key with
  | None => Some 0
  | Some e => match value e with VInt n => Some n | _ => None end
  end.

(** The timestamp log at [key] as the store sees it at [now]: empty when
    the key is absent or expired, nothing when the key holds something
    that is not a sorted set. *)
Definition log (now : Z) (st : Store) (key : string)
  : option (gmap Z Z) :=
  match live now st key with
  | None => Some ∅
  | Some e => match value e with VZSet z => Some z | _ => None end
  end.

(** What [ZREMRANGEBYSCORE key 0 max] leaves of a sorted set. *)
Definition purge (max : Z) (z : gmap Z Z) : gmap Z Z :=
  filter (fun kv => ~ in_score_range 0 max kv) z.

(** The entries of a log are those earlier checks made: the member is a
    time in nanoseconds, not before the epoch and not after [now], and the
    score is its [float64]. *)
Definition logged_before (now : Z) (z : gmap Z Z) : Prop :=
  map_Forall (fun m sc => sc = int_value m /\ 0 <= m <= now) z.



(** The pipeline whose failure a check reports, and its length: the only
    pipeline of the two window algorithms, the second (writing) pipeline
    of the token bucket. *)
Definition reported_failure (rl : RateLimiter) (env : Env) : Prop :=
  if String.eqb (Strategy (config rl)) FixedWindow then
    transport_failure (net_first env) 2
  else if String.eqb (Strategy (config rl)) SlidingWindow then
    transport_failure (net_first env) 4
  else if String.eqb (Strategy (config rl)) TokenBucket then
    transport_failure (net_second env) 2
  else transport_failure (net_first env) 2.

(** What one successful check answers when the counter was [c]. *)
Definition answer (limit resetAt c : Z) : CheckResult :=
  {| allowed := c + 1 <=? limit;
     remaining := Z.max 0 (limit - (c + 1));
     resetTime := resetAt;
     err := None |}.

(** What successive checks answer, from the counter [c] on. *)
Fixpoint answers (limit resetAt c : Z) (envs : list Env)
  : list CheckResult :=
  match envs with
  | [] => []
  | _ :: envs' => answer limit resetAt c :: answers limit resetAt (c + 1) envs'
  end.

(** The readings of a check that is made in the bucket that starts at [B],
    with a working network and a clock in the range of [UnixNano]. *)
Definition in_bucket (W B : Z) (env : Env) : Prop :=
  net_first env = NetOk /\ int64_range (now env) /\
  Truncate (now env) W = B.

(** The reset time the spec asks for, from the token count a check leaves
    and the refill rate. *)
Definition spec_resetAt (rl : RateLimiter) (nowUnix : Z) (tokens : float64)
  : Z :=
  let refillRate :=
    div (of_int (Limit (config rl))) (Seconds (Window (config rl))) in
  if leb one tokens then nowUnix
  else nowUnix + ceil_int64 (div (sub one tokens) refillRate).

(** The schedule in which B's purge and insertion come between A's
    insertion and A's read of the cardinality. *)
Definition interleaved : list Who := [A; A; B; B; A; A; B; B].

End Vocabulary.

(** ** Base62 digits, for the statements on short codes *)

Module ShortcodeTerms.
Import Shortcode.

(** The number a string of Base62 digits denotes, without wrap-around. *)
Fixpoint value_from (s : string) (acc : Z) : Z :=
  match s with
  | EmptyString => acc
  | String c rest =>
      match char_value c with
      | Some v => value_from rest (acc * 62 + v)
      | None => 0
      end
  end.

Definition value_of (s : string) : Z := value_from s 0.

(** The digits of a number written without a leading zero: the string is
    not empty and starts with the digit 0 only when it is "0". *)
Definition canonical (s : string) : Prop :=
  match s with
  | EmptyString => False
  | String c rest => char_value c <> Some 0 \/ rest = EmptyString
  end.

(** [k] times the digit 0. *)
Fixpoint zeros (k : nat) : string :=
  match k with
  | O => EmptyString
  | S k' => String "0"%char (zeros k')
  end.

End ShortcodeTerms.

(** ** The keys a rate-limit check works on *)

Module LimiterTerms.
Import GoTime Strconv Redis RateLimit.

(** The key a command is about. *)
Definition cmd_key (c : Cmd) : string :=
  match c with
  | Incr key | Expire key _ | ZRemRangeByScore key _ _ | ZAdd key _ _
  | ZCard key | Get key | Set_ key _ _ => key
  end.

(** The keys of the store that the check of [rl] for [key] names at the
    time of [env]: the counter of the current bucket, the log, or the two
    keys of the bucket of tokens. *)
Definition check_keys (rl : RateLimiter) (env : Env) (key : string)
  : list string :=
  let bucket :=
    [windowKey key (Unix (Truncate (now env) (Window (config rl))))] in
  if String.eqb (Strategy (config rl)) FixedWindow then bucket
  else if String.eqb (Strategy (config rl)) SlidingWindow then [key]
  else if String.eqb (Strategy (config rl)) TokenBucket then
    [key +:+ ":tokens"; key +:+ ":last_refill"]
  else bucket.

(** The key functions the package offers: the default one that
    [NewRateLimiter] fills in, and the three helpers. *)
Definition builtin_key (cfg : RateLimitConfig) : Prop :=
  KeyFunc cfg = None \/ KeyFunc cfg = Some IPBasedKey \/
  KeyFunc cfg = Some PathBasedKey \/ KeyFunc cfg = Some IPAndPathKey.

End LimiterTerms.

(** ** Runs of checks, for the statements on the sliding window *)

Module WindowTerms.
Import Redis RateLimit.

(** Checks made over a working network at times that go up strictly from
    [t] on. *)
Fixpoint ascending (t : Z) (envs : list Env) : Prop :=
  match envs with
  | [] => True
  | env :: envs' =>
      net_first env = NetOk /\ t < now env /\ ascending (now env) envs'
  end.

(** The time of the last of the checks; [t] when there is none. *)
Definition last_time (t : Z) (envs : list Env) : Z :=
  List.last (map now envs) t.

End WindowTerms.

(** ** Two clients and one counter *)

Module SharedTerms.
Import Redis.

(** The counter at [key] reads [c] for two clients whose clocks show [ta]
    and [tb]: it is absent or expired for both and [c] is 0, or it holds
    the integer [c] and has expired for neither. *)
Definition shared_counter (ta tb : Z) (st : Store) (key : string) (c : Z)
  : Prop :=
  (c = 0 /\ live ta st key = None /\ live tb st key = None) \/
  exists e,
    st !! key = Some {| value := VInt c; expireAt := e |} /\
    match e with
    | None => True
    | Some t => ta < t /\ tb < t
    end.

End SharedTerms.

(** ** States of the service, for the statements on the resolution *)

Module ResolutionTerms.
Import Redis Service.

(** The state [s] with another cache and more accesses; filter and
    durable store as they were. *)
Definition after (s : State) (cache' : Store) (more : list Access) : State :=
  {| bloom := bloom s; cache := cache'; repo := repo s;
     accesses := accesses s ++ more |}.

(** The key of the cache for a short code holds the URL [u], and the
    entry has not expired at [now]. *)
Definition cached (now : Z) (st : Store) (shortCode u : string) : Prop :=
  exists e,
    live now st (ShortCodePrefix +:+ shortCode) = Some e /\
    value e = VStr u.

(** One access to the cache fails: at the last attempt the connection is
    down, or the reply is lost. *)
Fixpoint cache_fails (net : Net) : Prop :=
  match net with
  | NetOk => False
  | NetDown => True
  | NetLost n => n = O
  | NetAgain net' => cache_fails net'
  end.

End ResolutionTerms.

(** ** The three stores of the service, for the statements on them *)

Module ServiceTerms.
Import Redis Service.

Section WithCollation.
Context `{C : Collation}.

(** Every row of the durable store is kept under the sort key of its
    short code. *)
Definition well_keyed (s : State) : Prop :=
  forall k m, repo s !! k = Some m -> sort_key (ShortCode m) = k.

(** The short code of every row of the durable store is in the filter. *)
Definition filter_covers (s : State) : Prop :=
  forall k m,
    repo s !! k = Some m -> Filter.Test (bloom s) (ShortCode m) = true.

(** Every entry of the cache of URLs, expired or not, holds the URL of
    the row that the durable store has for its short code. *)
Definition cache_coherent (s : State) : Prop :=
  forall shortCode e,
    cache s !! (ShortCodePrefix +:+ shortCode) = Some e ->
    exists m, repo s !! sort_key shortCode = Some m /\
              value e = VStr (OriginalURL m).

Definition consistent (s : State) : Prop :=
  well_keyed s /\ filter_covers s /\ cache_coherent s.

End WithCollation.

(** Filter, cache and durable store are the same in both states. *)
Definition same_data (s s' : State) : Prop :=
  bloom s' = bloom s /\ cache s' = cache s /\ repo s' = repo s.

End ServiceTerms.

(** * Properties *)

(** ** Machine integers *)

Lemma wrap64_id z : int64_range z -> wrap64 z = z.
Proof.
  unfold int64_range, wrap64. intros Hz.
  rewrite Z.mod_small; lia.
Qed.

Lemma wrap64_range z : int64_range (wrap64 z).
Proof.
  unfold int64_range, wrap64.
  pose proof (Z.mod_pos_bound (z + 2^63) (2^64) ltac:(lia)). lia.
Qed.

(** ** float64 conversions of integers *)

Module Float64Spec.
Import Float64 Vocabulary.

Lemma digits2_pos_bound p : forall k,
  Z.pos p < 2 ^ k -> Z.pos (digits2_pos p) <= k.
Proof.
  induction p as [p IH|p IH|]; intros k Hk; simpl.
  - assert (0 < k) by (destruct (Z_lt_dec 0 k); [assumption|];
      exfalso; assert (2 ^ k <= 1) by
        (destruct (Z.eq_dec k 0) as [->|]; [simpl; lia|];
         rewrite Z.pow_neg_r by lia; lia); lia).
    specialize (IH (k - 1)).
    replace k with (k - 1 + 1) in Hk by lia.
    rewrite Z.pow_add_r in Hk by lia. lia.
  - assert (0 < k) by (destruct (Z_lt_dec 0 k); [assumption|];
      exfalso; assert (2 ^ k <= 1) by
        (destruct (Z.eq_dec k 0) as [->|]; [simpl; lia|];
         rewrite Z.pow_neg_r by lia; lia); lia).
    specialize (IH (k - 1)).
    replace k with (k - 1 + 1) in Hk by lia.
    rewrite Z.pow_add_r in Hk by lia. lia.
  - destruct (Z_lt_dec 0 k); [lia|].
    exfalso. assert (2 ^ k <= 1) by
      (destruct (Z.eq_dec k 0) as [->|]; [simpl; lia|];
       rewrite Z.pow_neg_r by lia; lia). lia.
Qed.

Lemma digits2_pos_shift p d :
  Z.pos (digits2_pos (Pos.iter xO p d)) = Z.pos (digits2_pos p) + Z.pos d.
Proof.
  induction d as [|d IH] using Pos.peano_ind.
  - simpl. lia.
  - rewrite Pos.iter_succ. simpl. lia.
Qed.

Lemma iter_xO_value p d :
  Z.pos (Pos.iter xO p d) = Z.pos p * 2 ^ Z.pos d.
Proof.
  induction d as [|d IH] using Pos.peano_ind.
  - simpl. lia.
  - rewrite Pos.iter_succ, Pos2Z.inj_succ, Z.pow_succ_r by lia.
    rewrite Pos2Z.inj_xO, IH. lia.
Qed.

(** A mantissa of exactly 53 bits is not rounded. *)
Lemma binary_round_aux_exact sx mz ez :
  Z.pos (digits2_pos mz) = 53 -> -52 <= ez <= 971 ->
  binary_round_aux prec emax sx (Z.pos mz) ez loc_Exact =
  S754_finite sx mz ez.
Proof.
  intros Hd He.
  assert (Hshift : fexp prec emax (Zdigits2 (Z.pos mz) + ez) - ez = 0).
  { unfold fexp, emin, Zdigits2, prec, emax. rewrite Hd. lia. }
  unfold binary_round_aux, shr_fexp.
  rewrite Hshift. cbn [shr shr_record_of_loc shr_m loc_of_shr_record
                       round_nearest_even].
  rewrite Hshift. cbn [shr shr_record_of_loc shr_m].
  unfold prec, emax.
  destruct (Z.leb_spec ez (1024 - 53)); [reflexivity | lia].
Qed.

(** [float64(n)] of a positive integer below [2^53] is exact. *)
Lemma of_int_exact p :
  Z.pos p < 2 ^ 53 ->
  exists mz ez, of_int (Z.pos p) = S754_finite false mz ez /\
                -52 <= ez <= 0 /\ Z.pos mz = Z.pos p * 2 ^ (- ez).
Proof.
  intros Hp. pose proof (digits2_pos_bound p 53 Hp) as Hn.
  unfold of_int, binary_normalize, binary_round.
  assert (Hfexp : fexp prec emax (Z.pos (digits2_pos p) + 0) =
                  Z.pos (digits2_pos p) - 53).
  { unfold fexp, emin, prec, emax. lia. }
  rewrite Hfexp. unfold shl_align.
  destruct (Z.pos (digits2_pos p) - 53 - 0) as [|d|d] eqn:Hsub.
  - exists p, 0. split; [|split; [lia|simpl; lia]].
    apply binary_round_aux_exact; lia.
  - lia.
  - exists (Pos.iter xO p d), (Z.pos (digits2_pos p) - 53).
    split; [|split].
    + apply binary_round_aux_exact; [|lia].
      rewrite digits2_pos_shift. lia.
    + lia.
    + rewrite iter_xO_value. f_equal. f_equal. lia.
Qed.

Lemma to_int64_of_int n :
  0 <= n < 2 ^ 53 -> to_int64 (of_int n) = n.
Proof.
  intros Hn. destruct n as [|p|p]; [reflexivity| |lia].
  destruct (of_int_exact p ltac:(lia)) as (mz & ez & -> & He & Hm).
  unfold to_int64.
  assert (Hv : (if 0 <=? ez then Z.pos mz * 2 ^ ez
                else Z.pos mz / 2 ^ (- ez)) = Z.pos p).
  { destruct (Z.leb_spec 0 ez).
    - assert (ez = 0) by lia. subst ez. simpl in Hm. lia.
    - rewrite Hm. apply Z.div_mul.
      apply Z.pow_nonzero; lia. }
  rewrite Hv.
  destruct (Z.leb_spec (- 2 ^ 63) (Z.pos p)); [|lia].
  destruct (Z.ltb_spec (Z.pos p) (2 ^ 63)); [reflexivity | lia].
Qed.

(** A duration of [s] whole seconds is [s] seconds. *)
Lemma Seconds_whole s :
  0 < s < 2 ^ 53 ->
  to_int64 (GoTime.Seconds (s * GoTime.Second)) = s.
Proof.
  intros Hs. unfold GoTime.Seconds.
  rewrite Z.quot_mul, Z.rem_mul by (unfold GoTime.Second; lia).
  change (div (of_int 0) (of_int 1000000000)) with (S754_zero false).
  destruct s as [|p|p]; try lia.
  pose proof (to_int64_of_int (Z.pos p) ltac:(lia)) as Hto.
  destruct (of_int_exact p ltac:(lia)) as (mz & ez & Hof & _).
  rewrite Hof in *. exact Hto.
Qed.

(** *** The value of [float64(n)] is monotone in [n] *)

Lemma round_even_bounds a k :
  0 <= a -> 0 < k ->
  a / 2 ^ k * 2 ^ k <= round_even a k <= (a / 2 ^ k + 1) * 2 ^ k.
Proof.
  intros Ha Hk. unfold round_even.
  assert (HP : 0 < 2 ^ k) by (apply Z.pow_pos_nonneg; lia).
  repeat match goal with
         | |- context [if ?b then _ else _] => destruct b
         end; nia.
Qed.

Lemma round_even_mono a b k :
  0 <= a <= b -> 0 < k -> round_even a k <= round_even b k.
Proof.
  intros Hab Hk.
  assert (HP : 0 < 2 ^ k) by (apply Z.pow_pos_nonneg; lia).
  pose proof (Z.div_le_mono a b (2 ^ k) HP ltac:(lia)) as Hq.
  destruct (Z.eq_dec (a / 2 ^ k) (b / 2 ^ k)) as [Heq|Hne].
  - pose proof (Z.div_mod a (2 ^ k) ltac:(lia)) as Ha.
    pose proof (Z.div_mod b (2 ^ k) ltac:(lia)) as Hb.
    assert (Hr : a mod 2 ^ k <= b mod 2 ^ k) by nia.
    unfold round_even. rewrite <- Heq.
    destruct (Z.ltb_spec (a mod 2 ^ k) (2 ^ (k - 1)));
      destruct (Z.ltb_spec (b mod 2 ^ k) (2 ^ (k - 1)));
      destruct (Z.ltb_spec (2 ^ (k - 1)) (a mod 2 ^ k));
      destruct (Z.ltb_spec (2 ^ (k - 1)) (b mod 2 ^ k));
      destruct (Z.even (a / 2 ^ k)); nia.
  - pose proof (round_even_bounds a k ltac:(lia) Hk) as [_ Hua].
    pose proof (round_even_bounds b k ltac:(lia) Hk) as [Hlb _].
    nia.
Qed.

Lemma int_value_pos_value n :
  int_value n = Z.sgn n * pos_value (Z.abs n).
Proof. reflexivity. Qed.

(** When rounding takes place, the result stays between the powers of two
    around the number. *)
Lemma pos_value_bounds a :
  0 < Z.log2 a - 52 ->
  2 ^ Z.log2 a <= pos_value a <= 2 ^ (Z.log2 a + 1).
Proof.
  intros Hk. unfold pos_value.
  destruct (Z.leb_spec (Z.log2 a - 52) 0); [lia|].
  assert (Ha : 0 < a).
  { destruct (Z_lt_dec 0 a); [assumption|].
    rewrite Z.log2_nonpos in Hk by lia. lia. }
  set (k := Z.log2 a - 52) in *.
  pose proof (Z.log2_spec a Ha) as [Hlo Hhi].
  assert (HP : 0 < 2 ^ k) by (apply Z.pow_pos_nonneg; lia).
  assert (Hlo' : 2 ^ Z.log2 a = 2 ^ 52 * 2 ^ k).
  { rewrite <- Z.pow_add_r by lia. f_equal. lia. }
  assert (Hhi' : 2 ^ (Z.log2 a + 1) = 2 ^ 53 * 2 ^ k).
  { rewrite <- Z.pow_add_r by lia. f_equal. lia. }
  replace (Z.succ (Z.log2 a)) with (Z.log2 a + 1) in Hhi by lia.
  rewrite Hlo', Hhi' in *.
  pose proof (round_even_bounds a k ltac:(lia) ltac:(lia)) as [Hl Hu].
  assert (Hq1 : 2 ^ 52 <= a / 2 ^ k)
    by (apply Z.div_le_lower_bound; lia).
  assert (Hq2 : a / 2 ^ k < 2 ^ 53)
    by (apply Z.div_lt_upper_bound; lia).
  split; nia.
Qed.

Lemma pos_value_mono a b :
  0 <= a <= b -> pos_value a <= pos_value b.
Proof.
  intros Hab.
  pose proof (Z.log2_le_mono a b ltac:(lia)) as Hlog.
  destruct (Z_le_dec (Z.log2 b - 52) 0) as [Hkb|Hkb].
  - unfold pos_value.
    destruct (Z.leb_spec (Z.log2 a - 52) 0); [|lia].
    destruct (Z.leb_spec (Z.log2 b - 52) 0); lia.
  - pose proof (pos_value_bounds b ltac:(lia)) as [Hbl _].
    destruct (Z_le_dec (Z.log2 a - 52) 0) as [Hka|Hka].
    + assert (Ha : pos_value a = a).
      { unfold pos_value.
        destruct (Z.leb_spec (Z.log2 a - 52) 0); [reflexivity | lia]. }
      rewrite Ha.
      destruct (Z.eq_dec a 0) as [->|Hnz]; [lia|].
      pose proof (Z.log2_spec a ltac:(lia)) as [_ Hhi].
      assert (2 ^ Z.succ (Z.log2 a) <= 2 ^ Z.log2 b)
        by (apply Z.pow_le_mono_r; lia).
      lia.
    + destruct (Z.eq_dec (Z.log2 a) (Z.log2 b)) as [Heq|Hne].
      * unfold pos_value. rewrite Heq.
        destruct (Z.leb_spec (Z.log2 b - 52) 0); [lia|].
        apply round_even_mono; lia.
      * pose proof (pos_value_bounds a ltac:(lia)) as [_ Hau].
        assert (2 ^ (Z.log2 a + 1) <= 2 ^ Z.log2 b)
          by (apply Z.pow_le_mono_r; lia).
        lia.
Qed.

Lemma pos_value_nonneg a : 0 <= a -> 0 <= pos_value a.
Proof.
  intros Ha. pose proof (pos_value_mono 0 a ltac:(lia)) as Hm.
  exact Hm.
Qed.

Lemma int_value_mono a b : a <= b -> int_value a <= int_value b.
Proof.
  intros Hab. rewrite !int_value_pos_value.
  destruct (Z_le_dec 0 a) as [Ha|Ha].
  - pose proof (pos_value_mono a b ltac:(lia)) as Hm.
    rewrite !Z.abs_eq by lia.
    pose proof (pos_value_nonneg a Ha).
    destruct (Z.eq_dec a 0) as [->|]; destruct (Z.eq_dec b 0) as [->|];
      try lia;
      rewrite ?Z.sgn_pos by lia; cbn [Z.sgn]; lia.
  - destruct (Z_le_dec 0 b) as [Hb|Hb].
    + pose proof (pos_value_nonneg (Z.abs a) (Z.abs_nonneg a)).
      pose proof (pos_value_nonneg (Z.abs b) (Z.abs_nonneg b)).
      rewrite (Z.sgn_neg a) by lia.
      destruct (Z.eq_dec b 0) as [->|]; [cbn [Z.sgn]; lia|].
      rewrite (Z.sgn_pos b) by lia. lia.
    + pose proof (pos_value_mono (Z.abs b) (Z.abs a) ltac:(lia)).
      rewrite (Z.sgn_neg a), (Z.sgn_neg b) by lia. lia.
Qed.

Lemma int_value_0 : int_value 0 = 0.
Proof. reflexivity. Qed.

(** The model of the value agrees with the float of [SpecFloat]. *)
Example int_value_agrees :
  Forall (fun n => to_int64 (of_int n) = int_value n)
         [0; 1; -1; 2 ^ 53 - 1; 2 ^ 53 + 1; 2 ^ 53 + 3; 2 ^ 54 + 2;
          2 ^ 54 + 6; - (2 ^ 54 + 2); 1700000000123456789;
          1700000000123456640; 1700000000123456896; 2 ^ 62 + 2 ^ 9;
          2 ^ 62 + 2 ^ 9 + 1; 2 ^ 63 - 1025].
Proof. repeat constructor. Qed.

End Float64Spec.

(** ** package time on whole seconds *)

Module GoTimeSpec.
Import GoTime.

(** A window of [s] whole seconds cuts time into buckets that start on a
    whole second. *)
Lemma Truncate_whole t s :
  0 < s ->
  let B := Truncate t (s * Second) in
  B <= t < B + s * Second /\ Unix B * Second = B.
Proof.
  intros Hs B. subst B. unfold Truncate, Unix, Second, unixToInternal.
  destruct (Z.leb_spec (s * 1000000000) 0); [lia|].
  set (W := s * 1000000000) in *.
  set (a := t + 62135596800 * 1000000000).
  pose proof (Z.mod_pos_bound a W ltac:(lia)) as Hr.
  pose proof (Z.div_mod a W ltac:(lia)) as Hdm.
  split; [lia|].
  assert (Hmul : t - a mod W =
                 (s * (a / W) - 62135596800) * 1000000000)
    by (subst a W; lia).
  rewrite Hmul, Z.div_mul by lia. reflexivity.
Qed.

End GoTimeSpec.

(** ** The store *)

Module RedisSpec.
Import Redis Vocabulary.

Lemma run_all_length now cmds : forall st,
  length (run_all now cmds st).2 = length cmds.
Proof.
  induction cmds as [|c cmds IH]; intros st; simpl; [reflexivity|].
  destruct (run now c st) as [st1 r].
  specialize (IH st1). destruct (run_all now cmds st1) as [st2 rs].
  simpl in *. now rewrite IH.
Qed.

Lemma first_error_all_fail {A} (l : list A) e :
  l <> [] -> first_error (map (fun _ => Fail e) l) = Some e.
Proof. destruct l; [congruence | reflexivity]. Qed.

Lemma first_error_lose_from n : forall rs,
  (n < length rs)%nat -> first_error (lose_from n rs) <> None.
Proof.
  unfold lose_from.
  induction n as [|n IH]; intros [|r rs] Hlen; simpl in *; try lia.
  - discriminate.
  - destruct r; [|discriminate]. apply IH. lia.
Qed.

(** *** Keys that are alive *)

Lemma live_insert now (st : Store) key e :
  live now (<[key := e]> st) key =
  match expireAt e with
  | Some t => if t <=? now then None else Some e
  | None => Some e
  end.
Proof. unfold live. now rewrite lookup_insert_eq. Qed.

Lemma live_Some now (st : Store) key e :
  live now st key = Some e ->
  st !! key = Some e /\
  match expireAt e with Some t => now < t | None => True end.
Proof.
  unfold live. destruct (st !! key) as [e'|]; [|discriminate].
  destruct (expireAt e') as [t|] eqn:Ht.
  - destruct (Z.leb_spec t now); [discriminate|].
    intros [= <-]. rewrite Ht. auto.
  - intros [= <-]. rewrite Ht. auto.
Qed.

Lemma live_delete now (st : Store) key : live now (delete key st) key = None.
Proof. unfold live. now rewrite lookup_delete_eq. Qed.

Lemma live_insert_keep now (st : Store) key e v :
  live now st key = Some e ->
  live now (<[key := {| value := v; expireAt := expireAt e |}]> st) key =
  Some {| value := v; expireAt := expireAt e |}.
Proof.
  intros [_ Hexp]%live_Some. rewrite live_insert. cbn [expireAt].
  destruct (expireAt e) as [t|]; [|reflexivity].
  destruct (Z.leb_spec t now); [lia | reflexivity].
Qed.

(** *** Times to live *)

Lemma formatSec_pos d : 0 < d -> 0 < formatSec d.
Proof.
  intros Hd. unfold formatSec, GoTime.Second.
  destruct (Z.ltb_spec 0 d); [|lia].
  destruct (Z.ltb_spec d 1000000000); cbn [andb]; [lia|].
  rewrite Z.quot_div_nonneg by lia.
  apply Z.div_str_pos. lia.
Qed.

(** A whole number of seconds is sent as it is. *)
Lemma formatSec_whole s : 0 < s -> formatSec (s * GoTime.Second) = s.
Proof.
  intros Hs. unfold formatSec, GoTime.Second.
  destruct (Z.ltb_spec (s * 1000000000) 1000000000); [lia|].
  rewrite andb_false_r. apply Z.quot_mul. lia.
Qed.

(** The time to live of twice the window, cut to whole seconds, is not
    below the window and not above twice the window, unless the window is
    shorter than half a second. *)
Lemma formatSec_twice W :
  0 < W ->
  W <= formatSec (2 * W) * GoTime.Second /\
  (GoTime.Second <= 2 * W -> formatSec (2 * W) * GoTime.Second <= 2 * W).
Proof.
  intros HW. unfold formatSec, GoTime.Second.
  destruct (Z.ltb_spec 0 (2 * W)); [|lia].
  destruct (Z.ltb_spec (2 * W) 1000000000); cbn [andb]; [lia|].
  rewrite Z.quot_div_nonneg by lia.
  pose proof (Z.mul_div_le (2 * W) 1000000000 ltac:(lia)).
  pose proof (Z.mul_succ_div_gt (2 * W) 1000000000 ltac:(lia)).
  lia.
Qed.

(** *** Failures of the network *)

(** [pipe.Exec] reports a transport failure of a non-empty pipeline. *)
Lemma Exec_transport_failure now net cmds st :
  cmds <> [] -> transport_failure net (length cmds) ->
  (Exec now net cmds st).2 <> None.
Proof.
  intros Hne. revert st.
  induction net as [| |n|net IH]; intros st Hfail; simpl in *.
  - contradiction.
  - rewrite first_error_all_fail by exact Hne. discriminate.
  - pose proof (run_all_length now cmds st) as Hlen.
    destruct (run_all now cmds st) as [st' rs]. simpl in *.
    apply first_error_lose_from. lia.
  - apply IH, Hfail.
Qed.

End RedisSpec.

(** ** Base62 short codes *)

Module ShortcodeSpec.
Import Shortcode Vocabulary.

(* stdpp never simplifies [+:+]; the proofs below compute with it. *)
Local Arguments String.append !_ _ / : simpl nomatch.

Lemma string_app_assoc (s1 s2 s3 : string) :
  (s1 +:+ s2) +:+ s3 = s1 +:+ (s2 +:+ s3).
Proof. induction s1 as [|c s1 IH]; simpl; [reflexivity | now rewrite IH]. Qed.

Lemma string_app_nil_r (s : string) : s +:+ EmptyString = s.
Proof. induction s as [|c s IH]; simpl; [reflexivity | now rewrite IH]. Qed.

Lemma list_ascii_app s1 s2 :
  list_ascii_of_string (s1 +:+ s2) =
  list_ascii_of_string s1 ++ list_ascii_of_string s2.
Proof. induction s1 as [|c s1 IH]; simpl; [reflexivity | now rewrite IH]. Qed.

Lemma string_of_list_app l1 l2 :
  string_of_list_ascii (l1 ++ l2) =
  string_of_list_ascii l1 +:+ string_of_list_ascii l2.
Proof. induction l1 as [|c l1 IH]; simpl; [reflexivity | now rewrite IH]. Qed.

Lemma reverseString_app s1 s2 :
  reverseString (s1 +:+ s2) = reverseString s2 +:+ reverseString s1.
Proof.
  unfold reverseString.
  now rewrite list_ascii_app, rev_app_distr, string_of_list_app.
Qed.

(** Every index the encoder uses is in range, and the decoder maps the
    byte found there back to the index. *)
Lemma index_in_range r :
  0 <= r < 62 ->
  exists c, byte_at base62Chars r = Some c /\ char_value c = Some r.
Proof.
  intros Hr.
  assert (Hall : forallb (fun i =>
            match byte_at base62Chars (Z.of_nat i) with
            | Some c =>
                match char_value c with
                | Some v => v =? Z.of_nat i
                | None => false
                end
            | None => false
            end) (seq 0 62) = true) by (vm_compute; reflexivity).
  rewrite forallb_forall in Hall.
  specialize (Hall (Z.to_nat r)).
  rewrite Z2Nat.id in Hall by lia.
  assert (Hin : In (Z.to_nat r) (seq 0 62)) by (apply in_seq; lia).
  specialize (Hall Hin).
  destruct (byte_at base62Chars r) as [c|]; [|discriminate].
  exists c. split; [reflexivity|].
  destruct (char_value c) as [v|]; [|discriminate].
  apply Z.eqb_eq in Hall. now subst.
Qed.

Lemma encode_loop_nonpos num result :
  num <= 0 -> encode_loop num result = result.
Proof.
  intros Hn. rewrite encode_loop_equation_1.
  destruct (Z_lt_dec 0 num); [lia | reflexivity].
Qed.

Lemma encode_loop_pos num result :
  0 < num ->
  exists c, byte_at base62Chars (num mod 62) = Some c /\
            char_value c = Some (num mod 62) /\
            encode_loop num result =
            encode_loop (num / 62) (WriteByte result c).
Proof.
  intros Hn.
  destruct (index_in_range (num mod 62)) as (c & Hc & Hv).
  { apply Z.mod_pos_bound. lia. }
  exists c. split; [exact Hc|]. split; [exact Hv|].
  rewrite encode_loop_equation_1.
  destruct (Z_lt_dec 0 num) as [Hlt|]; [|lia]. simpl.
  change (len base62Chars) with 62.
  rewrite Z.rem_mod_nonneg by lia.
  rewrite Hc. simpl.
  change (len base62Chars) with 62.
  rewrite Z.quot_div_nonneg by lia. reflexivity.
Qed.

(** The accumulator is a prefix of the result. *)
Lemma encode_loop_acc num :
  0 <= num -> forall result,
  encode_loop num result = result +:+ encode_loop num EmptyString.
Proof.
  revert num.
  refine (Z_lt_induction
           (fun n => forall result,
              encode_loop n result = result +:+ encode_loop n EmptyString) _).
  intros n IH result.
  destruct (Z_lt_dec 0 n) as [Hpos|Hnp].
  - destruct (encode_loop_pos n result Hpos) as (c & Hc & _ & ->).
    destruct (encode_loop_pos n EmptyString Hpos) as (c' & Hc' & _ & ->).
    assert (c' = c) by congruence. subst c'.
    assert (Hq : 0 <= n / 62 < n).
    { split; [apply Z.div_pos; lia | apply Z.div_lt; lia]. }
    rewrite (IH _ Hq (WriteByte result c)).
    rewrite (IH _ Hq (WriteByte EmptyString c)).
    unfold WriteByte. simpl.
    now rewrite string_app_assoc.
  - rewrite !encode_loop_nonpos by lia.
    now rewrite string_app_nil_r.
Qed.

Lemma decode_loop_snoc s c v :
  all_valid s -> char_value c = Some v -> forall acc,
  decode_loop (s +:+ String c EmptyString) acc =
  wrap64 (decode_loop s acc * 62 + v).
Proof.
  intros Hs Hc. induction s as [|a s IH]; intros acc; simpl.
  - rewrite Hc. reflexivity.
  - destruct Hs as [Ha Hs].
    destruct (char_value a) as [va|]; [|congruence].
    apply IH. exact Hs.
Qed.

Lemma all_valid_snoc s c :
  all_valid s -> char_value c <> None ->
  all_valid (s +:+ String c EmptyString).
Proof.
  intros Hs Hc. induction s as [|a s IH]; simpl in *; intuition.
Qed.

(** The digits the loop writes, once reversed, decode to the number. *)
Lemma decode_reverse_encode_loop num :
  0 <= num < 2^63 ->
  all_valid (reverseString (encode_loop num EmptyString)) /\
  decode_loop (reverseString (encode_loop num EmptyString)) 0 = num.
Proof.
  intros [Hn Hlt]. generalize Hn. revert Hlt. revert num Hn.
  refine (Z_lt_induction
           (fun n => n < 2^63 -> 0 <= n ->
              all_valid (reverseString (encode_loop n EmptyString)) /\
              decode_loop (reverseString (encode_loop n EmptyString)) 0 = n)
           _).
  intros n IH Hlt Hge.
  destruct (Z_lt_dec 0 n) as [Hpos|Hnp].
  - destruct (encode_loop_pos n EmptyString Hpos) as (c & Hc & Hv & ->).
    assert (Hq : 0 <= n / 62 < n).
    { split; [apply Z.div_pos; lia | apply Z.div_lt; lia]. }
    rewrite encode_loop_acc by lia.
    rewrite reverseString_app.
    destruct (IH _ Hq ltac:(lia) ltac:(lia)) as [Hval Hdec].
    change (reverseString (WriteByte EmptyString c))
      with (String c EmptyString).
    split.
    + apply all_valid_snoc; [exact Hval | congruence].
    + rewrite (decode_loop_snoc _ _ _ Hval Hv), Hdec.
      pose proof (Z.div_mod n 62 ltac:(lia)) as Hdm.
      replace (n / 62 * 62 + n mod 62) with n by lia.
      apply wrap64_id. unfold int64_range. lia.
  - assert (n = 0) by lia.
    subst n. rewrite encode_loop_nonpos by lia. simpl. auto.
Qed.

(** C10.  For every non-negative 64-bit integer [n], decoding the Base62
    encoding of [n] gives [n] back; hence no two non-negative integers
    have the same encoding. *)
Theorem decode_encode_base62 (n : Z) :
  0 <= n < 2^63 ->
  DecodeBase62 (EncodeBase62 n) = n /\
  forall m, 0 <= m < 2^63 -> EncodeBase62 m = EncodeBase62 n -> m = n.
Proof.
  assert (Hround : forall k, 0 <= k < 2^63 ->
                             DecodeBase62 (EncodeBase62 k) = k).
  { intros k Hk. unfold DecodeBase62, EncodeBase62.
    destruct (Z.eqb_spec k 0) as [->|Hne]; [reflexivity|].
    apply decode_reverse_encode_loop. exact Hk. }
  intros Hn. split; [apply Hround; exact Hn|].
  intros m Hm Heq.
  rewrite <- (Hround m Hm), Heq. apply Hround. exact Hn.
Qed.

Lemma decode_encode_base62_witness :
  DecodeBase62 (EncodeBase62 1234567890123456789) = 1234567890123456789 /\
  forall m, 0 <= m < 2^63 ->
            EncodeBase62 m = EncodeBase62 1234567890123456789 ->
            m = 1234567890123456789.
Proof. apply (decode_encode_base62 1234567890123456789). lia. Defined.

End ShortcodeSpec.

(** ** The existence filter *)

Module FilterSpec.
Import Filter Samples.

Lemma TestString_spec (f : bloom.BloomFilter) (data : string) :
  bloom.TestString f data = true <->
  forall i, i ∈ bloom.locations f data -> i ∈ bloom.b f.
Proof.
  unfold bloom.TestString. rewrite forallb_forall. split.
  - intros Hall i Hi. apply list_elem_of_In in Hi.
    specialize (Hall i Hi). now apply bool_decide_eq_true in Hall.
  - intros Hall i Hi. apply bool_decide_eq_true, Hall.
    now apply list_elem_of_In.
Qed.

Lemma locations_AddString f data data' :
  bloom.locations (bloom.AddString f data') data = bloom.locations f data.
Proof. reflexivity. Qed.

(** A key tests positive right after it was added. *)
Lemma TestString_AddString f data :
  bloom.TestString (bloom.AddString f data) data = true.
Proof.
  apply TestString_spec. intros i Hi.
  rewrite locations_AddString in Hi. simpl.
  apply elem_of_union. left. apply elem_of_list_to_set, Hi.
Qed.

(** Adding a key resets no bit: a positive test stays positive. *)
Lemma TestString_AddString_mono f data data' :
  bloom.TestString f data = true ->
  bloom.TestString (bloom.AddString f data') data = true.
Proof.
  rewrite !TestString_spec. intros Hall i Hi.
  rewrite locations_AddString in Hi. simpl.
  apply elem_of_union. right. apply Hall, Hi.
Qed.

Lemma TestString_fold_mono codes : forall f data,
  bloom.TestString f data = true ->
  bloom.TestString (fold_left bloom.AddString codes f) data = true.
Proof.
  induction codes as [|c codes IH]; intros f data Ht; simpl; [exact Ht|].
  apply IH, TestString_AddString_mono, Ht.
Qed.

Lemma TestString_fold_added codes : forall f data,
  data ∈ codes ->
  bloom.TestString (fold_left bloom.AddString codes f) data = true.
Proof.
  induction codes as [|c codes IH]; intros f data Hin; simpl.
  - inversion Hin.
  - apply elem_of_cons in Hin as [->|Hin].
    + apply TestString_fold_mono, TestString_AddString.
    + apply IH, Hin.
Qed.

Lemma step_adds bf op c :
  adds c op -> Test (step bf op).1 c = true.
Proof.
  destruct op as [c'|cs|c'|]; simpl; intros Hadd; try contradiction.
  - subst c'. apply TestString_AddString.
  - apply TestString_fold_added, Hadd.
Qed.

Lemma step_keeps bf op c :
  is_clear op = false -> Test bf c = true -> Test (step bf op).1 c = true.
Proof.
  destruct op as [c'|cs|c'|]; simpl; intros Hnc Ht; try discriminate.
  - apply TestString_AddString_mono, Ht.
  - apply TestString_fold_mono, Ht.
  - exact Ht.
Qed.

Lemma run_keeps ops : forall bf c,
  forallb (fun op => negb (is_clear op)) ops = true ->
  Test bf c = true -> Test (run bf ops) c = true.
Proof.
  induction ops as [|op ops IH]; intros bf c Hnc Ht; simpl; [exact Ht|].
  simpl in Hnc. apply andb_true_iff in Hnc as [Hop Hops].
  apply IH; [exact Hops|].
  apply step_keeps; [|exact Ht].
  now destruct (is_clear op).
Qed.

Lemma run_app bf ops1 ops2 :
  run bf (ops1 ++ ops2) = run (run bf ops1) ops2.
Proof. unfold run. apply fold_left_app. Qed.

(** C6.  Whatever the filter went through before, once an [Add] or an
    [AddBatch] has added the key [c], and as long as no [Clear] follows,
    every later [Test c] answers [true]: there is no false negative. *)
Theorem no_false_negative (bf : BloomFilter) (before after : list Op)
    (op : Op) (c : string) :
  adds c op ->
  forallb (fun op => negb (is_clear op)) after = true ->
  step (run bf (before ++ op :: after)) (OpTest c) =
  (run bf (before ++ op :: after), Some true).
Proof.
  intros Hadd Hnc. simpl. f_equal. f_equal.
  rewrite run_app. simpl.
  apply run_keeps; [exact Hnc|].
  apply step_adds, Hadd.
Qed.

Lemma no_false_negative_witness :
  step (run sample_filter
            ([OpAdd "abc"; OpClear] ++
             OpAddBatch ["x1"; "kZ3"; "q"] :: [OpAdd "zzzz"; OpTest "kZ3"]))
       (OpTest "kZ3") =
  (run sample_filter
       ([OpAdd "abc"; OpClear] ++
        OpAddBatch ["x1"; "kZ3"; "q"] :: [OpAdd "zzzz"; OpTest "kZ3"]),
   Some true).
Proof.
  apply (no_false_negative sample_filter [OpAdd "abc"; OpClear]
           [OpAdd "zzzz"; OpTest "kZ3"] (OpAddBatch ["x1"; "kZ3"; "q"]) "kZ3").
  - simpl. set_solver.
  - reflexivity.
Defined.

(** The filter does answer "absent": the positive answers above are not
    those of a filter that says yes to everything. *)
Example sample_filter_absent :
  Test (run sample_filter [OpAdd "abc"]) "kZ3x" = false.
Proof. vm_compute. reflexivity. Qed.

End FilterSpec.

(** ** The resolution cascade *)

Module ServiceSpec.
Import Redis Service Samples.

Section WithCollation.
Context `{C : Collation}.

(** C7.  When the existence filter answers "definitely absent" for a short
    code, [GetOriginalURL] returns "short code not found" at once: the
    state is the one it started from, so neither the Resolution Cache nor
    the durable store was accessed (the list of accesses is unchanged)
    and nothing was written. *)
Theorem filter_absent_no_access (env : Env) (shortCode : string)
    (s : State) :
  Filter.Test (bloom s) shortCode = false ->
  GetOriginalURL env shortCode s = ((EmptyString, Some ErrNotFound), s) /\
  accesses (GetOriginalURL env shortCode s).2 = accesses s.
Proof.
  intros Habsent. unfold GetOriginalURL. rewrite Habsent. simpl. auto.
Qed.

End WithCollation.

Local Existing Instance folding.

Lemma filter_absent_no_access_witness :
  GetOriginalURL sample_env "kZ3x" sample_state =
    ((EmptyString, Some ErrNotFound), sample_state) /\
  accesses (GetOriginalURL sample_env "kZ3x" sample_state).2 =
    accesses sample_state.
Proof.
  apply (filter_absent_no_access sample_env "kZ3x" sample_state).
  vm_compute. reflexivity.
Defined.

(** The other branch does reach the cache and the store: on a key the
    filter lets through, a cache miss is followed by a read of the
    durable store and a write to the cache. *)
Example filter_present_accesses :
  let '(r, s') := GetOriginalURL sample_env "abc" sample_state in
  r = ("https://example.org/"%string, None) /\
  accesses s' =
    [CacheGet "abc"; RepoGetByShortCode "abc";
     CacheSet "abc" "https://example.org/"].
Proof. vm_compute. auto. Qed.

End ServiceSpec.

(** ** The admission orchestrator *)

Module MiddlewareSpec.
Import Float64 GoTime Strconv Redis RateLimit Samples Vocabulary RedisSpec.

Section WithFloatText.
Context `{FT : FloatText}.

(** C8.  While the skip predicate answers [true], the middleware hands
    every request to the next handler and does nothing else: no command
    is sent to the store, so no window counter, timestamp log or token
    bucket scalar is created or modified, however many such requests
    come. *)
Theorem skipped_requests_leave_store (rl : RateLimiter)
    (skipFunc : Context -> bool) (reqs : list (Env * Context))
    (st : Store) :
  SkipFunc (config rl) = Some skipFunc ->
  Forall (fun rc => skipFunc rc.2 = true) reqs ->
  ServeAll rl reqs st = (st, map (fun _ => [Next]) reqs).
Proof.
  intros Hskip Hall. induction Hall as [|[env c] reqs Hc Hall IH]; simpl.
  - reflexivity.
  - unfold Middleware. rewrite Hskip. simpl in Hc. rewrite Hc.
    rewrite IH. reflexivity.
Qed.

Lemma fixedWindowCheck_failure rl env key st :
  transport_failure (net_first env) 2 ->
  err (fixedWindowCheck rl env key st).2 <> None.
Proof.
  intros Hfail. unfold fixedWindowCheck, fixedWindowCmds, fixedWindowResult.
  match goal with |- context [Exec ?n ?net ?cmds ?s] =>
    pose proof (Exec_transport_failure n net cmds s ltac:(discriminate)
                  Hfail) as Herr;
    destruct (Exec n net cmds s) as [[st' rs] e] end.
  simpl in Herr. destruct e; [discriminate | congruence].
Qed.

Lemma slidingWindowCheck_failure rl env key st :
  transport_failure (net_first env) 4 ->
  err (slidingWindowCheck rl env key st).2 <> None.
Proof.
  intros Hfail.
  unfold slidingWindowCheck, slidingWindowCmds, slidingWindowResult.
  match goal with |- context [Exec ?n ?net ?cmds ?s] =>
    pose proof (Exec_transport_failure n net cmds s ltac:(discriminate)
                  Hfail) as Herr;
    destruct (Exec n net cmds s) as [[st' rs] e] end.
  simpl in Herr. destruct e; [discriminate | congruence].
Qed.

Lemma tokenBucketCheck_failure rl env key st :
  transport_failure (net_second env) 2 ->
  err (tokenBucketCheck rl env key st).2 <> None.
Proof.
  intros Hfail. unfold tokenBucketCheck.
  destruct (Exec (now env) (net_first env) _ st) as [[st1 rs] e1].
  destruct (refill _ _ _ _ _) as [a tokens].
  match goal with |- context [Exec ?n ?net ?cmds ?s] =>
    pose proof (Exec_transport_failure n net cmds s ltac:(discriminate)
                  Hfail) as Herr;
    destruct (Exec n net cmds s) as [[st' rs'] e] end.
  simpl in Herr. destruct e; [discriminate | congruence].
Qed.

Lemma checkRateLimit_failure rl env key st :
  reported_failure rl env ->
  err (checkRateLimit rl env key st).2 <> None.
Proof.
  unfold reported_failure, checkRateLimit.
  repeat match goal with |- context [String.eqb ?a ?b] =>
    destruct (String.eqb a b) end;
  auto using fixedWindowCheck_failure, slidingWindowCheck_failure,
             tokenBucketCheck_failure.
Qed.

(** An error returned by the check lets the request pass, whatever else
    the check returned. *)
Lemma Middleware_fail_open rl env c st skipFunc keyFunc e :
  SkipFunc (config rl) = Some skipFunc ->
  KeyFunc (config rl) = Some keyFunc ->
  skipFunc c = false ->
  err (checkRateLimit rl env (keyFunc c) st).2 = Some e ->
  (Middleware rl env c st).2 = [Printf e; Next].
Proof.
  intros Hs Hk Hc He. unfold Middleware. rewrite Hs, Hc, Hk.
  destruct (checkRateLimit rl env (keyFunc c) st) as [st' r].
  simpl in *. rewrite He. reflexivity.
Qed.

(** Where the limiter does fail open.  Whenever the pipeline whose error the
    check returns suffers a transport failure (the pipeline of the Fixed
    Window or of the Sliding Window check, the writing pipeline of the
    Token Bucket check), the middleware logs the error and calls the next
    handler, and does nothing else: no header, no denial handler, no
    abort, no panic. *)
Lemma fail_open_on_reported_failure (rl : RateLimiter) (env : Env)
    (c : Context) (st : Store) (skipFunc : Context -> bool)
    (keyFunc : Context -> string) :
  SkipFunc (config rl) = Some skipFunc ->
  KeyFunc (config rl) = Some keyFunc ->
  skipFunc c = false ->
  reported_failure rl env ->
  exists e, (Middleware rl env c st).2 = [Printf e; Next].
Proof.
  intros Hs Hk Hc Hfail.
  pose proof (checkRateLimit_failure rl env (keyFunc c) st Hfail) as Herr.
  destruct (err (checkRateLimit rl env (keyFunc c) st).2) as [e|] eqn:He;
    [|congruence].
  exists e. eapply Middleware_fail_open; eassumption.
Qed.

(** The Token Bucket check does not report a failure of its reading
    pipeline: when the writing pipeline goes through, the check returns
    no error, whatever happened to the two [GET]. *)
Lemma tokenBucketCheck_read_error_dropped (rl : RateLimiter) (t t' : Z)
    (net : Net) (key : string) (st : Store) :
  err (tokenBucketCheck rl
         {| now := t; now_retry := t'; net_first := net;
            net_second := NetOk |} key st).2 = None.
Proof.
  unfold tokenBucketCheck. cbn [now net_first net_second].
  destruct (Exec t net _ st) as [[st1 rs] e1].
  destruct (refill _ _ _ _ _) as [a tokens].
  unfold Exec, run_all. cbn [run first_error]. reflexivity.
Qed.



End WithFloatText.

Lemma skipped_requests_leave_store_witness :
  ServeAll (FT := decimal_text) health_limiter
    [(env_at T0, health_context); (env_at (T0 + 1), health_context);
     (env_at (T0 + Second), health_context)] empty_bucket =
  (empty_bucket, [[Next]; [Next]; [Next]]).
Proof.
  apply (skipped_requests_leave_store (FT := decimal_text) health_limiter
           SkipHealthCheck
           [(env_at T0, health_context); (env_at (T0 + 1), health_context);
            (env_at (T0 + Second), health_context)] empty_bucket).
  - reflexivity.
  - repeat constructor.
Defined.

(** C1, on a failing input.  The Token Bucket check throws away the error
    of its reading pipeline ([_, _ = pipe.Exec(ctx)]) and asks each of
    the two [GET] for its own error: whenever the writing pipeline goes
    through it returns no error, so the middleware does not fail open,
    it decides from the values that came back and the defaults of those
    that did not.

    Limit 5 per 5 seconds, the bucket is empty.  The reading pipeline
    gets the token count, then the connection breaks and the reply to the
    second [GET] is lost; the writing pipeline goes through.  The store
    did return a transport error during the check, yet the request is
    denied: headers and [Retry-After] are set, the denial handler answers
    429 and the chain is aborted.  The same limit, window, store and
    failure under the Fixed Window and under the Sliding Window let the
    request through.

    The replies a client keeps of a broken pipeline are those before the
    failure, as go-redis v9.7.0 reports them.  With a client that marks
    every command of a broken pipeline as failed, the lost count is
    replaced by the default, a full bucket; the last part is a denial
    that does not depend on it: limit 0, the reading pipeline does not
    reach the store, the writing pipeline does; the Token Bucket denies
    where the Fixed Window, on the same failure, lets the request
    through. *)
Theorem token_bucket_read_error_denied :
  (forall (FT : FloatText) (rl : RateLimiter) (t t' : Z) (net : Net)
          (key : string) (st : Store),
     err (tokenBucketCheck rl
            {| now := t; now_retry := t'; net_first := net;
               net_second := NetOk |} key st).2 = None) /\
  (let env := {| now := T0; now_retry := T0;
                 net_first := NetLost 1; net_second := NetOk |} in
   let serve strategy :=
     (Middleware (FT := decimal_text)
        (sample_limiter strategy 5 (5 * Second)) env sample_context
        empty_bucket).2 in
   transport_failure (net_first env) 2 /\
   (Exec (now env) (net_first env)
         [Get "rate_limit:192.168.1.100:/api/v1/shorten:tokens";
          Get "rate_limit:192.168.1.100:/api/v1/shorten:last_refill"]
         empty_bucket).1.2 = [Res (RStr "0.00"); Fail Transport] /\
   serve TokenBucket =
     [Header "X-RateLimit-Limit" "5";
      Header "X-RateLimit-Remaining" "0";
      Header "X-RateLimit-Reset" "1700000001";
      Header "Retry-After" "1"] ++
     defaultErrorHandler sample_context ++ [Abort] /\
   serve FixedWindow = [Printf Transport; Next] /\
   serve SlidingWindow = [Printf Transport; Next]) /\
  (let env := {| now := T0; now_retry := T0;
                 net_first := NetDown; net_second := NetOk |} in
   let serve strategy :=
     (Middleware (FT := decimal_text)
        (sample_limiter strategy 0 (5 * Second)) env sample_context ∅).2 in
   (Exec (now env) (net_first env)
         [Get "rate_limit:192.168.1.100:/api/v1/shorten:tokens";
          Get "rate_limit:192.168.1.100:/api/v1/shorten:last_refill"]
         ∅).1.2 = [Fail Transport; Fail Transport] /\
   drop 4 (serve TokenBucket) =
     defaultErrorHandler sample_context ++ [Abort] /\
   serve FixedWindow = [Printf Transport; Next]).
Proof.
  split; [intros; apply tokenBucketCheck_read_error_dropped|].
  split.
  - vm_compute. repeat split; lia.
  - vm_compute. repeat split; reflexivity.
Qed.

(** Whatever the client makes of a broken pipeline: Limit 5 per 5
    seconds, the bucket is empty, the reading pipeline does not reach the
    store.  The request is let through, not by the fail-open branch but
    on the default of a full bucket, and the writing pipeline records
    that bucket: the empty bucket holds four tokens afterwards. *)
Example token_bucket_read_failure_refills :
  let rl := sample_limiter TokenBucket 5 (5 * Second) in
  let env := {| now := T0; now_retry := T0;
                net_first := NetDown; net_second := NetOk |} in
  let out := Middleware (FT := decimal_text) rl env sample_context
               empty_bucket in
  out.2 = [Header "X-RateLimit-Limit" "5";
           Header "X-RateLimit-Remaining" "4";
           Header "X-RateLimit-Reset" "1700000000"; Next] /\
  option_map value
    (out.1 !! "rate_limit:192.168.1.100:/api/v1/shorten:tokens"%string) =
    Some (VStr "4.00").
Proof. vm_compute. split; reflexivity. Qed.


End MiddlewareSpec.

(** ** Algorithm 1: the fixed window *)

Module FixedWindowSpec.
Import Float64 GoTime Strconv Redis RateLimit Samples Vocabulary RedisSpec.

(** [INCR key; EXPIRE key ttl] on a readable counter. *)
Lemma Exec_incr_expire now (st : Store) key ttl c :
  counter now st key = Some c -> c <> 2 ^ 63 - 1 -> 0 < ttl ->
  Exec now NetOk [Incr key; Expire key ttl] st =
  (<[key := {| value := VInt (c + 1);
               expireAt := Some (now + formatSec ttl * Second) |}]> st,
   [Res (RInt (c + 1)); Res (RBool true)], None).
Proof.
  intros Hc Hmax Httl. unfold counter in Hc.
  pose proof (formatSec_pos ttl Httl) as Hsec.
  unfold Exec, run_all. cbn [run].
  destruct (live now st key) as [e|] eqn:Hlive.
  - destruct (value e) as [n| |] eqn:Hv; try discriminate.
    injection Hc as ->.
    destruct (Z.eqb_spec c (2 ^ 63 - 1)); [contradiction|].
    apply live_Some in Hlive as [_ Hexp].
    rewrite live_insert. cbn [expireAt value].
    destruct (expireAt e) as [t|].
    + destruct (Z.leb_spec t now); [lia|].
      destruct (Z.leb_spec (formatSec ttl) 0); [lia|].
      rewrite insert_insert_eq. reflexivity.
    + destruct (Z.leb_spec (formatSec ttl) 0); [lia|].
      rewrite insert_insert_eq. reflexivity.
  - injection Hc as <-.
    rewrite live_insert. cbn [expireAt value].
    destruct (Z.leb_spec (formatSec ttl) 0); [lia|].
    rewrite insert_insert_eq. reflexivity.
Qed.

Lemma last_cons {A} (l : list A) : forall a d,
  List.last (a :: l) d = List.last l a.
Proof.
  induction l as [|b l IH]; intros a d; [reflexivity|].
  change (List.last (a :: b :: l) d) with (List.last (b :: l) d).
  rewrite !IH. reflexivity.
Qed.

Section OneBucket.
Variable rl : RateLimiter.
Variable s : Z.
Variable key : string.
Variable B : Z.

Let W := Window (config rl).
Let L := Limit (config rl).
Let bucketKey := windowKey key (Unix B).

Hypothesis window_seconds : W = s * Second.
Hypothesis window_range : 0 < s /\ W < 2 ^ 62.
Hypothesis limit_range : 0 <= L < 2 ^ 63.

Lemma fixedWindowCheck_step env (st : Store) c :
  in_bucket W B env ->
  counter (now env) st bucketKey = Some c -> 0 <= c < 2 ^ 63 - 1 ->
  fixedWindowCheck rl env key st =
  (<[bucketKey := {| value := VInt (c + 1);
                     expireAt := Some (now env + 2 * W) |}]> st,
   answer L ((B + W) / Second) c).
Proof.
  intros (Hnet & Hnow & HB) Hc Hcr.
  unfold fixedWindowCheck, fixedWindowCmds, fixedWindowResult.
  fold W L. rewrite Hnet, HB. fold bucketKey.
  destruct window_range as [Hs HW].
  pose proof window_seconds as Hws. unfold Second in Hws.
  assert (Hs53 : s < 2 ^ 53) by lia.
  rewrite (wrap64_id (W * 2)) by (unfold int64_range; lia).
  rewrite (Exec_incr_expire (now env) st bucketKey (W * 2) c Hc)
    by lia.
  cbn [cmd_at nth IntVal].
  replace (W * 2) with (2 * s * Second) by lia.
  rewrite (formatSec_whole (2 * s)) by lia.
  replace (now env + 2 * s * Second) with (now env + 2 * W) by lia.
  f_equal. unfold answer.
  pose proof (GoTimeSpec.Truncate_whole (now env) s Hs) as [Hin HU].
  rewrite <- window_seconds, HB in Hin, HU.
  assert (Hreset : (B + W) / Second = Unix B + s).
  { rewrite <- HU at 1. rewrite window_seconds, <- Z.mul_add_distr_r.
    apply Z.div_mul. unfold Second. lia. }
  rewrite window_seconds at 1.
  rewrite Float64Spec.Seconds_whole by lia.
  rewrite Hreset.
  unfold int64_range, Second in *.
  rewrite (wrap64_id (Unix B + s)) by (unfold int64_range; lia).
  rewrite (wrap64_id (L - (c + 1))) by (unfold int64_range; lia).
  f_equal. destruct (Z.ltb_spec (L - (c + 1)) 0); lia.
Qed.

(** After a check in the bucket, the counter is readable throughout the
    bucket. *)
Lemma counter_after env env' (st : Store) c :
  in_bucket W B env -> in_bucket W B env' ->
  counter (now env')
    (<[bucketKey := {| value := VInt c;
                       expireAt := Some (now env + 2 * W) |}]> st)
    bucketKey = Some c.
Proof.
  intros (_ & _ & HB) (_ & _ & HB').
  destruct window_range as [Hs HW].
  pose proof (GoTimeSpec.Truncate_whole (now env) s Hs) as [Hin _].
  pose proof (GoTimeSpec.Truncate_whole (now env') s Hs) as [Hin' _].
  rewrite <- window_seconds in Hin, Hin'. rewrite HB in Hin.
  rewrite HB' in Hin'.
  unfold counter. rewrite live_insert. cbn [expireAt value].
  destruct (Z.leb_spec (now env + 2 * W) (now env')); [lia | reflexivity].
Qed.

Lemma CheckAll_bucket envs : forall env (st : Store) c,
  Forall (in_bucket W B) (env :: envs) ->
  counter (now env) st bucketKey = Some c ->
  0 <= c -> c + Z.of_nat (length (env :: envs)) < 2 ^ 63 ->
  CheckAll fixedWindowCheck rl key (env :: envs) st =
  (<[bucketKey :=
       {| value := VInt (c + Z.of_nat (length (env :: envs)));
          expireAt := Some (now (List.last envs env) + 2 * W) |}]> st,
   answers L ((B + W) / Second) c (env :: envs)).
Proof.
  induction envs as [|env' envs IH]; intros env st c Hall Hc Hc0 Hlen.
  - apply Forall_cons in Hall as [Henv _].
    cbn [CheckAll answers].
    rewrite (fixedWindowCheck_step env st c Henv Hc)
      by (cbn [length] in Hlen; lia).
    cbn [length List.last]. reflexivity.
  - apply Forall_cons in Hall as [Henv Hall].
    pose proof Hall as Hall'. apply Forall_cons in Hall' as [Henv' _].
    cbn [CheckAll]. cbn [CheckAll] in IH.
    rewrite (fixedWindowCheck_step env st c Henv Hc)
      by (cbn [length] in Hlen; lia).
    rewrite (IH env' _ (c + 1) Hall
               (counter_after env env' st (c + 1) Henv Henv')
               ltac:(lia) ltac:(cbn [length] in *; lia)).
    rewrite insert_insert_eq.
    cbn [answers]. rewrite last_cons.
    replace (c + 1 + Z.of_nat (length (env' :: envs)))
      with (c + Z.of_nat (length (env :: env' :: envs)))
      by (cbn [length]; lia).
    reflexivity.
Qed.

(** From an empty counter, [n] successive answers allow while [n <= L]. *)
Lemma answers_allowed resetAt envs : forall c,
  0 <= c -> c + Z.of_nat (length envs) <= L ->
  Forall (fun r => allowed r = true) (answers L resetAt c envs).
Proof.
  induction envs as [|env envs IH]; intros c Hc Hlen; cbn [answers].
  - constructor.
  - cbn [length] in Hlen. constructor.
    + cbn. apply Z.leb_le. lia.
    + apply IH; lia.
Qed.

Lemma answers_app resetAt envs1 envs2 : forall c,
  answers L resetAt c (envs1 ++ envs2) =
  answers L resetAt c envs1 ++
  answers L resetAt (c + Z.of_nat (length envs1)) envs2.
Proof.
  induction envs1 as [|env envs1 IH]; intros c; cbn [answers app length].
  - f_equal. lia.
  - rewrite IH. do 3 f_equal. lia.
Qed.

End OneBucket.

Lemma snoc_of_cons {A} (l : list A) : forall a,
  exists l' x, a :: l = l' ++ [x] /\ length l' = length l.
Proof.
  induction l as [|b l IH]; intros a.
  - exists [], a. split; reflexivity.
  - destruct (IH b) as (l' & x & Heq & Hlen).
    exists (a :: l'), x. split.
    + cbn [app]. now rewrite Heq.
    + cbn [length]. now rewrite Hlen.
Qed.

(** C2, as amended.  Fixed Window with a window of [s] whole seconds, at
    least one and short enough for twice the window to be a duration
    (less than [2^62] nanoseconds), and a non-negative limit [L].  Take
    checks that are made one after the other in the bucket that starts at
    [B] (the time of each, truncated to the window, is [B]), with a
    working store whose counter for the bucket reads [c]: the key is
    absent or holds the count [c], which is not negative and which the
    checks do not take beyond the largest [int64].  Then [B] is a whole
    second, the one the key
    [identity:bucketStart] is built from; every check increments that
    counter and sets its expiry to twice the window after the check, and
    nothing else in the store changes; the check that finds the counter
    at [c'] answers [allowed = (c' + 1 <= L)],
    [remaining = max 0 (L - (c' + 1))] and a reset time that is the
    instant [B + window] in Unix seconds.  Consequently, when the counter
    starts at 0 and [L + 1] checks are made in the bucket, the first [L]
    are allowed and the last one is denied. *)
Theorem fixed_window_bucket (rl : RateLimiter) (s : Z) (key : string)
    (B : Z) (env : Env) (envs : list Env) (st : Store) (c : Z) :
  let W := Window (config rl) in
  let L := Limit (config rl) in
  let bucketKey := windowKey key (Unix B) in
  let results := (CheckAll fixedWindowCheck rl key (env :: envs) st).2 in
  W = s * Second -> 0 < s /\ W < 2 ^ 62 -> 0 <= L < 2 ^ 63 ->
  Forall (in_bucket W B) (env :: envs) ->
  counter (now env) st bucketKey = Some c ->
  0 <= c -> c + Z.of_nat (length (env :: envs)) < 2 ^ 63 ->
  Unix B * Second = B /\
  (B + W) / Second * Second = B + W /\
  (CheckAll fixedWindowCheck rl key (env :: envs) st).1 =
    <[bucketKey :=
        {| value := VInt (c + Z.of_nat (length (env :: envs)));
           expireAt := Some (now (List.last envs env) + 2 * W) |}]> st /\
  results = answers L ((B + W) / Second) c (env :: envs) /\
  (c = 0 -> Z.of_nat (length envs) = L ->
   exists firsts denied,
     results = firsts ++ [denied] /\
     Forall (fun r => allowed r = true /\ err r = None) firsts /\
     allowed denied = false /\ remaining denied = 0 /\
     err denied = None).
Proof.
  intros W L bucketKey results HW Hs HL Hall Hc Hc0 Hlen.
  pose proof (CheckAll_bucket rl s key B HW Hs HL envs env st c
                Hall Hc Hc0 Hlen) as Hrun.
  assert (Hres : results = answers L ((B + W) / Second) c (env :: envs))
    by (subst results; fold W L in Hrun; now rewrite Hrun).
  pose proof Hall as Hall'. apply Forall_cons in Hall' as [Henv _].
  destruct Henv as (_ & _ & HB). destruct Hs as [Hs0 Hs62].
  pose proof (GoTimeSpec.Truncate_whole (now env) s Hs0) as [_ HU].
  fold W in HB. rewrite <- HW, HB in HU.
  split; [exact HU|]. split.
  { rewrite <- HU at 1. rewrite HW, <- Z.mul_add_distr_r.
    rewrite Z.div_mul by (unfold Second; lia).
    rewrite Z.mul_add_distr_r, HU. reflexivity. }
  split; [fold W L in Hrun; now rewrite Hrun|].
  split; [exact Hres|].
  intros -> HlenL.
  destruct (snoc_of_cons envs env) as (firsts & lastenv & Heq & Hfl).
  rewrite Hres, Heq. unfold L. rewrite (answers_app rl). cbn [answers].
  eexists. eexists. split; [reflexivity|]. split; [|split; [|split]].
  - assert (Hallowed := answers_allowed rl ((B + W) / Second) firsts 0
                          ltac:(lia) ltac:(fold L; lia)).
    fold L in Hallowed.
    clear -Hallowed. revert Hallowed. generalize 0.
    induction firsts as [|e firsts IH]; intros c0 Hal; cbn [answers] in *.
    + constructor.
    + apply Forall_cons in Hal as [Ha Hal]. constructor; [auto|].
      apply IH, Hal.
  - cbn. apply Z.leb_gt. lia.
  - cbn. lia.
  - reflexivity.
Qed.

(** Limit 5 per second, six checks within one second on a fresh key: the
    scenario of the spec. *)
Lemma fixed_window_bucket_witness :
  let rl := sample_limiter FixedWindow 5 Second in
  let envs := [env_at (T0 + 1); env_at (T0 + 2); env_at (T0 + 3);
               env_at (T0 + 4); env_at (T0 + 999 * Millisecond)] in
  let results :=
    (CheckAll fixedWindowCheck rl "id" (env_at T0 :: envs) ∅).2 in
  Unix T0 * Second = T0 /\
  (T0 + Second) / Second * Second = T0 + Second /\
  (CheckAll fixedWindowCheck rl "id" (env_at T0 :: envs) ∅).1 =
    <[windowKey "id" (Unix T0) :=
        {| value := VInt (0 + Z.of_nat (length (env_at T0 :: envs)));
           expireAt :=
             Some (now (List.last envs (env_at T0)) + 2 * Second) |}]> ∅ /\
  results = answers 5 ((T0 + Second) / Second) 0 (env_at T0 :: envs) /\
  (0 = 0 -> Z.of_nat (length envs) = 5 ->
   exists firsts denied,
     results = firsts ++ [denied] /\
     Forall (fun r => allowed r = true /\ err r = None) firsts /\
     allowed denied = false /\ remaining denied = 0 /\
     err denied = None).
Proof.
  apply (fixed_window_bucket (sample_limiter FixedWindow 5 Second) 1 "id"
           T0 (env_at T0)
           [env_at (T0 + 1); env_at (T0 + 2); env_at (T0 + 3);
            env_at (T0 + 4); env_at (T0 + 999 * Millisecond)] ∅ 0).
  - reflexivity.
  - vm_compute. split; reflexivity.
  - vm_compute. split; [discriminate | reflexivity].
  - repeat constructor; vm_compute; congruence.
  - reflexivity.
  - lia.
  - vm_compute. reflexivity.
Defined.

(** C2, counterexample.  Windows that are not a whole number of seconds
    below [2^62] nanoseconds.

    The key and the reset time are computed in whole Unix seconds.
    Window of half a second, limit 1, a fresh key: a check at [T0] and a
    check 0.6 seconds later.  The two checks are in different buckets
    (they start at [T0] and at [T0 + 0.5s]), but the key is built from the
    whole second of the bucket start and is the same for both: the second
    check increments the counter of the first bucket, reads 2 and is
    denied, where the counter of its own bucket would read 1.  Both
    checks answer a reset time of [T0], which is not after the check.

    Window of 1.5 seconds: a check 0.6 seconds after [T0] is in the
    bucket from [T0 - 0.5s] to [T0 + 1s] and answers a reset time of
    [T0], one second before the end of the bucket.

    Window of 4611686019 whole seconds, limit 1: [Window * 2] does not fit
    a [time.Duration] and wraps to a negative one; [EXPIRE] with a time to
    live that is not positive deletes the counter, so every check finds
    the key absent and reads 1: three checks in one bucket are all
    allowed. *)
Theorem fixed_window_other_windows :
  let half := sample_limiter FixedWindow 1 (500 * Millisecond) in
  let first := env_at T0 in
  let second := env_at (T0 + 600 * Millisecond) in
  let rl := sample_limiter FixedWindow 5 (1500 * Millisecond) in
  let B := Truncate (now second) (Window (config rl)) in
  let huge := sample_limiter FixedWindow 1 (4611686019 * Second) in
  let third := env_at (T0 + 2 * Second) in
  let allow := {| allowed := true; remaining := 0; resetTime := 2428007466;
                  err := None |} in
  (Truncate (now first) (Window (config half)) = T0 /\
   Truncate (now second) (Window (config half)) = T0 + 500 * Millisecond /\
   fixedWindowCmds half first "id" = fixedWindowCmds half second "id" /\
   (CheckAll fixedWindowCheck half "id" [first; second] ∅).2 =
     [{| allowed := true; remaining := 0; resetTime := 1700000000;
         err := None |};
      {| allowed := false; remaining := 0; resetTime := 1700000000;
         err := None |}]) /\
  (B = T0 - 500 * Millisecond /\
   B + Window (config rl) = 1700000001 * Second /\
   (fixedWindowCheck rl second "id" ∅).2 =
     {| allowed := true; remaining := 4; resetTime := 1700000000;
        err := None |}) /\
  (Truncate (now first) (Window (config huge)) =
     Truncate (now third) (Window (config huge)) /\
   wrap64 (Window (config huge) * 2) < 0 /\
   CheckAll fixedWindowCheck huge "id" [first; second; third] ∅ =
     (∅, [allow; allow; allow])).
Proof. vm_compute. repeat split; reflexivity. Qed.

(** A store that answers at the second attempt.  Limit 1 per second, a
    fresh key: the replies of the first attempt are lost, the client sends
    the pipeline again and the store runs [INCR] a second time.  The one
    check reads the count 2 and is denied. *)
Example fixed_window_retried_pipeline :
  let rl := sample_limiter FixedWindow 1 Second in
  let env := {| now := T0; now_retry := T0;
                net_first := NetAgain NetOk; net_second := NetOk |} in
  (fixedWindowCheck rl env "id" ∅).2 =
    {| allowed := false; remaining := 0; resetTime := 1700000001;
       err := None |} /\
  counter T0 (fixedWindowCheck rl env "id" ∅).1
    (windowKey "id" (Unix T0)) = Some 2.
Proof. vm_compute. split; reflexivity. Qed.

End FixedWindowSpec.

(** ** Algorithm 2: the sliding window log *)

Module SlidingWindowSpec.
Import Float64 GoTime Strconv Redis RateLimit Samples Vocabulary RedisSpec.
Import FixedWindowSpec.

(** The pipeline of the sliding window on a readable log. *)
Lemma Exec_sliding now (st : Store) key max score member ttl z :
  log now st key = Some z -> 0 < ttl ->
  exists removed added,
    Exec now NetOk
      [ZRemRangeByScore key 0 max; ZAdd key score member; ZCard key;
       Expire key ttl] st =
    (<[key := {| value := VZSet (<[member := score]> (purge max z));
                 expireAt := Some (now + formatSec ttl * Second) |}]> st,
     [Res (RInt removed); Res (RInt added);
      Res (RInt (Z.of_nat (size (<[member := score]> (purge max z)))));
      Res (RBool true)],
     None).
Proof.
  intros Hlog Httl. unfold log in Hlog.
  pose proof (formatSec_pos ttl Httl) as Hsec.
  unfold Exec, run_all. cbn [run].
  destruct (live now st key) as [e|] eqn:Hlive.
  - destruct (value e) as [| |z0] eqn:Hv; try discriminate.
    injection Hlog as ->. fold (purge max z).
    destruct (decide (purge max z = ∅)) as [Hempty|Hne].
    + rewrite live_delete, live_insert. cbn [expireAt value].
      rewrite live_insert. cbn [expireAt value].
      destruct (Z.leb_spec (formatSec ttl) 0); [lia|].
      rewrite insert_insert_eq, insert_delete_eq, Hempty, insert_empty.
      eexists. eexists. reflexivity.
    + rewrite (live_insert_keep now st key e _ Hlive). cbn [value expireAt].
      rewrite insert_insert_eq.
      rewrite (live_insert_keep now st key e _ Hlive). cbn [value expireAt].
      rewrite (live_insert_keep now st key e _ Hlive). cbn [value expireAt].
      destruct (Z.leb_spec (formatSec ttl) 0); [lia|].
      rewrite insert_insert_eq.
      eexists. eexists. reflexivity.
  - injection Hlog as <-.
    rewrite Hlive, live_insert. cbn [expireAt value].
    rewrite live_insert. cbn [expireAt value].
    destruct (Z.leb_spec (formatSec ttl) 0); [lia|].
    rewrite insert_insert_eq. unfold purge.
    rewrite map_filter_empty, insert_empty.
    eexists. eexists. reflexivity.
Qed.




(** The check of the witness, evaluated: one entry is left, the request
    is allowed with two more to go. *)
Example sliding_window_after_the_window :
  (slidingWindowCheck (sample_limiter SlidingWindow 3 (2 * Second))
     (env_at (T0 + 2500 * Millisecond)) "id" three_entries).2 =
  {| allowed := true; remaining := 2; resetTime := 1700000004;
     err := None |}.
Proof. vm_compute. reflexivity. Qed.

(** Half a second earlier the three entries are still in the window and
    the request is denied. *)
Example sliding_window_within_the_window :
  (slidingWindowCheck (sample_limiter SlidingWindow 3 (2 * Second))
     (env_at (T0 + 1999 * Millisecond)) "id" three_entries).2 =
  {| allowed := false; remaining := 0; resetTime := 1700000003;
     err := None |}.
Proof. vm_compute. reflexivity. Qed.

(** The purge compares scores, and a score keeps 53 bits of the time: an
    entry logged 100 ns after [now - window] has the score of
    [now - window] and is purged with the older ones. *)
Example sliding_window_purges_by_score :
  let rl := sample_limiter SlidingWindow 3 (2 * Second) in
  let m := T0 + 100 in
  let st : Store :=
    {[ "id"%string := {| value := VZSet {[ m := int_value m ]};
                         expireAt := None |} ]} in
  let t := T0 + 2 * Second in
  t - Window (config rl) < m /\
  int_value m = int_value (t - Window (config rl)) /\
  log t (slidingWindowCheck rl (env_at t) "id" st).1 "id" =
    Some {[ t := int_value t ]}.
Proof. vm_compute. repeat split; reflexivity. Qed.

End SlidingWindowSpec.

(** ** Algorithm 3: the token bucket *)

Module TokenBucketSpec.
Import Float64 GoTime Strconv Redis RateLimit Samples Vocabulary.

(** C4, on a failing input.  Token Bucket, 2 requests per 3 seconds, two
    requests at [T0] on a fresh key.  The second request takes the last
    token: the bucket holds 0 tokens and gets one back after 1.5 seconds.
    The spec asks for a reset time of [T0 + ceil 1.5 = T0 + 2] seconds;
    the check truncates and answers [T0 + 1].  A request made at that
    time is denied (the bucket holds two thirds of a token), and its own
    reset time is the second it is made in. *)
Theorem token_bucket_reset_truncates :
  let rl := sample_limiter TokenBucket 2 (3 * Second) in
  let check := tokenBucketCheck (FT := decimal_text) in
  let '(st1, r1) := check rl (env_at T0) "id" ∅ in
  let '(st2, r2) := check rl (env_at T0) "id" st1 in
  let '(st3, r3) := check rl (env_at (T0 + Second)) "id" st2 in
  r1 = {| allowed := true; remaining := 1; resetTime := 1700000000;
          err := None |} /\
  r2 = {| allowed := true; remaining := 0; resetTime := 1700000001;
          err := None |} /\
  spec_resetAt rl (Unix T0) (of_int 0) = 1700000002 /\
  r3 = {| allowed := false; remaining := 0; resetTime := 1700000001;
          err := None |}.
Proof. vm_compute. repeat split; reflexivity. Qed.

(** On the tokens a check leaves, truncation and ceiling differ exactly
    when the time to the next token is not a whole number of seconds. *)
Example truncation_and_ceiling :
  let x := div (sub one (of_int 0)) (div (of_int 2) (Seconds (3 * Second))) in
  to_int64 x = 1 /\ ceil_int64 x = 2 /\
  to_int64 (of_int 3) = 3 /\ ceil_int64 (of_int 3) = 3.
Proof. vm_compute. repeat split; reflexivity. Qed.

End TokenBucketSpec.

(** ** Two checks at the same time *)

Module ConcurrentSpec.
Import Float64 GoTime Strconv Redis RateLimit Samples Concurrent Vocabulary.

(** Served without interruption, a client gets the results of [run_all]:
    the schedules [serial_AB] and [serial_BA] are two [pipe.Exec] in a
    row. *)
Lemma run_schedule_A q : forall clk rs b (st : Store) sched,
  run_schedule (repeat A (length q) ++ sched)
               {| clock := clk; queued := q; results := rs |} b st =
  run_schedule sched
               {| clock := clk; queued := [];
                  results := rs ++ (run_all clk q st).2 |} b
               (run_all clk q st).1.
Proof.
  induction q as [|c q IH]; intros clk rs b st sched.
  - cbn. now rewrite app_nil_r.
  - cbn [length repeat app run_schedule serve queued clock results run_all].
    destruct (run clk c st) as [st1 r].
    rewrite IH.
    destruct (run_all clk q st1) as [st2 rs']. cbn [fst snd].
    now rewrite <- app_assoc.
Qed.

Lemma run_schedule_B q : forall clk rs a (st : Store) sched,
  run_schedule (repeat B (length q) ++ sched) a
               {| clock := clk; queued := q; results := rs |} st =
  run_schedule sched a
               {| clock := clk; queued := [];
                  results := rs ++ (run_all clk q st).2 |}
               (run_all clk q st).1.
Proof.
  induction q as [|c q IH]; intros clk rs a st sched.
  - cbn. now rewrite app_nil_r.
  - cbn [length repeat app run_schedule serve queued clock results run_all].
    destruct (run clk c st) as [st1 r].
    rewrite IH.
    destruct (run_all clk q st1) as [st2 rs']. cbn [fst snd].
    now rewrite <- app_assoc.
Qed.

Lemma two_checks_serial cmds result rl envA envB key (st : Store) :
  two_checks cmds result rl envA envB key
    (serial_AB (length (cmds rl envA key)) (length (cmds rl envB key))) st =
  let '(st1, rsA, errA) := Exec (now envA) NetOk (cmds rl envA key) st in
  let '(st2, rsB, errB) := Exec (now envB) NetOk (cmds rl envB key) st1 in
  (st2, result rl envA rsA errA, result rl envB rsB errB).
Proof.
  unfold two_checks, serial_AB, start, Exec.
  rewrite run_schedule_A.
  rewrite <- (app_nil_r (repeat B _)), run_schedule_B.
  destruct (run_all (now envA) (cmds rl envA key) st) as [st1 rsA].
  cbn [fst snd].
  destruct (run_all (now envB) (cmds rl envB key) st1) as [st2 rsB].
  reflexivity.
Qed.

(** C9, on a failing input.  Sliding Window, 1 request per minute, two
    checks on a fresh key, one microsecond apart.  Run as atomic units,
    in either order, the first check reads cardinality 1 and is allowed,
    the second reads 2 and is denied.  With the schedule [interleaved],
    which a pipeline admits, both checks read cardinality 2 and both are
    denied: the updates of a check are not applied as one unit.  No
    update is lost, though: in each of the 70 schedules the log ends with
    the two entries. *)
Theorem sliding_pipeline_not_atomic :
  let rl := sample_limiter SlidingWindow 1 (60 * Second) in
  let run :=
    two_checks slidingWindowCmds slidingWindowResult rl
               (env_at T0) (env_at (T0 + 1000)) "id" in
  let verdicts sched :=
    (allowed (run sched ∅).1.2, allowed (run sched ∅).2) in
  verdicts (serial_AB 4 4) = (true, false) /\
  verdicts (serial_BA 4 4) = (false, true) /\
  interleaved ∈ schedules 4 4 /\
  verdicts interleaved = (false, false) /\
  Forall (fun sched =>
            log (T0 + 1000) (run sched ∅).1.1 "id" =
            Some {[ T0 := int_value T0;
                    T0 + 1000 := int_value (T0 + 1000) ]})
         (schedules 4 4).
Proof.
  cbv zeta. split; [vm_compute; reflexivity|].
  split; [vm_compute; reflexivity|].
  split; [apply (bool_decide_unpack _); vm_compute; exact I|].
  split; [vm_compute; reflexivity|].
  apply (bool_decide_unpack _). vm_compute. exact I.
Qed.

(** Fixed Window, two checks in one bucket on a fresh key: in each of
    the 6 schedules the counter ends at 2 and the checks read 1 and 2, as
    two atomic units would. *)
Example fixed_pipeline_serializable :
  let rl := sample_limiter FixedWindow 1 (60 * Second) in
  let run :=
    two_checks fixedWindowCmds fixedWindowResult rl
               (env_at T0) (env_at (T0 + 1000)) "id" in
  Forall (fun sched =>
            counter (T0 + 1000) (run sched ∅).1.1
              (windowKey "id" (Unix (Truncate T0 (60 * Second)))) = Some 2 /\
            ((allowed (run sched ∅).1.2, allowed (run sched ∅).2) =
               (true, false) \/
             (allowed (run sched ∅).1.2, allowed (run sched ∅).2) =
               (false, true)))
         (schedules 2 2).
Proof. cbv zeta. apply (bool_decide_unpack _). vm_compute. exact I. Qed.

End ConcurrentSpec.

(** ** Base62 short codes: shape, edge cases and the other round trip *)

Module ShortcodeEdges.
Import Shortcode Vocabulary ShortcodeTerms ShortcodeSpec.

Local Arguments String.append !_ _ / : simpl nomatch.

Lemma length_app s1 s2 :
  String.length (s1 +:+ s2) = (String.length s1 + String.length s2)%nat.
Proof. induction s1 as [|c s1 IH]; simpl; [reflexivity | now rewrite IH]. Qed.

Lemma length_reverseString s :
  String.length (reverseString s) = String.length s.
Proof.
  unfold reverseString.
  rewrite <- (string_of_list_ascii_of_string s) at 2.
  generalize (list_ascii_of_string s). intros l.
  assert (H : forall l, String.length (string_of_list_ascii l) = List.length l).
  { clear. induction l; simpl; congruence. }
  now rewrite !H, length_rev.
Qed.

(** The loop writes one byte per Base62 digit of the number. *)
Lemma encode_loop_length (k : nat) : forall num,
  0 <= num < 62 ^ Z.of_nat k ->
  (String.length (encode_loop num EmptyString) <= k)%nat.
Proof.
  induction k as [|k IH]; intros num Hn.
  - assert (num = 0) by (simpl in Hn; lia). subst.
    rewrite encode_loop_nonpos by lia. simpl. lia.
  - destruct (Z_lt_dec 0 num) as [Hpos|Hnp].
    + destruct (encode_loop_pos num EmptyString Hpos) as (c & _ & _ & ->).
      rewrite encode_loop_acc by (apply Z.div_pos; lia).
      rewrite length_app. simpl.
      assert (Hq : 0 <= num / 62 < 62 ^ Z.of_nat k).
      { split; [apply Z.div_pos; lia|].
        apply Z.div_lt_upper_bound; [lia|].
        rewrite Nat2Z.inj_succ, Z.pow_succ_r in Hn by lia. lia. }
      specialize (IH _ Hq). lia.
    + rewrite encode_loop_nonpos by lia. simpl. lia.
Qed.

Lemma encode_loop_nonempty num :
  0 < num -> (1 <= String.length (encode_loop num EmptyString))%nat.
Proof.
  intros Hpos.
  destruct (encode_loop_pos num EmptyString Hpos) as (c & _ & _ & ->).
  rewrite encode_loop_acc by (apply Z.div_pos; lia).
  rewrite length_app. simpl. lia.
Qed.

(** X1.  The Base62 encoding of a non-negative 64-bit integer is made of
    digits of the alphabet only and has between 1 and 11 bytes: every
    short code fits the column [short_code VARCHAR(15)]. *)
Theorem encode_base62_shape (n : Z) :
  0 <= n < 2^63 ->
  all_valid (EncodeBase62 n) /\
  (1 <= String.length (EncodeBase62 n) <= 11)%nat.
Proof.
  intros Hn. unfold EncodeBase62.
  destruct (Z.eqb_spec n 0) as [->|Hne].
  - vm_compute. split; [split; [discriminate | exact I] | lia].
  - split; [apply decode_reverse_encode_loop; exact Hn|].
    rewrite length_reverseString. split.
    + apply encode_loop_nonempty. lia.
    + apply encode_loop_length. change (62 ^ Z.of_nat 11) with 52036560683837093888. lia.
Qed.

Lemma encode_base62_shape_witness :
  all_valid (EncodeBase62 (2^63 - 1)) /\
  (1 <= String.length (EncodeBase62 (2^63 - 1)) <= 11)%nat.
Proof. apply (encode_base62_shape (2^63 - 1)). lia. Defined.

(** X2.  The loop of [EncodeBase62] runs while [num > 0]: for a negative
    number it never runs, the encoding is the empty string, and decoding
    it gives 0, not the number. *)
Theorem encode_base62_negative (n : Z) :
  n < 0 ->
  EncodeBase62 n = EmptyString /\ DecodeBase62 (EncodeBase62 n) = 0.
Proof.
  intros Hn. unfold EncodeBase62.
  destruct (Z.eqb_spec n 0) as [->|_]; [lia|].
  rewrite encode_loop_nonpos by lia. split; reflexivity.
Qed.

Lemma encode_base62_negative_witness :
  EncodeBase62 (-1) = EmptyString /\ DecodeBase62 (EncodeBase62 (-1)) = 0.
Proof. apply (encode_base62_negative (-1)). lia. Defined.

(** X3.  [DecodeBase62] gives up at the first byte that is not a Base62
    digit: whatever comes before and after it, the result is 0. *)
Theorem decode_base62_invalid (s1 s2 : string) (c : ascii) :
  char_value c = None ->
  DecodeBase62 (s1 +:+ String c s2) = 0.
Proof.
  intros Hc. unfold DecodeBase62. generalize 0 at 1.
  induction s1 as [|a s1 IH]; intros acc; simpl.
  - now rewrite Hc.
  - destruct (char_value a); [apply IH | reflexivity].
Qed.

Lemma decode_base62_invalid_witness :
  DecodeBase62 ("abc" +:+ String "-"%char "def") = 0.
Proof. apply (decode_base62_invalid "abc" "def" "-"%char). reflexivity. Defined.

(** X4.  [DecodeBase62] ignores leading zeros: a string and the same
    string behind any number of ['0'] decode to the same number, so the
    decoder is not injective. *)
Theorem decode_base62_leading_zeros (k : nat) (s : string) :
  DecodeBase62 (zeros k +:+ s) = DecodeBase62 s.
Proof.
  unfold DecodeBase62. induction k as [|k IH]; simpl; [reflexivity|].
  exact IH.
Qed.


(** The decoder inverts the alphabet: a byte with the value [v] is the
    byte of [base62Chars] at index [v]. *)
Lemma char_value_inv c v :
  char_value c = Some v -> 0 <= v < 62 /\ byte_at base62Chars v = Some c.
Proof.
  destruct c as [b0 b1 b2 b3 b4 b5 b6 b7].
  destruct b0, b1, b2, b3, b4, b5, b6, b7; vm_compute;
    intros H; try discriminate; injection H as <-;
    (split; [split; [discriminate | reflexivity] | reflexivity]).
Qed.

Lemma value_from_snoc s c v :
  all_valid s -> char_value c = Some v -> forall acc,
  value_from (s +:+ String c EmptyString) acc = value_from s acc * 62 + v.
Proof.
  intros Hs Hc. induction s as [|a s IH]; intros acc; simpl.
  - now rewrite Hc.
  - destruct Hs as [Ha Hs].
    destruct (char_value a) as [va|]; [|congruence].
    apply IH. exact Hs.
Qed.

Lemma value_from_ge s : all_valid s -> forall acc,
  0 <= acc -> acc <= value_from s acc.
Proof.
  induction s as [|a s IH]; intros Hs acc Hacc; simpl; [lia|].
  destruct Hs as [Ha Hs].
  destruct (char_value a) as [va|] eqn:Hva; [|congruence].
  destruct (char_value_inv _ _ Hva) as [Hr _].
  specialize (IH Hs (acc * 62 + va) ltac:(lia)). lia.
Qed.

Lemma all_valid_snoc_inv s c :
  all_valid (s +:+ String c EmptyString) ->
  all_valid s /\ char_value c <> None.
Proof.
  induction s as [|a s IH]; simpl; [tauto|].
  intros [Ha Hs]. destruct (IH Hs). tauto.
Qed.

(** Induction on a string from its last byte. *)
Lemma string_snoc_ind (P : string -> Prop) :
  P EmptyString ->
  (forall s c, P s -> P (s +:+ String c EmptyString)) ->
  forall s, P s.
Proof.
  intros Hnil Hsnoc s.
  rewrite <- (string_of_list_ascii_of_string s).
  induction (list_ascii_of_string s) as [|c l IH] using rev_ind.
  - exact Hnil.
  - rewrite string_of_list_app. apply Hsnoc. exact IH.
Qed.

(** As long as the value fits, the decoder computes it without
    wrap-around. *)
Lemma decode_loop_value s :
  all_valid s -> value_of s < 2^63 -> decode_loop s 0 = value_of s.
Proof.
  induction s as [|s c IH] using string_snoc_ind; intros Hs Hlt.
  - reflexivity.
  - destruct (all_valid_snoc_inv _ _ Hs) as [Hs' Hc].
    destruct (char_value c) as [v|] eqn:Hv; [|congruence].
    destruct (char_value_inv _ _ Hv) as [Hr _].
    unfold value_of in *.
    rewrite (value_from_snoc _ _ _ Hs' Hv) in Hlt |- *.
    pose proof (value_from_ge s Hs' 0 ltac:(lia)) as Hge.
    rewrite (decode_loop_snoc _ _ _ Hs' Hv), IH by (try exact Hs'; lia).
    apply wrap64_id. unfold int64_range. lia.
Qed.

Lemma encode_base62_snoc m c v :
  0 < m -> char_value c = Some v ->
  EncodeBase62 (m * 62 + v) = EncodeBase62 m +:+ String c EmptyString.
Proof.
  intros Hm Hv. destruct (char_value_inv _ _ Hv) as [Hr Hb].
  unfold EncodeBase62.
  destruct (Z.eqb_spec (m * 62 + v) 0) as [|_]; [lia|].
  destruct (Z.eqb_spec m 0) as [|_]; [lia|].
  destruct (encode_loop_pos (m * 62 + v) EmptyString ltac:(lia))
    as (c' & Hc' & _ & ->).
  replace ((m * 62 + v) mod 62) with v in Hc'
    by (rewrite Z.add_comm, Z.mod_add, Z.mod_small; lia).
  replace ((m * 62 + v) / 62) with m
    by (rewrite Z.add_comm, Z.div_add, Z.div_small; lia).
  assert (c' = c) by congruence. subst c'.
  rewrite encode_loop_acc by lia.
  rewrite reverseString_app. reflexivity.
Qed.

Lemma encode_base62_digit c v :
  char_value c = Some v -> EncodeBase62 v = String c EmptyString.
Proof.
  intros Hv. destruct (char_value_inv _ _ Hv) as [Hr Hb].
  unfold EncodeBase62.
  destruct (Z.eqb_spec v 0) as [->|Hne].
  - now rewrite Hb.
  - destruct (encode_loop_pos v EmptyString ltac:(lia))
      as (c' & Hc' & _ & ->).
    rewrite Z.mod_small in Hc' by lia.
    assert (c' = c) by congruence. subst c'.
    rewrite Z.div_small by lia.
    rewrite encode_loop_nonpos by lia. reflexivity.
Qed.

Lemma canonical_positive a rest :
  all_valid (String a rest) -> char_value a <> Some 0 ->
  0 < value_of (String a rest).
Proof.
  intros [Ha Hs] Hnz. unfold value_of. simpl.
  destruct (char_value a) as [va|] eqn:Hva; [|congruence].
  destruct (char_value_inv _ _ Hva) as [Hr _].
  assert (va <> 0) by congruence.
  pose proof (value_from_ge rest Hs va ltac:(lia)).
  replace (0 * 62 + va) with va by lia. lia.
Qed.

(** X5.  The other round trip.  A string of Base62 digits without a
    leading zero whose value fits an [int64] decodes to that value, and
    encoding the value gives the string back. *)
Theorem encode_decode_base62 (s : string) :
  all_valid s -> canonical s -> value_of s < 2^63 ->
  DecodeBase62 s = value_of s /\ EncodeBase62 (DecodeBase62 s) = s.
Proof.
  intros Hs Hcan Hlt.
  assert (Hdec : DecodeBase62 s = value_of s)
    by (apply decode_loop_value; assumption).
  split; [exact Hdec|]. rewrite Hdec. clear Hdec.
  revert Hs Hcan Hlt.
  induction s as [|s c IH] using string_snoc_ind; intros Hs Hcan Hlt.
  - destruct Hcan.
  - destruct (all_valid_snoc_inv _ _ Hs) as [Hs' Hc].
    destruct (char_value c) as [v|] eqn:Hv; [|congruence].
    destruct (char_value_inv _ _ Hv) as [Hr _].
    unfold value_of in *.
    rewrite (value_from_snoc _ _ _ Hs' Hv) in Hlt |- *.
    destruct s as [|a rest].
    + simpl. apply encode_base62_digit. exact Hv.
    + assert (Hnz : char_value a <> Some 0).
      { simpl in Hcan. destruct Hcan as [H|H]; [exact H|].
        destruct rest; discriminate. }
      pose proof (canonical_positive a rest Hs' Hnz) as Hpos.
      unfold value_of in Hpos.
      rewrite (encode_base62_snoc _ _ _ Hpos Hv).
      rewrite IH; [reflexivity | exact Hs' | left; exact Hnz | ]. lia.
Qed.

Lemma encode_decode_base62_witness :
  DecodeBase62 "aZl8N0y58M7" = value_of "aZl8N0y58M7" /\
  EncodeBase62 (DecodeBase62 "aZl8N0y58M7") = "aZl8N0y58M7"%string.
Proof.
  apply (encode_decode_base62 "aZl8N0y58M7").
  - vm_compute. repeat split; discriminate.
  - left. vm_compute. discriminate.
  - vm_compute. reflexivity.
Defined.

End ShortcodeEdges.

(** ** What a rate-limit check leaves alone *)

Module LimiterFrameSpec.
Import Float64 GoTime Strconv Redis RateLimit Samples Vocabulary.
Import LimiterTerms MoreSamples.

Local Arguments String.append !_ _ / : simpl nomatch.

(** A command changes nothing but the entry of its key. *)
Lemma run_frame now c (st : Store) k :
  k <> cmd_key c -> (run now c st).1 !! k = st !! k.
Proof.
  intros Hk.
  destruct c; simpl in Hk |- *;
    repeat match goal with
           | |- context [match ?x with _ => _ end] => destruct x; simpl
           end;
    rewrite ?lookup_insert_ne, ?lookup_delete_ne by congruence;
    reflexivity.
Qed.

Lemma run_all_frame now cmds k : forall (st : Store),
  Forall (fun c => k <> cmd_key c) cmds ->
  (run_all now cmds st).1 !! k = st !! k.
Proof.
  induction cmds as [|c cmds IH]; intros st Hall; simpl; [reflexivity|].
  inversion Hall as [|? ? Hc Hrest]; subst.
  pose proof (run_frame now c st k Hc) as Hrun.
  destruct (run now c st) as [st1 r]. simpl in Hrun.
  specialize (IH st1 Hrest).
  destruct (run_all now cmds st1) as [st2 rs]. simpl in *. congruence.
Qed.

Lemma Exec_frame now net cmds (st : Store) k :
  Forall (fun c => k <> cmd_key c) cmds ->
  (Exec now net cmds st).1.1 !! k = st !! k.
Proof.
  intros Hall. revert st.
  induction net as [| |n|net IH]; intros st;
    pose proof (run_all_frame now cmds k st Hall) as Hrun; cbn [Exec].
  - destruct (run_all now cmds st) as [st' rs]; exact Hrun.
  - reflexivity.
  - destruct (run_all now cmds st) as [st' rs]; exact Hrun.
  - rewrite IH. exact Hrun.
Qed.

Section WithFloatText.
Context `{FT : FloatText}.

Lemma fixedWindowCheck_frame rl env key (st : Store) k :
  k <> windowKey key (Unix (Truncate (now env) (Window (config rl)))) ->
  (fixedWindowCheck rl env key st).1 !! k = st !! k.
Proof.
  intros Hk. unfold fixedWindowCheck.
  pose proof (Exec_frame (now env) (net_first env)
                (fixedWindowCmds rl env key) st k) as Hf.
  destruct (Exec _ _ _ st) as [[st' rs] e]. simpl in *.
  apply Hf. unfold fixedWindowCmds. repeat constructor; exact Hk.
Qed.

Lemma slidingWindowCheck_frame rl env key (st : Store) k :
  k <> key -> (slidingWindowCheck rl env key st).1 !! k = st !! k.
Proof.
  intros Hk. unfold slidingWindowCheck.
  pose proof (Exec_frame (now env) (net_first env)
                (slidingWindowCmds rl env key) st k) as Hf.
  destruct (Exec _ _ _ st) as [[st' rs] e]. simpl in *.
  apply Hf. unfold slidingWindowCmds. repeat constructor; exact Hk.
Qed.

Lemma tokenBucketCheck_frame rl env key (st : Store) k :
  k <> key +:+ ":tokens" -> k <> key +:+ ":last_refill" ->
  (tokenBucketCheck rl env key st).1 !! k = st !! k.
Proof.
  intros Ht Hl. unfold tokenBucketCheck.
  match goal with
  | |- context [Exec ?n ?net ?cmds st] =>
      pose proof (Exec_frame n net cmds st k) as Hf1;
      destruct (Exec n net cmds st) as [[st1 rs1] e1]
  end.
  simpl in Hf1.
  destruct (refill _ _ _ _ _) as [allowed tokens].
  match goal with
  | |- context [Exec ?n ?net ?cmds st1] =>
      pose proof (Exec_frame n net cmds st1 k) as Hf2;
      destruct (Exec n net cmds st1) as [[st2 rs2] e2]
  end.
  simpl in Hf2.
  assert (st2 !! k = st !! k) as Hst.
  { rewrite Hf2, Hf1; [reflexivity | |]; repeat constructor; assumption. }
  destruct e2; exact Hst.
Qed.

(** X6.  A rate-limit check changes no entry of the store other than
    those of its own keys (the counter of the current bucket, the log, or
    the token count and the refill time), whatever the strategy, the
    store and the fate of its pipelines. *)
Theorem check_touches_own_keys (rl : RateLimiter) (env : Env)
    (key : string) (st : Store) (k : string) :
  k ∉ check_keys rl env key ->
  (checkRateLimit rl env key st).1 !! k = st !! k.
Proof.
  unfold check_keys, checkRateLimit. intros Hk.
  destruct (String.eqb (Strategy (config rl)) FixedWindow).
  { apply fixedWindowCheck_frame. set_solver. }
  destruct (String.eqb (Strategy (config rl)) SlidingWindow).
  { apply slidingWindowCheck_frame. set_solver. }
  destruct (String.eqb (Strategy (config rl)) TokenBucket).
  { apply tokenBucketCheck_frame; set_solver. }
  apply fixedWindowCheck_frame. set_solver.
Qed.

(** Past the skip predicate, the store the middleware leaves is the one
    the check leaves. *)
Lemma Middleware_store rl env c (st : Store) skipFunc keyFunc :
  SkipFunc (config rl) = Some skipFunc ->
  KeyFunc (config rl) = Some keyFunc ->
  (Middleware rl env c st).1 =
  if skipFunc c then st else (checkRateLimit rl env (keyFunc c) st).1.
Proof.
  intros Hs Hk. unfold Middleware. rewrite Hs, Hk.
  destruct (skipFunc c); [reflexivity|].
  destruct (checkRateLimit rl env (keyFunc c) st) as [st' r]. simpl.
  destruct (err r); [reflexivity|].
  destruct (negb (allowed r)); [|reflexivity].
  destruct (ErrorHandler (config rl)); reflexivity.
Qed.

(** The functions of a limiter built with one of the key functions of
    the package: the keys start with [rate_limit:]. *)
Lemma NewRateLimiter_builtin redisClient cfg rl :
  NewRateLimiter redisClient (Some cfg) = Returned rl ->
  builtin_key cfg ->
  exists skipFunc keyFunc,
    SkipFunc (config rl) = Some skipFunc /\
    KeyFunc (config rl) = Some keyFunc /\
    forall c, exists t, keyFunc c = String "r"%char t.
Proof.
  intros Hnew Hkey. injection Hnew as <-. cbn [config SkipFunc KeyFunc].
  assert (Hs : exists skipFunc,
             match SkipFunc cfg with
             | Some f => Some f
             | None => Some (fun _ : Context => false)
             end = Some skipFunc)
    by (destruct (SkipFunc cfg); eauto).
  destruct Hs as [skipFunc ->]. exists skipFunc.
  destruct Hkey as [H|[H|[H|H]]]; rewrite H;
    eexists; (split; [reflexivity|]); (split; [reflexivity|]);
    intros c0; simpl; eauto.
Qed.

(** X7.  The limiter and the Resolution Cache share one Redis database.
    A limiter built by [NewRateLimiter] with the default key function or
    one of the three helpers never changes an entry of the cache: its keys
    start with [rate_limit:], those of the cache with [short:code:]. *)
Theorem limiter_leaves_url_cache (redisClient : Client)
    (cfg : RateLimitConfig) (rl : RateLimiter) (env : Env) (c : Context)
    (st : Store) (shortCode : string) :
  NewRateLimiter redisClient (Some cfg) = Returned rl ->
  builtin_key cfg ->
  (Middleware rl env c st).1 !! (Service.ShortCodePrefix +:+ shortCode) =
  st !! (Service.ShortCodePrefix +:+ shortCode).
Proof.
  intros Hnew Hkey.
  destruct (NewRateLimiter_builtin _ _ _ Hnew Hkey)
    as (skipFunc & keyFunc & Hs & Hk & Hr).
  rewrite (Middleware_store _ _ _ _ _ _ Hs Hk).
  destruct (skipFunc c); [reflexivity|].
  destruct (Hr c) as [t ->]. unfold checkRateLimit.
  repeat match goal with
         | |- context [if ?b then _ else _] => destruct b
         end;
    first [apply fixedWindowCheck_frame | apply slidingWindowCheck_frame
          | apply tokenBucketCheck_frame];
    unfold windowKey; simpl; discriminate.
Qed.


(** X8.  A strategy that is none of the three constants is served by the
    fixed window, the [default] of [checkRateLimit]; the server never
    gets there: its own [switch] turns every unknown name of the
    configuration file into the sliding window. *)
Theorem unknown_strategy_defaults (rl server : RateLimiter)
    (name : string) (limit window : Z) (redisClient : Client) (env : Env)
    (key : string) (st : Store) :
  name <> "fixed_window"%string -> name <> "sliding_window"%string ->
  name <> "token_bucket"%string ->
  Strategy (config rl) = name ->
  NewRateLimiter redisClient
    (Some (Server.globalLimiterConfig name limit window)) =
    Returned server ->
  checkRateLimit rl env key st = fixedWindowCheck rl env key st /\
  checkRateLimit server env key st = slidingWindowCheck server env key st.
Proof.
  intros Hf Hs Ht Hname Hnew. apply String.eqb_neq in Hf, Hs, Ht. split.
  - unfold checkRateLimit, FixedWindow, SlidingWindow, TokenBucket.
    now rewrite Hname, Hf, Hs, Ht.
  - injection Hnew as <-.
    unfold checkRateLimit. cbn [config Strategy Server.globalLimiterConfig].
    unfold Server.strategyFromConfig. now rewrite Hf, Hs, Ht.
Qed.


End WithFloatText.

Lemma unknown_strategy_defaults_witness :
  let rl := {| redis := client "localhost:6379";
               config := sample_config "leaky_bucket" 5 Second |} in
  let server :=
    sample_limiter_of (Server.globalLimiterConfig "leaky_bucket" 5 1) in
  checkRateLimit (FT := decimal_text) rl (env_at T0) "id" ∅ =
    fixedWindowCheck rl (env_at T0) "id" ∅ /\
  checkRateLimit (FT := decimal_text) server (env_at T0) "id" ∅ =
    slidingWindowCheck server (env_at T0) "id" ∅.
Proof.
  apply (unknown_strategy_defaults (FT := decimal_text) _ _
           "leaky_bucket" 5 1 (client "localhost:6379"));
    first [discriminate | reflexivity].
Defined.


Lemma limiter_leaves_url_cache_witness :
  (Middleware (FT := decimal_text)
     (sample_limiter TokenBucket 5 (5 * Second)) (env_at T0)
     sample_context empty_bucket).1 !! (Service.ShortCodePrefix +:+ "abc") =
  empty_bucket !! (Service.ShortCodePrefix +:+ "abc").
Proof.
  apply (limiter_leaves_url_cache (FT := decimal_text)
           (client "localhost:6379")
           (sample_config TokenBucket 5 (5 * Second))).
  - reflexivity.
  - left. reflexivity.
Defined.

Lemma check_touches_own_keys_witness :
  (checkRateLimit (FT := decimal_text)
     (sample_limiter SlidingWindow 3 (2 * Second)) (env_at T0) "id"
     three_entries).1 !! "other"%string = three_entries !! "other"%string.
Proof.
  apply (check_touches_own_keys (FT := decimal_text)).
  apply not_elem_of_cons. split; [discriminate | apply not_elem_of_nil].
Defined.

End LimiterFrameSpec.

(** ** The sliding window: at most [limit] requests per window *)

Module SlidingLimitSpec.
Import Float64 GoTime Strconv Redis RateLimit Samples Vocabulary RedisSpec.
Import WindowTerms.

(** One check on a readable log: the log it leaves and what it answers
    from. *)
Lemma slidingWindowCheck_step rl env key (st : Store) z :
  let W := Window (config rl) in
  let t := now env in
  let z' := <[t := int_value t]> (purge (int_value (t - W)) z) in
  net_first env = NetOk -> 0 < W < 2 ^ 62 -> 0 <= t < 2 ^ 63 ->
  log t st key = Some z ->
  exists r,
    slidingWindowCheck rl env key st =
      (<[key := {| value := VZSet z';
                   expireAt := Some (t + formatSec (2 * W) * Second) |}]> st,
       r) /\
    allowed r = (Z.of_nat (size z') <=? Limit (config rl)) /\
    remaining r =
      (let left := wrap64 (Limit (config rl) - Z.of_nat (size z')) in
       if left <? 0 then 0 else left) /\
    resetTime r = Unix (t + W) /\ err r = None.
Proof.
  intros W t z' Hnet HW Ht Hlog. subst z'.
  unfold slidingWindowCheck, slidingWindowCmds, slidingWindowResult.
  fold W t. rewrite Hnet.
  rewrite (wrap64_id (- W)) by (unfold int64_range; lia).
  rewrite (wrap64_id (W * 2)) by (unfold int64_range; lia).
  unfold UnixNano, Add.
  rewrite (wrap64_id (t + - W)) by (unfold int64_range; lia).
  rewrite (wrap64_id t) by (unfold int64_range; lia).
  destruct (SlidingWindowSpec.Exec_sliding t st key (int_value (t + - W))
              (int_value t) t (W * 2) z Hlog ltac:(lia))
    as (removed & added & ->).
  replace (t + - W) with (t - W) by lia.
  replace (W * 2) with (2 * W) by lia.
  eexists. repeat split; reflexivity.
Qed.

(** A sorted set has at least as many entries as a list of distinct
    members of it. *)
Lemma size_members (z : gmap Z Z) (seen : list Z) :
  NoDup seen -> (forall m, m ∈ seen -> is_Some (z !! m)) ->
  (length seen <= size z)%nat.
Proof.
  intros Hnd Hin.
  rewrite <- (size_list_to_set (C := gset Z) seen Hnd), <- size_dom.
  apply subseteq_size. intros m Hm.
  apply elem_of_list_to_set in Hm. apply elem_of_dom. auto.
Qed.

Section Run.
Variable rl : RateLimiter.
Variable key : string.
Variable tmax : Z.

Let W := Window (config rl).
Let L := Limit (config rl).
Let bound := int_value (tmax - W).

Hypothesis window_range : 0 < W < 2 ^ 62.
Hypothesis tmax_range : tmax < 2 ^ 63.

(** The entries of the checks made so far, [seen], stay in the log as
    long as the checks come before [tmax]; the check number [i] from here
    answers from a cardinality of at least [length seen + i + 1]. *)
Lemma sliding_run envs : forall t_prev (st : Store) z seen,
  ascending t_prev envs -> last_time t_prev envs <= tmax ->
  0 <= t_prev -> tmax < t_prev + W -> bound < int_value t_prev ->
  (forall t', t_prev < t' <= tmax -> log t' st key = Some z) ->
  NoDup seen ->
  (forall m, m ∈ seen ->
     z !! m = Some (int_value m) /\ m <= t_prev /\ bound < int_value m) ->
  forall i r,
    (CheckAll slidingWindowCheck rl key envs st).2 !! i = Some r ->
    allowed r = true ->
    Z.of_nat (length seen) + Z.of_nat i + 1 <= L.
Proof.
  induction envs as [|env envs IH];
    intros t_prev st z seen Hasc Hlast Hprev Hmax Hbound Hlog Hnd Hseen i r.
  - simpl. rewrite lookup_nil. discriminate.
  - destruct Hasc as (Hnet & Hlt & Hasc).
    set (t := now env) in *.
    assert (Htmax : t <= tmax).
    { clear - Hasc Hlast. unfold last_time in Hlast.
      change (map now (env :: envs)) with (now env :: map now envs) in Hlast.
      fold t in Hlast. revert Hasc Hlast. generalize t.
      induction envs as [|e envs IHe]; intros t0 Hasc Hlast.
      - simpl in Hlast. lia.
      - destruct Hasc as (_ & Hlt & Hasc).
        change (List.last (t0 :: map now (e :: envs)) t_prev)
          with (List.last (now e :: map now envs) t_prev) in Hlast.
        specialize (IHe (now e) Hasc Hlast). lia. }
    set (z' := <[t := int_value t]> (purge (int_value (t - W)) z)).
    destruct (slidingWindowCheck_step rl env key st z Hnet window_range
                ltac:(fold t; lia) (Hlog t ltac:(lia)))
      as (r0 & Hstep & Hallowed & _).
    fold t W z' in Hstep.
    assert (Hbt : bound < int_value t).
    { pose proof (Float64Spec.int_value_mono t_prev t ltac:(lia)). lia. }
    assert (Hseen' : forall m, m ∈ t :: seen ->
              z' !! m = Some (int_value m) /\ m <= t /\ bound < int_value m).
    { intros m Hm. apply elem_of_cons in Hm as [->|Hm].
      - split; [apply lookup_insert_eq | lia].
      - destruct (Hseen m Hm) as (Hz & Hle & Hb).
        split; [|lia]. unfold z'.
        rewrite lookup_insert_ne by lia.
        unfold purge. apply map_lookup_filter_Some. split; [exact Hz|].
        unfold in_score_range. cbn.
        pose proof (Float64Spec.int_value_mono (t - W) (tmax - W)
                      ltac:(lia)).
        fold bound in H. lia. }
    assert (Hnd' : NoDup (t :: seen)).
    { constructor; [|exact Hnd]. intros Hin.
      destruct (Hseen t Hin) as (_ & Hle & _). lia. }
    cbn [CheckAll]. rewrite Hstep.
    destruct (CheckAll slidingWindowCheck rl key envs _) as [st2 rs] eqn:Hrest.
    cbn [snd]. destruct i as [|i]; cbn [lookup list_lookup].
    + intros Hr Hal. injection Hr as <-. rewrite Hallowed in Hal.
      apply Z.leb_le in Hal.
      pose proof (size_members z' (t :: seen) Hnd'
                    (fun m Hm => ex_intro _ _ (proj1 (Hseen' m Hm)))) as Hsz.
      cbn [length] in Hsz. unfold z', t, W, L in *. lia.
    + intros Hr Hal.
      assert (Hlast' : last_time t envs <= tmax).
      { unfold last_time in *.
        change (map now (env :: envs)) with (t :: map now envs) in Hlast.
        destruct (map now envs) as [|t1 ts]; [simpl; lia|].
        change (List.last (t :: t1 :: ts) t_prev)
          with (List.last (t1 :: ts) t_prev) in Hlast.
        rewrite <- Hlast. clear. revert t1.
        induction ts as [|t2 ts IHts]; intros t1; [reflexivity|].
        change (List.last (t1 :: t2 :: ts) t)
          with (List.last (t2 :: ts) t).
        change (List.last (t1 :: t2 :: ts) t_prev)
          with (List.last (t2 :: ts) t_prev).
        rewrite IHts. lia. }
      pose proof (IH t (<[key := {| value := VZSet z';
                                    expireAt :=
                                      Some (t + formatSec (2 * W) * Second)
                                 |}]> st)
                    z' (t :: seen) Hasc Hlast' ltac:(lia) ltac:(lia)
                    Hbt) as IH'.
      rewrite Hrest in IH'. cbn [snd] in IH'.
      assert (Hlog' : forall t', t < t' <= tmax ->
                log t' (<[key := {| value := VZSet z';
                                    expireAt :=
                                      Some (t + formatSec (2 * W) * Second)
                                 |}]> st)
                    key = Some z').
      { intros t' Ht'. unfold log. rewrite live_insert. cbn [expireAt value].
        pose proof (formatSec_twice W ltac:(lia)) as [Httl _].
        destruct (Z.leb_spec (t + formatSec (2 * W) * Second) t');
          [lia | reflexivity]. }
      specialize (IH' Hlog' Hnd' Hseen' i r Hr Hal).
      cbn [length] in IH'. lia.
Qed.

End Run.

Lemma last_time_ge envs : forall t, ascending t envs -> t <= last_time t envs.
Proof.
  unfold last_time.
  induction envs as [|e envs IH]; intros t Hasc; [simpl; lia|].
  destruct Hasc as (_ & Hlt & Hasc). specialize (IH (now e) Hasc).
  change (map now (e :: envs)) with (now e :: map now envs).
  destruct (map now envs) as [|t1 ts]; [simpl in *; lia|].
  change (List.last (now e :: t1 :: ts) t) with (List.last (t1 :: ts) t).
  enough (List.last (t1 :: ts) t = List.last (t1 :: ts) (now e)) by lia.
  clear. revert t1.
  induction ts as [|t2 ts IHts]; intros t1; [reflexivity|].
  change (List.last (t1 :: t2 :: ts) t) with (List.last (t2 :: ts) t).
  change (List.last (t1 :: t2 :: ts) (now e))
    with (List.last (t2 :: ts) (now e)).
  apply IHts.
Qed.

(** X10.  The guarantee of the sliding window.  Checks on one key are
    made one after the other at times that go up strictly, over a
    working store in which the key holds a log (or nothing).  If the
    first of them is still inside the window of the last, as the scores
    of the store compare ([float64(last - window) < float64(first)]),
    then every check from the [limit + 1]-th on is denied, whether the
    checks before it were allowed or not: no more than [limit] requests
    pass within one window. *)
Theorem sliding_window_limit (rl : RateLimiter) (key : string) (env : Env)
    (envs : list Env) (st : Store) (z : gmap Z Z) :
  let W := Window (config rl) in
  let L := Limit (config rl) in
  let first := now env in
  let last := last_time first envs in
  0 < W < 2 ^ 62 ->
  net_first env = NetOk -> 0 <= first -> ascending first envs ->
  last < 2 ^ 63 ->
  log first st key = Some z ->
  int_value (last - W) < int_value first ->
  forall i r,
    (CheckAll slidingWindowCheck rl key (env :: envs) st).2 !! i = Some r ->
    L <= Z.of_nat i -> allowed r = false.
Proof.
  intros W L t0 tn HW Hnet Ht0 Hasc Htn Hlog Hin i r Hr Hi.
  pose proof (last_time_ge envs t0 Hasc) as Hle. fold tn in Hle.
  assert (Hmax : tn < t0 + W).
  { destruct (Z_lt_dec tn (t0 + W)) as [|Hge]; [assumption|].
    pose proof (Float64Spec.int_value_mono t0 (tn - W) ltac:(lia)). lia. }
  set (z' := <[t0 := int_value t0]> (purge (int_value (t0 - W)) z)).
  destruct (slidingWindowCheck_step rl env key st z Hnet HW
              ltac:(fold t0; lia) Hlog) as (r0 & Hstep & Hallowed & _).
  fold t0 W z' in Hstep.
  cbn [CheckAll] in Hr. rewrite Hstep in Hr.
  destruct (CheckAll slidingWindowCheck rl key envs _) as [st2 rs] eqn:Hrest.
  cbn [snd] in Hr. destruct i as [|i]; cbn [lookup list_lookup] in Hr.
  - injection Hr as <-. rewrite Hallowed. apply Z.leb_gt.
    assert (Hsz : (length [t0] <= size z')%nat).
    { apply size_members; [repeat constructor; apply not_elem_of_nil|].
      intros m Hm. apply list_elem_of_singleton in Hm as ->.
      unfold z'. rewrite lookup_insert_eq. eauto. }
    cbn [length] in Hsz. unfold z', t0, W, L in *. lia.
  - destruct (allowed r) eqn:Hal; [|reflexivity]. exfalso.
    pose proof (sliding_run rl key tn HW Htn envs t0
                  (<[key := {| value := VZSet z';
                               expireAt :=
                                 Some (t0 + formatSec (2 * W) * Second)
                            |}]> st)
                  z' [t0] Hasc ltac:(fold tn; lia) Ht0 Hmax Hin) as Hrun.
    rewrite Hrest in Hrun. cbn [snd] in Hrun.
    assert (Hlog' : forall t', t0 < t' <= tn ->
              log t' (<[key := {| value := VZSet z';
                                  expireAt :=
                                    Some (t0 + formatSec (2 * W) * Second)
                               |}]> st)
                  key = Some z').
    { intros t' Ht'. unfold log. rewrite live_insert. cbn [expireAt value].
      pose proof (formatSec_twice W ltac:(lia)) as [Httl _].
      destruct (Z.leb_spec (t0 + formatSec (2 * W) * Second) t');
        [lia | reflexivity]. }
    assert (Hseen : forall m, m ∈ [t0] ->
              z' !! m = Some (int_value m) /\ m <= t0 /\
              int_value (tn - W) < int_value m).
    { intros m Hm. apply list_elem_of_singleton in Hm as ->.
      split; [apply lookup_insert_eq | lia]. }
    specialize (Hrun Hlog' ltac:(repeat constructor; apply not_elem_of_nil)
                  Hseen i r Hr Hal).
    cbn [length] in Hrun. fold L in Hrun. lia.
Qed.

(** Limit 3 per 2 seconds: four checks one nanosecond apart on an empty
    store; the fourth is denied. *)
Lemma sliding_window_limit_witness :
  exists r,
    (CheckAll slidingWindowCheck
       (sample_limiter SlidingWindow 3 (2 * Second)) "id"
       (env_at T0 :: [env_at (T0 + 1); env_at (T0 + 2); env_at (T0 + 3)])
       ∅).2 !! 3%nat = Some r /\
    allowed r = false.
Proof.
  eexists. split; [vm_compute; reflexivity|].
  apply (sliding_window_limit (sample_limiter SlidingWindow 3 (2 * Second))
           "id" (env_at T0)
           [env_at (T0 + 1); env_at (T0 + 2); env_at (T0 + 3)] ∅ ∅
           ltac:(vm_compute; split; reflexivity)
           ltac:(reflexivity)
           ltac:(vm_compute; discriminate)
           ltac:(vm_compute; repeat split; reflexivity)
           ltac:(vm_compute; reflexivity)
           ltac:(reflexivity)
           ltac:(vm_compute; reflexivity)
           3%nat).
  - vm_compute. reflexivity.
  - vm_compute. discriminate.
Defined.

(** X11.  The sliding window recovers.  When every entry of the log
    is at least one window old (the earlier checks were made at or
    before [now - window]), a check over a working store purges them
    all: the log it leaves holds its own entry only, and it answers from
    the cardinality 1, so it is allowed as soon as the limit is at least
    1, with [limit - 1] requests remaining. *)
Theorem sliding_window_recovers (rl : RateLimiter) (env : Env)
    (key : string) (st : Store) (z : gmap Z Z) :
  let W := Window (config rl) in
  let L := Limit (config rl) in
  let t := now env in
  let r := (slidingWindowCheck rl env key st).2 in
  net_first env = NetOk ->
  0 < W < 2 ^ 62 -> 0 <= L < 2 ^ 63 -> 0 <= t < 2 ^ 63 ->
  log t st key = Some z -> logged_before (t - W) z ->
  (slidingWindowCheck rl env key st).1 =
    <[key := {| value := VZSet {[ t := int_value t ]};
                expireAt := Some (t + formatSec (2 * W) * Second) |}]> st /\
  allowed r = (1 <=? L) /\ remaining r = Z.max 0 (L - 1) /\
  resetTime r = Unix (t + W) /\ err r = None.
Proof.
  intros W L t r Hnet HW HL Ht Hlog Hold. subst r.
  destruct (slidingWindowCheck_step rl env key st z Hnet HW Ht Hlog)
    as (r & Hstep & Hal & Hrem & Hreset & Herr).
  fold W L t in Hstep, Hal, Hrem, Hreset.
  assert (Hpurge : purge (int_value (t - W)) z = ∅).
  { apply map_empty. intros m. unfold purge.
    apply map_lookup_filter_None. right. intros sc Hm Hout. apply Hout.
    destruct (Hold m sc Hm) as [-> [Hm0 Hmt]].
    unfold in_score_range. cbn.
    pose proof (Float64Spec.int_value_mono 0 m Hm0) as H0.
    rewrite Float64Spec.int_value_0 in H0.
    pose proof (Float64Spec.int_value_mono m (t - W) Hmt). lia. }
  rewrite Hpurge, insert_empty in Hstep, Hal, Hrem.
  rewrite map_size_singleton in Hal, Hrem.
  rewrite Hstep. cbn [fst snd].
  split; [reflexivity|]. split; [exact Hal|]. split; [|auto].
  rewrite Hrem. cbv zeta.
  change (Z.of_nat 1) with 1.
  rewrite wrap64_id by (unfold int64_range; lia).
  destruct (Z.ltb_spec (L - 1) 0); lia.
Qed.

(** Limit 3 per 2 seconds; the three entries of the log are 2.5 seconds
    old. *)
Lemma sliding_window_recovers_witness :
  let rl := sample_limiter SlidingWindow 3 (2 * Second) in
  let env := env_at (T0 + 2500 * Millisecond) in
  let t := T0 + 2500 * Millisecond in
  let r := (slidingWindowCheck rl env "id" three_entries).2 in
  (slidingWindowCheck rl env "id" three_entries).1 =
    <[ "id"%string :=
         {| value := VZSet {[ t := int_value t ]};
            expireAt := Some (t + formatSec (2 * (2 * Second)) * Second) |}]>
      three_entries /\
  allowed r = (1 <=? 3) /\ remaining r = Z.max 0 (3 - 1) /\
  resetTime r = Unix (t + 2 * Second) /\ err r = None.
Proof.
  apply (sliding_window_recovers
           (sample_limiter SlidingWindow 3 (2 * Second))
           (env_at (T0 + 2500 * Millisecond)) "id" three_entries
           three_entries_log).
  - reflexivity.
  - vm_compute. split; reflexivity.
  - vm_compute. split; [discriminate | reflexivity].
  - vm_compute. split; [discriminate | reflexivity].
  - vm_compute. reflexivity.
  - unfold logged_before. apply (bool_decide_unpack _). vm_compute. exact I.
Defined.

End SlidingLimitSpec.

(** ** Two fixed-window checks at the same time *)

Module FixedConcurrentSpec.
Import Float64 GoTime Strconv Redis RateLimit Samples Concurrent Vocabulary.
Import RedisSpec SharedTerms.

Section TwoClients.
Variables ta tb ttl : Z.
Variable key : string.

(** The time the counter lives after [EXPIRE key ttl]. *)
Let life := formatSec ttl * Second.

Hypothesis ttl_pos : 0 < ttl.
Hypothesis clocks_close : ta < tb + life /\ tb < ta + life.

(** The counter holds [n] and neither client sees it expired. *)
Let holds (n : Z) (st : Store) : Prop :=
  exists e,
    st !! key = Some {| value := VInt n; expireAt := e |} /\
    match e with
    | None => True
    | Some t => ta < t /\ tb < t
    end.

Lemma holds_live n (st : Store) t :
  t = ta \/ t = tb -> holds n st ->
  exists e, live t st key = Some {| value := VInt n; expireAt := e |} /\
            st !! key = Some {| value := VInt n; expireAt := e |}.
Proof.
  intros Ht (e & Hst & He). exists e. split; [|exact Hst].
  unfold live. rewrite Hst. cbn [expireAt].
  destruct e as [t'|]; [|reflexivity].
  destruct (Z.leb_spec t' t); [lia | reflexivity].
Qed.

(** [INCR] by either client: the increment is never lost. *)
Lemma incr_step n (st : Store) t :
  t = ta \/ t = tb -> shared_counter ta tb st key n -> n < 2 ^ 63 - 1 ->
  exists st1,
    run t (Incr key) st = (st1, Res (RInt (n + 1))) /\ holds (n + 1) st1.
Proof.
  intros Ht [(-> & Ha & Hb)|Hh] Hn.
  - assert (Hl : live t st key = None) by (destruct Ht; subst; assumption).
    cbn [run]. rewrite Hl. eexists. split; [reflexivity|].
    exists None. rewrite lookup_insert_eq. split; [reflexivity | exact I].
  - destruct (holds_live n st t Ht Hh) as (e & Hl & Hst).
    cbn [run]. rewrite Hl. cbn [value expireAt].
    destruct (Z.eqb_spec n (2 ^ 63 - 1)); [lia|].
    eexists. split; [reflexivity|].
    exists e. rewrite lookup_insert_eq. split; [reflexivity|].
    destruct Hh as (e' & Hst' & He').
    assert (e' = e) by congruence. subst e'. exact He'.
Qed.

(** [EXPIRE] by either client, after its own [INCR]: the counter stays
    alive for both. *)
Lemma expire_step n (st : Store) t :
  t = ta \/ t = tb -> holds n st ->
  exists st1,
    run t (Expire key ttl) st = (st1, Res (RBool true)) /\ holds n st1.
Proof.
  intros Ht Hh.
  destruct (holds_live n st t Ht Hh) as (e & Hl & Hst).
  pose proof (formatSec_pos ttl ttl_pos) as Hsec.
  cbn [run]. rewrite Hl. cbn [value].
  destruct (Z.leb_spec (formatSec ttl) 0); [lia|].
  eexists. split; [reflexivity|].
  exists (Some (t + formatSec ttl * Second)). rewrite lookup_insert_eq.
  split; [reflexivity|]. unfold life in clocks_close.
  destruct Ht; subst; lia.
Qed.

Lemma holds_shared n st : holds n st -> shared_counter ta tb st key n.
Proof. intros H. right. exact H. Qed.

(** Symbolic execution of the next command of a schedule. *)
Ltac incr_first t Ht Hc :=
  match goal with
  | |- context [run t (Incr ?k) ?s] =>
      let st1 := fresh "st" in
      let Hr := fresh "Hr" in
      let Hh := fresh "Hh" in
      destruct (incr_step _ s t Ht Hc ltac:(lia)) as (st1 & Hr & Hh);
      rewrite Hr; cbn [run_schedule serve queued clock results app]
  end.
Ltac incr_next t Ht :=
  match goal with
  | Hh : holds ?n ?s |- context [run t (Incr ?k) ?s] =>
      let st1 := fresh "st" in
      let Hr := fresh "Hr" in
      let Hh' := fresh "Hh" in
      destruct (incr_step _ s t Ht (holds_shared _ _ Hh) ltac:(lia))
        as (st1 & Hr & Hh');
      rewrite Hr; cbn [run_schedule serve queued clock results app]
  end.
Ltac expire_next t Ht :=
  match goal with
  | Hh : holds ?n ?s |- context [run t (Expire ?k ?d) ?s] =>
      let st1 := fresh "st" in
      let Hr := fresh "Hr" in
      let Hh' := fresh "Hh" in
      destruct (expire_step _ s t Ht Hh) as (st1 & Hr & Hh');
      rewrite Hr; cbn [run_schedule serve queued clock results app]
  end.

(** The pipelines [INCR; EXPIRE] of the two clients, interleaved in any
    of the six ways: the counter goes up by two, and the clients read
    [c + 1] and [c + 2], one each. *)
Lemma two_pipelines (st : Store) c sched :
  shared_counter ta tb st key c -> c < 2 ^ 63 - 2 ->
  sched ∈ schedules 2 2 ->
  exists st' na nb,
    run_schedule sched
      (start ta [Incr key; Expire key ttl])
      (start tb [Incr key; Expire key ttl]) st =
    (st',
     {| clock := ta; queued := [];
        results := [Res (RInt na); Res (RBool true)] |},
     {| clock := tb; queued := [];
        results := [Res (RInt nb); Res (RBool true)] |}) /\
    shared_counter ta tb st' key (c + 2) /\
    (na = c + 1 /\ nb = c + 2 \/ na = c + 2 /\ nb = c + 1).
Proof.
  intros Hc Hn Hs.
  assert (Ha : ta = ta \/ ta = tb) by (left; reflexivity).
  assert (Hb : tb = ta \/ tb = tb) by (right; reflexivity).
  let l := eval vm_compute in (schedules 2 2) in
  change (schedules 2 2) with l in Hs.
  rewrite !elem_of_cons, elem_of_nil in Hs.
  unfold start.
  destruct Hs as [->|[->|[->|[->|[->|[->|[]]]]]]];
    cbn [run_schedule serve queued clock results app];
    first [incr_first ta Ha Hc | incr_first tb Hb Hc];
    repeat first [incr_next ta Ha | incr_next tb Hb
                 | expire_next ta Ha | expire_next tb Hb];
    do 3 eexists; (split; [reflexivity|]);
    (split; [apply holds_shared;
             match goal with
             | H : holds ?n ?s |- holds ?m ?s =>
                 replace m with n by lia; exact H
             end
            | lia]).
Qed.

End TwoClients.

Lemma Truncate_bounds t d : 0 < d -> Truncate t d <= t < Truncate t d + d.
Proof.
  intros Hd. unfold Truncate. destruct (Z.leb_spec d 0); [lia|].
  pose proof (Z.mod_pos_bound (t + unixToInternal * Second) d Hd). lia.
Qed.

(** What the check makes of the count [c + 1]. *)
Lemma fixedWindowResult_answer rl env B c :
  let W := Window (config rl) in
  let L := Limit (config rl) in
  0 <= L < 2 ^ 63 -> 0 <= c < 2 ^ 63 - 1 -> Truncate (now env) W = B ->
  fixedWindowResult rl env [Res (RInt (c + 1)); Res (RBool true)] None =
  answer L (wrap64 (Unix B + to_int64 (Seconds W))) c.
Proof.
  intros W L HL Hc HB. unfold fixedWindowResult, answer.
  fold W L. rewrite HB. cbn [cmd_at nth IntVal]. f_equal.
  rewrite wrap64_id by (unfold int64_range; lia).
  destruct (Z.ltb_spec (L - (c + 1)) 0); lia.
Qed.

(** X12.  Two fixed-window checks of one key, made at the same time in
    the same bucket over a working network.  However the store
    interleaves the commands of their pipelines, the counter goes up by
    two and one check answers from the count [c + 1], the other from
    [c + 2], as if one had come after the other: no increment is lost. *)
Theorem fixed_window_no_lost_update (rl : RateLimiter) (key : string)
    (envA envB : Env) (st : Store) (c B : Z) (sched : list Who) :
  let W := Window (config rl) in
  let L := Limit (config rl) in
  let bucketKey := windowKey key (Unix B) in
  let resetAt := wrap64 (Unix B + to_int64 (Seconds W)) in
  let out :=
    two_checks fixedWindowCmds fixedWindowResult rl envA envB key sched st in
  0 < W < 2 ^ 62 -> 0 <= L < 2 ^ 63 -> 0 <= c < 2 ^ 63 - 2 ->
  Truncate (now envA) W = B -> Truncate (now envB) W = B ->
  shared_counter (now envA) (now envB) st bucketKey c ->
  sched ∈ schedules 2 2 ->
  shared_counter (now envA) (now envB) out.1.1 bucketKey (c + 2) /\
  (out.1.2 = answer L resetAt c /\ out.2 = answer L resetAt (c + 1) \/
   out.1.2 = answer L resetAt (c + 1) /\ out.2 = answer L resetAt c).
Proof.
  intros W L bucketKey resetAt out HW HL Hc HA HB Hst Hs. subst out.
  pose proof (Truncate_bounds (now envA) W ltac:(lia)) as HtA.
  pose proof (Truncate_bounds (now envB) W ltac:(lia)) as HtB.
  fold W in HA, HB. rewrite HA in HtA. rewrite HB in HtB.
  pose proof (formatSec_twice W ltac:(lia)) as [Httl _].
  replace (2 * W) with (W * 2) in Httl by lia.
  destruct (two_pipelines (now envA) (now envB) (wrap64 (W * 2)) bucketKey
              ltac:(rewrite wrap64_id by (unfold int64_range; lia); lia)
              ltac:(rewrite wrap64_id by (unfold int64_range; lia); lia)
              st c sched Hst ltac:(lia) Hs)
    as (st' & na & nb & Hrun & Hfin & Hcounts).
  unfold two_checks, fixedWindowCmds. fold W. rewrite HA, HB.
  fold bucketKey. rewrite Hrun. cbn [fst snd results first_error].
  split; [exact Hfin|].
  destruct Hcounts as [[-> ->]|[-> ->]]; [left | right]; split.
  all: try replace (c + 2) with (c + 1 + 1) by lia.
  all: apply fixedWindowResult_answer; first [assumption | lia].
Qed.

(** Limit 5 per minute: the counter of the bucket holds 3; checks at [T0]
    and one microsecond later, B's [INCR] between A's [INCR] and A's
    [EXPIRE]. *)
Lemma fixed_window_no_lost_update_witness :
  let rl := sample_limiter FixedWindow 5 (60 * Second) in
  let envA := env_at T0 in
  let envB := env_at (T0 + 1000) in
  let bucket := Truncate T0 (60 * Second) in
  let bucketKey := windowKey "id" (Unix bucket) in
  let st : Store :=
    {[ bucketKey := {| value := VInt 3;
                       expireAt := Some (bucket + 120 * Second) |} ]} in
  let resetAt := wrap64 (Unix bucket + to_int64 (Seconds (60 * Second))) in
  let out :=
    two_checks fixedWindowCmds fixedWindowResult rl envA envB "id"
      [A; B; A; B] st in
  shared_counter (now envA) (now envB) out.1.1 bucketKey (3 + 2) /\
  (out.1.2 = answer 5 resetAt 3 /\ out.2 = answer 5 resetAt (3 + 1) \/
   out.1.2 = answer 5 resetAt (3 + 1) /\ out.2 = answer 5 resetAt 3).
Proof.
  apply (fixed_window_no_lost_update
           (sample_limiter FixedWindow 5 (60 * Second)) "id"
           (env_at T0) (env_at (T0 + 1000))).
  - vm_compute. split; reflexivity.
  - vm_compute. split; [discriminate | reflexivity].
  - lia.
  - reflexivity.
  - vm_compute. reflexivity.
  - right. eexists. split; [vm_compute; reflexivity|].
    vm_compute. split; reflexivity.
  - let l := eval vm_compute in (schedules 2 2) in
    change (schedules 2 2) with l.
    rewrite !elem_of_cons. right. left. reflexivity.
Defined.

End FixedConcurrentSpec.

(** ** The Resolution Cache *)

Module CacheSpec.
Import GoTime Redis Samples RedisSpec.

Local Arguments String.append !_ _ / : simpl nomatch.

Lemma prefix_inj (a b : string) :
  Service.ShortCodePrefix +:+ a = Service.ShortCodePrefix +:+ b -> a = b.
Proof. simpl. intros H. injection H. auto. Qed.

(** The default time to live is a whole number of seconds: it is sent
    with [EX] and kept as it is. *)
Lemma set_expiry_DefaultTTL now old :
  set_expiry now Service.DefaultTTL old = Some (now + 24 * 3600 * Second).
Proof. reflexivity. Qed.

(** X13.  The round trip of the cache and its time to live.  After
    [Set] on a working connection, [Get] of the same short code answers
    the stored URL, without error, at every instant less than 24 hours
    later, and a miss (the empty string, no error) from then on. *)
Theorem cache_set_get (now t : Z) (shortCode originalURL : string)
    (st : Store) :
  let st' := (Cache.Set_ now NetOk shortCode originalURL st).1 in
  (Cache.Set_ now NetOk shortCode originalURL st).2 = None /\
  Cache.Get t NetOk shortCode st' =
    (st', (if t <? now + 24 * 3600 * Second then originalURL
           else EmptyString, None)).
Proof.
  unfold Cache.Set_, Cache.SetWithTTL, Cache.Get, Exec, run_all.
  cbn [run fst snd cmd_at nth Err first_error].
  rewrite set_expiry_DefaultTTL.
  split; [reflexivity|].
  rewrite live_insert; cbn [expireAt value].
  destruct (Z.leb_spec (now + 24 * 3600 * Second) t);
    destruct (Z.ltb_spec t (now + 24 * 3600 * Second));
    first [lia | reflexivity].
Qed.

(** A [GET] reads: however often it is sent, the store is the one it
    started from, and the replies depend on the entry of the key only. *)
Lemma Exec_Get_store now net key (st : Store) :
  (Exec now net [Redis.Get key] st).1.1 = st.
Proof.
  assert (Hst : (run_all now [Redis.Get key] st).1 = st).
  { cbn [run_all run].
    destruct (live now st key) as [e|]; [destruct (value e)|];
      reflexivity. }
  induction net as [| |n|net IH]; cbn [Exec].
  - destruct (run_all now [Redis.Get key] st) as [s1 r1]. exact Hst.
  - reflexivity.
  - destruct (run_all now [Redis.Get key] st) as [s1 r1]. exact Hst.
  - rewrite Hst. exact IH.
Qed.

Lemma Exec_Get_entry now net key (st1 st2 : Store) :
  st1 !! key = st2 !! key ->
  (Exec now net [Redis.Get key] st1).1.2 =
  (Exec now net [Redis.Get key] st2).1.2.
Proof.
  intros Heq.
  assert (Hrun : forall st : Store,
            (run_all now [Redis.Get key] st).1 = st).
  { intros st. cbn [run_all run].
    destruct (live now st key) as [e|]; [destruct (value e)|]; reflexivity. }
  assert (Hres : (run_all now [Redis.Get key] st1).2 =
                 (run_all now [Redis.Get key] st2).2).
  { cbn [run_all run]. unfold live. rewrite Heq.
    destruct (st2 !! key) as [e|]; [|reflexivity].
    destruct (expireAt e) as [t'|]; [destruct (t' <=? now)|];
      try reflexivity; destruct (value e); reflexivity. }
  induction net as [| |n|net IH]; cbn [Exec].
  - pose proof (Hrun st1). pose proof (Hrun st2).
    destruct (run_all now [Redis.Get key] st1) as [s1 r1].
    destruct (run_all now [Redis.Get key] st2) as [s2 r2].
    cbn [fst snd] in *. congruence.
  - reflexivity.
  - pose proof (Hrun st1). pose proof (Hrun st2).
    destruct (run_all now [Redis.Get key] st1) as [s1 r1].
    destruct (run_all now [Redis.Get key] st2) as [s2 r2].
    cbn [fst snd] in *. congruence.
  - rewrite !Hrun. exact IH.
Qed.

(** What [RedisCache.Get] answers depends on the entry of its key
    only. *)
Lemma Cache_Get_entry now net shortCode (st1 st2 : Store) :
  st1 !! (Service.ShortCodePrefix +:+ shortCode) =
  st2 !! (Service.ShortCodePrefix +:+ shortCode) ->
  (Cache.Get now net shortCode st1).2 = (Cache.Get now net shortCode st2).2.
Proof.
  intros Heq. unfold Cache.Get.
  pose proof (Exec_Get_entry now net _ st1 st2 Heq) as Hres.
  destruct (Exec now net _ st1) as [[s1 r1] e1].
  destruct (Exec now net _ st2) as [[s2 r2] e2].
  cbn [fst snd] in *. now subst r2.
Qed.

(** [DEL] changes the entry of its key only. *)
Lemma Del_frame now net key (st : Store) k :
  k <> key -> (Cache.Del now net key st).1 !! k = st !! k.
Proof.
  intros Hk. revert st.
  induction net as [| |[|n]|net IH]; intros st; cbn [Cache.Del fst];
    rewrite ?IH, ?lookup_delete_ne by congruence; reflexivity.
Qed.

(** X14.  [Set] and [Delete] act on one short code.  After [Delete] on
    a working connection, [Get] of the short code is a miss; and neither
    [Set] nor [Delete] changes what [Get] answers for any other short
    code, whatever the connection does. *)
Theorem cache_one_short_code (now t : Z) (net net' : Net)
    (shortCode other originalURL : string) (st : Store) :
  other <> shortCode ->
  Cache.Get t NetOk shortCode (Cache.Delete now NetOk shortCode st).1 =
    ((Cache.Delete now NetOk shortCode st).1, (EmptyString, None)) /\
  (Cache.Get t net' other (Cache.Delete now net shortCode st).1).2 =
    (Cache.Get t net' other st).2 /\
  (Cache.Get t net' other (Cache.Set_ now net shortCode originalURL st).1).2 =
    (Cache.Get t net' other st).2.
Proof.
  intros Hne.
  assert (Hk : Service.ShortCodePrefix +:+ shortCode <>
               Service.ShortCodePrefix +:+ other).
  { intros H. apply prefix_inj in H. congruence. }
  split; [|split].
  - unfold Cache.Delete, Cache.Del, Cache.Get, Exec, run_all.
    cbn [run fst snd]. rewrite live_delete. reflexivity.
  - apply Cache_Get_entry. unfold Cache.Delete.
    pose proof (Del_frame now net (Service.ShortCodePrefix +:+ shortCode) st
                  (Service.ShortCodePrefix +:+ other) ltac:(congruence))
      as Hf.
    destruct (Cache.Del now net _ st) as [st' r]. exact Hf.
  - apply Cache_Get_entry. unfold Cache.Set_, Cache.SetWithTTL.
    pose proof (LimiterFrameSpec.Exec_frame now net
                  [Redis.Set_ (Service.ShortCodePrefix +:+ shortCode)
                     (VStr originalURL) Service.DefaultTTL] st
                  (Service.ShortCodePrefix +:+ other)
                  ltac:(repeat constructor; cbn; congruence)) as Hf.
    destruct (Exec now net _ st) as [[st' rs] e]. exact Hf.
Qed.

Lemma cache_one_short_code_witness :
  Cache.Get T0 NetOk "abc" (Cache.Delete T0 NetOk "abc" ∅).1 =
    ((Cache.Delete T0 NetOk "abc" ∅).1, (EmptyString, None)) /\
  (Cache.Get T0 NetOk "xyz" (Cache.Delete T0 NetDown "abc" ∅).1).2 =
    (Cache.Get T0 NetOk "xyz" ∅).2 /\
  (Cache.Get T0 NetOk "xyz"
     (Cache.Set_ T0 NetDown "abc" "https://example.org/" ∅).1).2 =
    (Cache.Get T0 NetOk "xyz" ∅).2.
Proof.
  apply (cache_one_short_code T0 T0 NetDown NetOk "abc" "xyz"
           "https://example.org/" ∅).
  discriminate.
Defined.

End CacheSpec.

(** ** The existence filter: batches and clearing *)

Module FilterMoreSpec.
Import Filter Samples.

(** X15.  [AddBatch] leaves the filter that [Add] leaves when it is
    called for each short code of the batch in turn; a batch in two
    parts is two batches, and an empty batch changes nothing. *)
Theorem add_batch_is_adds (bf : BloomFilter) (codes more : list string) :
  AddBatch bf codes = fold_left Add codes bf /\
  AddBatch bf (codes ++ more) = AddBatch (AddBatch bf codes) more /\
  AddBatch bf [] = bf.
Proof.
  assert (Hfold : forall cs b, AddBatch b cs = fold_left Add cs b).
  { induction cs as [|c cs IH]; intros [f]; [reflexivity|].
    cbn [fold_left]. rewrite <- IH. reflexivity. }
  split; [apply Hfold|]. split.
  - rewrite !Hfold. apply fold_left_app.
  - destruct bf. reflexivity.
Qed.

(** [Clear] and the methods before it keep the hash functions. *)
Lemma run_k ops : forall bf,
  bloom.k (filter (run bf ops)) = bloom.k (filter bf).
Proof.
  unfold run.
  induction ops as [|op ops IH]; intros bf; [reflexivity|].
  cbn [fold_left]. rewrite IH.
  destruct op as [c|cs|c|]; cbn; try reflexivity.
  revert bf. induction cs as [|c cs IHc]; intros bf; [reflexivity|].
  cbn. destruct bf as [f]. cbn.
  specialize (IHc {| filter := bloom.AddString f c |}). cbn in IHc.
  exact IHc.
Qed.

(** X16.  A filter with at least one hash function that has just been
    cleared, whatever was added to it before, reports every short code
    as absent. *)
Theorem cleared_filter_is_empty (bf : BloomFilter) (ops : list Op)
    (shortCode : string) :
  (0 < bloom.k (filter bf))%nat ->
  Test (Clear (run bf ops)) shortCode = false.
Proof.
  intros Hk. rewrite <- (run_k ops bf) in Hk.
  unfold Test, Clear, bloom.TestString, bloom.locations.
  cbn [filter bloom.ClearAll bloom.k bloom.b].
  destruct (bloom.k (filter (run bf ops))) as [|k]; [lia|].
  cbn [seq map forallb].
  rewrite bool_decide_eq_false_2 by apply not_elem_of_empty.
  reflexivity.
Qed.

Lemma cleared_filter_is_empty_witness :
  Test (Clear (run sample_filter [OpAdd "abc"; OpAddBatch ["x"; "y"]]))
       "abc" = false.
Proof.
  apply (cleared_filter_is_empty sample_filter
           [OpAdd "abc"; OpAddBatch ["x"; "y"]] "abc").
  vm_compute. lia.
Defined.

End FilterMoreSpec.

(** ** internal/model/url.go *)

Module ModelSpec.
Import Service.

(** A mapping that is active at some instant was active at every
    earlier instant: a mapping that has expired never becomes active
    again by the passing of time. *)
Lemma IsActive_antitone (u : URLMapping) (now later : Z) :
  now <= later -> IsActive u later = true -> IsActive u now = true.
Proof.
  unfold IsActive, IsExpired. intros Hle Hact.
  apply andb_true_iff in Hact as [Hs Hexp]. rewrite Hs.
  destruct (ExpiredAt u) as [t|]; [|reflexivity].
  apply negb_true_iff, Z.ltb_ge in Hexp.
  destruct (Z.ltb_spec t now); [lia | reflexivity].
Qed.

End ModelSpec.

(** ** The resolution cascade past the filter *)

Module ResolutionSpec.
Import GoTime Redis Service Samples RedisSpec ResolutionTerms.

Local Arguments String.append !_ _ / : simpl nomatch.

(** The calls of the service to the cache are those of
    internal/cache/redis.go, with the access recorded. *)
Lemma cache_Get_run env shortCode s :
  cache_Get env shortCode s =
  let '(st', (v, e)) :=
    Cache.Get (now env) (cache_get_net env) shortCode (cache s) in
  ((v, option_map ErrCache e), after s st' [CacheGet shortCode]).
Proof.
  unfold cache_Get, Cache.Get, record, after, mbind, M_bind. cbn.
  destruct (Exec _ _ _ _) as [[st' rs] err].
  destruct (Err (cmd_at rs 0)) as [[]|]; reflexivity.
Qed.

Lemma cache_Set_run env shortCode originalURL s :
  cache_Set env shortCode originalURL s =
  let '(st', e) :=
    Cache.Set_ (now env) (cache_set_net env) shortCode originalURL
      (cache s) in
  (option_map ErrCache e, after s st' [CacheSet shortCode originalURL]).
Proof.
  unfold cache_Set, Cache.Set_, Cache.SetWithTTL, record, after, mbind,
    M_bind. cbn.
  destruct (Exec _ _ _ _) as [[st' rs] err].
  destruct (Err (cmd_at rs 0)); reflexivity.
Qed.

(** [Get] reads: the store is the one it started from. *)
Lemma Cache_Get_store now net shortCode (st : Store) :
  (Cache.Get now net shortCode st).1 = st.
Proof.
  unfold Cache.Get.
  pose proof (CacheSpec.Exec_Get_store now net
                (ShortCodePrefix +:+ shortCode) st) as Hst.
  destruct (Exec now net _ st) as [[st' rs] e]. exact Hst.
Qed.

Lemma Cache_Get_cached now shortCode u (st : Store) :
  cached now st shortCode u ->
  Cache.Get now NetOk shortCode st = (st, (u, None)).
Proof.
  intros (e & Hl & Hv). unfold Cache.Get, Exec, run_all. cbn [run].
  rewrite Hl, Hv. reflexivity.
Qed.

Lemma Cache_Get_fails now net shortCode (st : Store) :
  cache_fails net ->
  Cache.Get now net shortCode st = (st, (EmptyString, Some Transport)).
Proof.
  assert (Hst : (run_all now [Get (ShortCodePrefix +:+ shortCode)] st).1 = st).
  { cbn [run_all run].
    destruct (live now st _) as [e|]; [destruct (value e)|]; reflexivity. }
  unfold Cache.Get.
  induction net as [| |n|net IH]; cbn [cache_fails Exec];
    [contradiction | reflexivity | intros -> | rewrite Hst; exact IH].
  cbn [run_all run].
  destruct (live now st _) as [e|]; [destruct (value e)|]; reflexivity.
Qed.

Section WithCollation.
Context `{C : Collation}.

(** X17.  A hit in the cache ends the resolution: when the filter lets
    the short code through and the cache holds a URL for it, that URL is
    returned, the only access is the read of the cache, and the durable
    store is not asked: the answer is the same whether the mapping is
    still there, still active, or the store reachable at all. *)
Theorem cache_hit_skips_repository (env : Env) (shortCode u : string)
    (s : State) :
  Filter.Test (bloom s) shortCode = true ->
  cache_get_net env = NetOk ->
  cached (now env) (cache s) shortCode u -> u <> EmptyString ->
  GetOriginalURL env shortCode s =
    ((u, None), after s (cache s) [CacheGet shortCode]).
Proof.
  intros Hf Hnet Hc Hu. unfold GetOriginalURL. rewrite Hf. cbn [negb].
  unfold mbind, M_bind at 1. rewrite cache_Get_run, Hnet.
  rewrite (Cache_Get_cached _ _ _ _ Hc). cbn [fst snd option_map].
  destruct (String.eqb_spec u EmptyString); [contradiction|]. reflexivity.
Qed.

(** The cascade past the filter, step by step. *)
Lemma GetOriginalURL_past_filter env shortCode s :
  Filter.Test (bloom s) shortCode = true ->
  GetOriginalURL env shortCode s =
  let v := (Cache.Get (now env) (cache_get_net env) shortCode (cache s)).2.1 in
  let read := [CacheGet shortCode; RepoGetByShortCode shortCode] in
  if negb (String.eqb v EmptyString) then
    ((v, None), after s (cache s) [CacheGet shortCode])
  else if negb (repo_up env) then
    ((EmptyString, Some ErrRepo), after s (cache s) read)
  else
    match repo s !! sort_key shortCode with
    | None => ((EmptyString, Some ErrNotFound), after s (cache s) read)
    | Some mapping =>
        if negb (IsActive mapping (now env)) then
          ((EmptyString, Some ErrInactive), after s (cache s) read)
        else
          ((OriginalURL mapping, None),
           after s
             (Cache.Set_ (now env) (cache_set_net env) shortCode
                (OriginalURL mapping) (cache s)).1
             (read ++ [CacheSet shortCode (OriginalURL mapping)]))
    end.
Proof.
  intros Hf. unfold GetOriginalURL. rewrite Hf. cbn [negb].
  unfold mbind, M_bind at 1. rewrite cache_Get_run.
  pose proof (Cache_Get_store (now env) (cache_get_net env) shortCode
                (cache s)) as Hst.
  destruct (Cache.Get _ _ _ _) as [st' [v e]]. cbn [fst snd] in *. subst st'.
  destruct (negb (String.eqb v EmptyString)); [reflexivity|].
  unfold repo_GetByShortCode, record, mbind, M_bind, mret, M_ret, after.
  cbn. rewrite <- !app_assoc. cbn [app].
  destruct (repo_up env); cbn [negb]; [|reflexivity].
  destruct (repo s !! sort_key shortCode) as [mapping|]; [|reflexivity].
  destruct (negb (IsActive mapping (now env))); [reflexivity|].
  pose proof (cache_Set_run env shortCode (OriginalURL mapping)
                {| bloom := bloom s; cache := cache s; repo := repo s;
                   accesses := accesses s ++
                     [CacheGet shortCode; RepoGetByShortCode shortCode] |})
    as Hset.
  cbn [cache] in Hset. rewrite Hset.
  destruct (Cache.Set_ _ _ _ _ _) as [st2 e2]. unfold after.
  cbn. now rewrite <- !app_assoc.
Qed.

Lemma Cache_Get_miss now shortCode (st : Store) :
  live now st (ShortCodePrefix +:+ shortCode) = None ->
  Cache.Get now NetOk shortCode st = (st, (EmptyString, None)).
Proof.
  intros Hl. unfold Cache.Get, Exec, run_all. cbn [run].
  rewrite Hl. reflexivity.
Qed.

Lemma Cache_Set_cached now later shortCode u (st : Store) :
  later < now + 24 * 3600 * Second ->
  cached later (Cache.Set_ now NetOk shortCode u st).1 shortCode u.
Proof.
  intros Hsoon. unfold cached, Cache.Set_, Cache.SetWithTTL, Exec, run_all.
  cbn [run fst]. rewrite live_insert. cbn [expireAt value].
  rewrite CacheSpec.set_expiry_DefaultTTL.
  destruct (Z.leb_spec (now + 24 * 3600 * Second) later); [lia|].
  eexists. split; reflexivity.
Qed.

(** X18.  Read-through.  A short code that the filter lets through and
    the cache does not hold is resolved from the durable store, and the
    URL is written to the cache; the next resolution within 24 hours is
    answered from the cache with one access, the read of the cache, and
    does not depend on the durable store any more. *)
Theorem resolution_fills_cache (env next : Env) (shortCode : string)
    (s : State) (mapping : URLMapping) :
  let url := OriginalURL mapping in
  let s1 := (GetOriginalURL env shortCode s).2 in
  Filter.Test (bloom s) shortCode = true ->
  cache_get_net env = NetOk -> cache_set_net env = NetOk ->
  live (now env) (cache s) (ShortCodePrefix +:+ shortCode) = None ->
  repo_up env = true -> repo s !! sort_key shortCode = Some mapping ->
  IsActive mapping (now env) = true -> url <> EmptyString ->
  cache_get_net next = NetOk -> now next < now env + 24 * 3600 * Second ->
  (GetOriginalURL env shortCode s).1 = (url, None) /\
  accesses s1 =
    accesses s ++ [CacheGet shortCode; RepoGetByShortCode shortCode;
                   CacheSet shortCode url] /\
  GetOriginalURL next shortCode s1 =
    ((url, None), after s1 (cache s1) [CacheGet shortCode]).
Proof.
  intros url s1 Hf Hget Hset Hmiss Hup Hrepo Hact Hurl Hget' Hsoon.
  subst s1. rewrite (GetOriginalURL_past_filter env shortCode s Hf).
  rewrite Hget, (Cache_Get_miss _ _ _ Hmiss), Hup, Hrepo, Hact, Hset.
  cbn [fst snd negb String.eqb]. fold url.
  split; [reflexivity|]. split; [reflexivity|].
  rewrite GetOriginalURL_past_filter by exact Hf.
  cbn [cache after]. rewrite Hget'.
  rewrite (Cache_Get_cached _ _ url _
             (Cache_Set_cached _ _ _ _ _ Hsoon)).
  cbn [fst snd]. destruct (String.eqb_spec url EmptyString); [contradiction|].
  reflexivity.
Qed.

(** X19.  An outage of the cache does not fail a resolution.  When the
    read of the cache fails, the short code is resolved from the durable
    store as on a miss, and the result does not depend on whether the
    write to the cache succeeds. *)
Theorem cache_outage_tolerated (env : Env) (shortCode : string) (s : State)
    (mapping : URLMapping) :
  Filter.Test (bloom s) shortCode = true ->
  cache_fails (cache_get_net env) ->
  repo_up env = true -> repo s !! sort_key shortCode = Some mapping ->
  IsActive mapping (now env) = true ->
  (GetOriginalURL env shortCode s).1 = (OriginalURL mapping, None).
Proof.
  intros Hf Hfail Hup Hrepo Hact.
  rewrite (GetOriginalURL_past_filter env shortCode s Hf).
  rewrite (Cache_Get_fails _ _ _ _ Hfail), Hup, Hrepo, Hact.
  reflexivity.
Qed.

(** X20.  What a resolution never does.  [GetOriginalURL] leaves the
    filter and the durable store as they were; and it leaves the cache
    as it was unless it found an active mapping in the durable store,
    in which case the only write is [Set] of that mapping's URL under
    the short code asked for: a mapping that is missing, disabled or
    expired is never put into the cache. *)
Theorem resolution_writes_active_only (env : Env) (shortCode : string)
    (s : State) :
  let r := (GetOriginalURL env shortCode s).1 in
  let s' := (GetOriginalURL env shortCode s).2 in
  bloom s' = bloom s /\ repo s' = repo s /\
  (cache s' = cache s \/
   exists mapping,
     repo s !! sort_key shortCode = Some mapping /\
     IsActive mapping (now env) = true /\
     r = (OriginalURL mapping, None) /\
     cache s' =
       (Cache.Set_ (now env) (cache_set_net env) shortCode
          (OriginalURL mapping) (cache s)).1).
Proof.
  cbv zeta.
  destruct (Filter.Test (bloom s) shortCode) eqn:Hf.
  - rewrite (GetOriginalURL_past_filter env shortCode s Hf). cbv zeta.
    destruct (negb (String.eqb _ EmptyString)); [cbn; auto|].
    destruct (negb (repo_up env)); [cbn; auto|].
    destruct (repo s !! sort_key shortCode) as [mapping|]; [|cbn; auto].
    destruct (IsActive mapping (now env)) eqn:Hact; cbn [negb]; [|cbn; auto].
    cbn [fst snd after bloom repo cache].
    split; [reflexivity|]. split; [reflexivity|].
    right. exists mapping. auto.
  - unfold GetOriginalURL. rewrite Hf. cbn. auto.
Qed.

(** X21.  A mapping that has expired or was disabled stays refused and
    stays visible.  From the instant a mapping of the durable store is
    not active, every resolution of its short code that misses the cache
    is answered "short code is expired or disabled" and writes nothing
    to the cache, at that instant and at any later one; [GetURLInfo],
    which looks at neither the filter, the cache nor the state of the
    mapping, keeps returning the row. *)
Theorem inactive_mapping_info_only (env : Env) (shortCode : string)
    (s : State) (mapping : URLMapping) (since : Z) :
  IsActive mapping since = false -> since <= now env ->
  Filter.Test (bloom s) shortCode = true ->
  cache_get_net env = NetOk ->
  live (now env) (cache s) (ShortCodePrefix +:+ shortCode) = None ->
  repo_up env = true -> repo s !! sort_key shortCode = Some mapping ->
  (GetOriginalURL env shortCode s).1 = (EmptyString, Some ErrInactive) /\
  cache (GetOriginalURL env shortCode s).2 = cache s /\
  (UrlService.GetURLInfo env shortCode s).1 =
    (Some mapping, @None UrlService.Error).
Proof.
  intros Hin Hle Hf Hnet Hmiss Hup Hrepo.
  assert (Hnow : IsActive mapping (now env) = false).
  { destruct (IsActive mapping (now env)) eqn:Hact; [|reflexivity].
    rewrite (ModelSpec.IsActive_antitone _ _ _ Hle Hact) in Hin.
    discriminate. }
  rewrite (GetOriginalURL_past_filter env shortCode s Hf).
  rewrite Hnet, (Cache_Get_miss _ _ _ Hmiss), Hup, Hrepo, Hnow.
  cbn [fst snd negb String.eqb after cache].
  split; [reflexivity|]. split; [reflexivity|].
  unfold UrlService.GetURLInfo, repo_GetByShortCode, record, mbind, M_bind,
    mret, M_ret.
  cbn. rewrite Hup, Hrepo. reflexivity.
Qed.

End WithCollation.

Local Existing Instance folding.

Lemma inactive_mapping_info_only_witness :
  let s := after ReuseSamples.two_rows ∅ [] in
  let mapping :=
    {| ID := 1; ShortCode := "old"; OriginalURL := "https://example.org/";
       CreatedAt := 0; ExpiredAt := Some (T0 - Second); VisitCount := 0;
       Status := 1 |} in
  let env := {| now := T0 + Second; cache_get_net := NetOk;
                cache_set_net := NetOk; repo_up := true |} in
  (GetOriginalURL env "old" s).1 = (EmptyString, Some ErrInactive) /\
  cache (GetOriginalURL env "old" s).2 = cache s /\
  (UrlService.GetURLInfo env "old" s).1 =
    (Some mapping, @None UrlService.Error).
Proof.
  apply (inactive_mapping_info_only _ "old" _ _ T0);
    first [reflexivity | (vm_compute; discriminate)].
Defined.

Lemma cache_hit_skips_repository_witness :
  let s := after sample_state
             (Cache.Set_ T0 NetOk "abc" "https://old.example/" ∅).1 [] in
  let env := {| now := T0 + Second; cache_get_net := NetOk;
                cache_set_net := NetDown; repo_up := false |} in
  GetOriginalURL env "abc" s =
    (("https://old.example/"%string, None),
     after s (cache s) [CacheGet "abc"]).
Proof.
  apply (cache_hit_skips_repository _ "abc" "https://old.example/").
  - vm_compute. reflexivity.
  - reflexivity.
  - eexists. split; vm_compute; reflexivity.
  - discriminate.
Defined.

Lemma resolution_fills_cache_witness :
  let mapping :=
    {| ID := 1; ShortCode := "abc"; OriginalURL := "https://example.org/";
       CreatedAt := 0; ExpiredAt := None; VisitCount := 0; Status := 1 |} in
  let next := {| now := T0 + 3600 * Second; cache_get_net := NetOk;
                 cache_set_net := NetDown; repo_up := false |} in
  let s1 := (GetOriginalURL sample_env "abc" sample_state).2 in
  (GetOriginalURL sample_env "abc" sample_state).1 =
    (OriginalURL mapping, None) /\
  accesses s1 =
    accesses sample_state ++
    [CacheGet "abc"; RepoGetByShortCode "abc";
     CacheSet "abc" (OriginalURL mapping)] /\
  GetOriginalURL next "abc" s1 =
    ((OriginalURL mapping, None), after s1 (cache s1) [CacheGet "abc"]).
Proof.
  apply (resolution_fills_cache sample_env
           {| now := T0 + 3600 * Second; cache_get_net := NetOk;
              cache_set_net := NetDown; repo_up := false |}
           "abc" sample_state
           {| ID := 1; ShortCode := "abc";
              OriginalURL := "https://example.org/";
              CreatedAt := 0; ExpiredAt := None; VisitCount := 0;
              Status := 1 |});
    first [reflexivity | discriminate].
Defined.

Lemma cache_outage_tolerated_witness :
  (GetOriginalURL
     {| now := T0; cache_get_net := NetDown; cache_set_net := NetDown;
        repo_up := true |} "abc" sample_state).1 =
  ("https://example.org/"%string, None).
Proof.
  apply (cache_outage_tolerated
           {| now := T0; cache_get_net := NetDown; cache_set_net := NetDown;
              repo_up := true |} "abc" sample_state
           {| ID := 1; ShortCode := "abc";
              OriginalURL := "https://example.org/";
              CreatedAt := 0; ExpiredAt := None; VisitCount := 0;
              Status := 1 |}).
  - vm_compute. reflexivity.
  - vm_compute. exact I.
  - reflexivity.
  - reflexivity.
  - reflexivity.
Defined.

End ResolutionSpec.

(** ** Creation and resolution: the service as a whole *)

Module UrlServiceSpec.
Import GoTime Redis Service UrlService Samples RedisSpec.
Import ResolutionTerms ServiceTerms ResolutionSpec ServiceSamples.

Local Arguments String.append !_ _ / : simpl nomatch.

Lemma same_data_refl s : same_data s s.
Proof. repeat split. Qed.

Lemma same_data_trans s1 s2 s3 :
  same_data s1 s2 -> same_data s2 s3 -> same_data s1 s3.
Proof. unfold same_data. intuition congruence. Qed.


(** What [Get] answers, when it is not the empty string, is in the
    store. *)
Lemma Cache_Get_value now net shortCode (st : Store) :
  let v := (Cache.Get now net shortCode st).2.1 in
  v <> EmptyString ->
  exists e, st !! (ShortCodePrefix +:+ shortCode) = Some e /\
            (forall u, value e = VStr u -> u = v).
Proof.
  cbv zeta.
  assert (Hst : (run_all now [Get (ShortCodePrefix +:+ shortCode)] st).1 = st).
  { cbn [run_all run].
    destruct (live now st _) as [e|]; [destruct (value e)|]; reflexivity. }
  unfold Cache.Get.
  induction net as [| |n|net IH]; cbn [Exec];
    [| | |rewrite Hst; exact IH];
    unfold run_all, lose_from; cbn [run]; unfold live;
    (destruct (st !! (ShortCodePrefix +:+ shortCode)) as [e|] eqn:He;
     [intros Hv; exists e; split; [reflexivity|]; intros u Hu;
      destruct (expireAt e) as [t|]; [destruct (t <=? now)|];
      rewrite ?Hu in Hv |- *;
      try destruct n as [|n]; cbn in Hv |- *; congruence
     |try destruct n as [|n]; cbn; congruence]).
Qed.

(** A write of the cache changes the entry of its short code, if any. *)
Lemma Cache_Set_other now net shortCode u (st : Store) code :
  code <> shortCode ->
  (Cache.Set_ now net shortCode u st).1 !! (ShortCodePrefix +:+ code) =
  st !! (ShortCodePrefix +:+ code).
Proof.
  intros Hne.
  assert (Hkey : ShortCodePrefix +:+ shortCode <> ShortCodePrefix +:+ code).
  { intros H. apply CacheSpec.prefix_inj in H. congruence. }
  unfold Cache.Set_, Cache.SetWithTTL.
  pose proof (LimiterFrameSpec.Exec_frame now net
                [Set_ (ShortCodePrefix +:+ shortCode) (VStr u) DefaultTTL]
                st (ShortCodePrefix +:+ code)
                ltac:(repeat constructor; cbn; congruence)) as Hf.
  destruct (Exec now net _ st) as [[st' rs] e]. exact Hf.
Qed.

Lemma Cache_Set_same now net shortCode u (st : Store) e :
  (Cache.Set_ now net shortCode u st).1 !! (ShortCodePrefix +:+ shortCode) =
    Some e ->
  value e = VStr u \/ st !! (ShortCodePrefix +:+ shortCode) = Some e.
Proof.
  unfold Cache.Set_, Cache.SetWithTTL. revert st.
  induction net as [| |n|net IH]; intros st; cbn [Exec run_all run fst];
    rewrite ?lookup_insert_eq.
  - intros [= <-]. now left.
  - now right.
  - intros [= <-]. now left.
  - intros He. apply IH in He as [Hv|He]; [now left|].
    rewrite lookup_insert_eq in He. injection He as <-. now left.
Qed.

Section WithCollation.
Context `{C : Collation}.

Lemma same_data_consistent s s' :
  same_data s s' -> consistent s -> consistent s'.
Proof.
  intros (Hb & Hc & Hr) (Hk & Hf & Hcoh).
  unfold consistent, well_keyed, filter_covers, cache_coherent.
  rewrite Hb, Hc, Hr. auto.
Qed.

Lemma repo_GetByShortCode_data env shortCode s :
  same_data s (repo_GetByShortCode env shortCode s).2 /\
  (repo_GetByShortCode env shortCode s).1 =
    if repo_up env then (repo s !! sort_key shortCode, None)
    else (None, Some ErrRepo).
Proof.
  unfold repo_GetByShortCode, record, mbind, M_bind. cbn.
  destruct (repo_up env); cbn; repeat split.
Qed.

(** A new row under a sort key that had none leaves the rows under
    their keys and the cache coherent, whatever is written to the cache
    under the short code of the row. *)
Lemma keyed_coherent_new_row s s' row :
  well_keyed s -> cache_coherent s ->
  repo s !! sort_key (ShortCode row) = None ->
  repo s' = <[sort_key (ShortCode row) := row]> (repo s) ->
  (forall code e,
     cache s' !! (ShortCodePrefix +:+ code) = Some e ->
     cache s !! (ShortCodePrefix +:+ code) = Some e \/
     code = ShortCode row /\ value e = VStr (OriginalURL row)) ->
  well_keyed s' /\ cache_coherent s'.
Proof.
  intros Hk Hc Hfree Hr Hcache. split.
  - intros k m. rewrite Hr.
    destruct (decide (sort_key (ShortCode row) = k)) as [<-|Hne].
    + rewrite lookup_insert_eq. now intros [= <-].
    + rewrite lookup_insert_ne by exact Hne. apply Hk.
  - intros code e He. rewrite Hr.
    destruct (Hcache code e He) as [Hold|[-> Hv]].
    + destruct (Hc code e Hold) as (m & Hm & Hu).
      exists m. split; [|exact Hu].
      rewrite lookup_insert_ne; [exact Hm|]. intros Heq.
      rewrite <- Heq in Hm. congruence.
    + exists row. rewrite lookup_insert_eq. auto.
Qed.

(** A new row under a sort key that had none, its URL in the cache, its
    short code in the filter: the stores stay consistent. *)
Lemma consistent_new_row s s' row now net :
  consistent s -> repo s !! sort_key (ShortCode row) = None ->
  repo s' = <[sort_key (ShortCode row) := row]> (repo s) ->
  cache s' =
    (Cache.Set_ now net (ShortCode row) (OriginalURL row) (cache s)).1 ->
  bloom s' = Filter.Add (bloom s) (ShortCode row) ->
  consistent s'.
Proof.
  intros (Hk & Hf & Hc) Hfree Hr Hcache Hb.
  destruct (keyed_coherent_new_row s s' row Hk Hc Hfree Hr) as [Hk' Hc'].
  { intros code e. rewrite Hcache.
    destruct (decide (code = ShortCode row)) as [->|Hne].
    - intros He. apply Cache_Set_same in He as [Hv|Hold]; auto.
    - rewrite Cache_Set_other by exact Hne. auto. }
  split; [exact Hk'|]. split; [|exact Hc'].
  intros k m. rewrite Hr, Hb.
  destruct (decide (sort_key (ShortCode row) = k)) as [<-|Hne].
  - rewrite lookup_insert_eq. intros [= <-].
    apply FilterSpec.TestString_AddString.
  - rewrite lookup_insert_ne by exact Hne. intros Hm.
    apply FilterSpec.TestString_AddString_mono, (Hf k m Hm).
Qed.

(** A resolution keeps the stores consistent. *)
Lemma GetOriginalURL_consistent env shortCode s :
  consistent s -> consistent (GetOriginalURL env shortCode s).2.
Proof.
  intros Hcons.
  destruct (Filter.Test (bloom s) shortCode) eqn:Hf.
  - rewrite (GetOriginalURL_past_filter env shortCode s Hf). cbv zeta.
    assert (Hsame : forall more, consistent (after s (cache s) more)).
    { intros more. eapply same_data_consistent; [|exact Hcons].
      repeat split. }
    destruct (negb (String.eqb _ EmptyString)); [apply Hsame|].
    destruct (negb (repo_up env)); [apply Hsame|].
    destruct (repo s !! sort_key shortCode) as [mapping|] eqn:Hrepo;
      [|apply Hsame].
    destruct (negb (IsActive mapping (Service.now env))); [apply Hsame|].
    cbn [snd]. destruct Hcons as (Hk & Hfc & Hc).
    split; [exact Hk|]. split; [exact Hfc|].
    intros code e. cbn [cache repo after].
    destruct (decide (code = shortCode)) as [->|Hne].
    + intros He. apply Cache_Set_same in He as [Hv|Hold]; eauto.
    + rewrite Cache_Set_other by exact Hne. apply Hc.
  - unfold GetOriginalURL. rewrite Hf. exact Hcons.
Qed.


(** The core of the resolution: an active row of a reachable durable
    store is found under every short code that the database takes for
    its own and that the filter lets through, cache or no cache. *)
Lemma resolve_active env shortCode s m :
  cache_coherent s -> Filter.Test (bloom s) shortCode = true ->
  repo s !! sort_key shortCode = Some m ->
  IsActive m (Service.now env) = true -> repo_up env = true ->
  (GetOriginalURL env shortCode s).1 = (OriginalURL m, None).
Proof.
  intros Hc Hf Hrepo Hact Hup.
  rewrite (GetOriginalURL_past_filter env shortCode s Hf).
  cbv zeta.
  pose proof (Cache_Get_value (Service.now env) (cache_get_net env)
                shortCode (cache s)) as Hv. cbv zeta in Hv.
  destruct (String.eqb_spec
              (Cache.Get (Service.now env) (cache_get_net env) shortCode
                 (cache s)).2.1 EmptyString) as [_|Hne]; cbn [negb].
  - rewrite Hup, Hrepo, Hact. reflexivity.
  - destruct (Hv Hne) as (e & He & Hval).
    destruct (Hc _ _ He) as (m' & Hm' & Hu).
    assert (m' = m) by congruence. subst m'.
    cbn [fst]. now rewrite (Hval _ Hu).
Qed.

Context `{P : NetURL} `{L : Snowflake.Library}.

(** The loop reads the durable store and asks for identifiers; it
    writes nothing. *)
Lemma collision_loop_data out todo : forall i shortCode w,
  same_data (service w) (service (collision_loop out todo i shortCode w).2).
Proof.
  induction todo as [|todo IH]; intros i shortCode w; cbn [collision_loop].
  - apply same_data_refl.
  - destruct (repo_GetByShortCode_data (env_of out i) shortCode (service w))
      as [Hd _].
    destruct (repo_GetByShortCode _ _ _) as [[exists_ err] s1].
    cbn [snd] in Hd.
    destruct err as [e|]; [exact Hd|].
    destruct exists_ as [m|]; [|exact Hd].
    cbn [generator].
    destruct (Snowflake.GenerateShortCode _ _) as [g' [shortCode' err']].
    destruct err' as [e|]; [exact Hd|].
    eapply same_data_trans; [exact Hd|].
    apply (IH (S i) shortCode' {| service := s1; generator := g' |}).
Qed.

(** What [create_new] does.  It fails and leaves the three stores as
    they were; or the insertion was committed and there is one more row,
    for the URL, under a sort key that had none.  In that case either the
    answer of the database was lost, the call fails and neither cache nor
    filter is touched; or the call returns the row, its URL is written to
    the cache under its short code and the short code is in the
    filter. *)
Lemma create_new_cases out originalURL expiredAt w :
  let r := (create_new out originalURL expiredAt w).1 in
  let s := service w in
  let s' := service (create_new out originalURL expiredAt w).2 in
  (r.1 = None /\ r.2 <> None /\ same_data s s') \/
  exists row,
    repo s !! sort_key (ShortCode row) = None /\
    OriginalURL row = originalURL /\ ExpiredAt row = expiredAt /\
    Status row = 1 /\
    repo s' = <[sort_key (ShortCode row) := row]> (repo s) /\
    (create_net out = Repository.Unanswered /\
     r.1 = None /\ r.2 <> None /\
     bloom s' = bloom s /\ cache s' = cache s
     \/
     create_net out = Repository.Applied /\
     r = (Some row, None) /\
     cache s' =
       (Cache.Set_ (now out) (cache_net out) (ShortCode row) originalURL
          (cache s)).1 /\
     bloom s' = Filter.Add (bloom s) (ShortCode row)).
Proof.
  cbv zeta. unfold create_new.
  destruct (Snowflake.GenerateShortCode _ _) as [g1 [shortCode err]].
  destruct err as [e|].
  { left. cbn. repeat split. discriminate. }
  pose proof (collision_loop_data out 3 0 shortCode
                {| service := service w; generator := g1 |}) as Hd.
  destruct (collision_loop _ _ _ _ _) as [[e|code] w2]; cbn [snd service] in Hd.
  { left. cbn. split; [reflexivity|]. split; [discriminate | exact Hd]. }
  destruct Hd as (Hb & Hc & Hr).
  unfold Repository.Create. cbn [ShortCode].
  destruct (create_net out) eqn:Hnet.
  - (* the insertion is run and answered *)
    destruct (repo (service w2) !! sort_key code) as [m|] eqn:Hfree.
    { left. cbn. split; [reflexivity|].
      split; [discriminate | repeat split; assumption]. }
    right. rewrite cache_Set_run. cbn [cache].
    destruct (Cache.Set_ _ _ _ _ _) as [st' e'] eqn:Hset.
    exists {| ID := Repository.next_id (repo (service w2));
              ShortCode := code; OriginalURL := originalURL;
              CreatedAt := now out; ExpiredAt := expiredAt;
              VisitCount := 0; Status := 1 |}.
    cbn [fst snd service after bloom cache repo ShortCode OriginalURL
         ExpiredAt Status].
    rewrite <- Hr, <- Hb.
    split; [exact Hfree|]. do 4 (split; [reflexivity|]).
    right. split; [reflexivity|]. split; [reflexivity|].
    split; [|reflexivity].
    cbn [env_of Service.now cache_set_net] in Hset.
    rewrite Hc in Hset. rewrite Hset. reflexivity.
  - (* the insertion is refused *)
    left. cbn. split; [reflexivity|].
    split; [discriminate | repeat split; assumption].
  - (* the insertion is committed, its answer lost *)
    destruct (repo (service w2) !! sort_key code) as [m|] eqn:Hfree.
    { left. cbn. split; [reflexivity|].
      split; [discriminate | repeat split; assumption]. }
    right.
    exists {| ID := Repository.next_id (repo (service w2));
              ShortCode := code; OriginalURL := originalURL;
              CreatedAt := now out; ExpiredAt := expiredAt;
              VisitCount := 0; Status := 1 |}.
    cbn [fst snd service bloom cache repo ShortCode OriginalURL ExpiredAt
         Status].
    rewrite <- Hr.
    split; [exact Hfree|]. do 4 (split; [reflexivity|]).
    left. split; [reflexivity|]. split; [reflexivity|].
    split; [discriminate|]. split; assumption.
Qed.

(** What [CreateShortURL] does is what [create_new] does, or nothing. *)
Lemma CreateShortURL_cases out originalURL expiredAt w :
  CreateShortURL out originalURL expiredAt w =
    create_new out originalURL expiredAt w \/
  (CreateShortURL out originalURL expiredAt w).2 = w /\
  ((CreateShortURL out originalURL expiredAt w).1.1 = None /\
   (CreateShortURL out originalURL expiredAt w).1.2 <> None
   \/
   exists existing,
     (CreateShortURL out originalURL expiredAt w).1 = (Some existing, None) /\
     Repository.GetByOriginalURL (url_lookup_up out) (repo (service w))
       originalURL = (Some existing, None) /\
     IsActive existing (now out) = true).
Proof.
  unfold CreateShortURL.
  destruct (validateURL originalURL);
    [right; split; [reflexivity|]; left; split;
       [reflexivity | discriminate]|].
  destruct (Repository.GetByOriginalURL _ _ _) as [[existing|] [e|]] eqn:Hget;
    try (now left);
    try (right; split; [reflexivity|]; left; split;
           [reflexivity | discriminate]).
  destruct (IsActive existing (now out)) eqn:Hact; [|now left].
  right. split; [reflexivity|]. right. exists existing. auto.
Qed.

(** X22.  What a failed creation leaves behind.  When [CreateShortURL]
    returns an error, it returns no mapping, and filter and cache are as
    they were.  The durable store is as it was too, unless the insertion
    was committed and its answer lost: then the store has one more row,
    for the URL, under a sort key that had none, and this row is neither
    written to the cache nor added to the filter. *)
Theorem create_failure_leaves_at_most_a_row (out : Outside)
    (originalURL : string) (expiredAt : option Z) (w : World) :
  let r := (CreateShortURL out originalURL expiredAt w).1 in
  let s := service w in
  let s' := service (CreateShortURL out originalURL expiredAt w).2 in
  r.2 <> None ->
  r.1 = None /\ bloom s' = bloom s /\ cache s' = cache s /\
  (repo s' = repo s \/
   create_net out = Repository.Unanswered /\
   exists row,
     repo s !! sort_key (ShortCode row) = None /\
     repo s' = <[sort_key (ShortCode row) := row]> (repo s) /\
     OriginalURL row = originalURL /\ ExpiredAt row = expiredAt /\
     Status row = 1).
Proof.
  cbv zeta. intros Herr.
  destruct (CreateShortURL_cases out originalURL expiredAt w)
    as [Heq|[Hw [[Hn _]|(existing & Hr & _)]]].
  - rewrite Heq in *.
    destruct (create_new_cases out originalURL expiredAt w)
      as [(Hn & _ & Hb & Hc & Hr)
         |(row & Hfree & Hurl & Hexp & Hst & Hrepo &
           [(Hnet & Hn & _ & Hb & Hc)|(_ & Hr & _)])].
    + auto.
    + repeat (split; [assumption|]). right. split; [exact Hnet|].
      exists row. auto.
    + rewrite Hr in Herr. cbn in Herr. congruence.
  - rewrite Hw. auto.
  - rewrite Hr in Herr. cbn in Herr. congruence.
Qed.

(** [CreateShortURL] keeps the rows under their keys and the cache
    coherent; it keeps the filter above the rows unless it returns an
    error for an insertion that was committed. *)
Lemma CreateShortURL_consistent out originalURL expiredAt w :
  consistent (service w) ->
  let s' := service (CreateShortURL out originalURL expiredAt w).2 in
  well_keyed s' /\ cache_coherent s' /\
  (create_net out <> Repository.Unanswered -> filter_covers s').
Proof.
  intros Hcons. cbv zeta.
  assert (Hsame : forall s', same_data (service w) s' ->
            well_keyed s' /\ cache_coherent s' /\
            (create_net out <> Repository.Unanswered -> filter_covers s')).
  { intros s' Hd.
    destruct (same_data_consistent _ _ Hd Hcons) as (Hk & Hf & Hc). auto. }
  destruct (CreateShortURL_cases out originalURL expiredAt w)
    as [Heq|[Hw _]].
  - rewrite Heq.
    pose proof (create_new_cases out originalURL expiredAt w) as Hcases.
    cbv zeta in Hcases.
    set (s' := service (create_new out originalURL expiredAt w).2) in *.
    destruct Hcases
      as [(_ & _ & Hd)
         |(row & Hfree & Hurl & _ & _ & Hrepo &
           [(Hnet & _ & _ & Hb & Hc)|(_ & _ & Hc & Hb)])].
    + apply Hsame, Hd.
    + destruct Hcons as (Hk & Hf & Hcoh).
      destruct (keyed_coherent_new_row _ _ row Hk Hcoh Hfree Hrepo)
        as [Hk' Hc'].
      { intros code e. rewrite Hc. auto. }
      split; [exact Hk'|]. split; [exact Hc'|]. congruence.
    + rewrite <- Hurl in Hc.
      destruct (consistent_new_row _ _ row _ _ Hcons Hfree Hrepo Hc Hb)
        as (Hk' & Hf' & Hc').
      auto.
  - rewrite Hw. apply Hsame, same_data_refl.
Qed.

(** A creation that returns a mapping leaves the stores consistent. *)
Lemma CreateShortURL_success_consistent out originalURL expiredAt w :
  consistent (service w) ->
  (CreateShortURL out originalURL expiredAt w).1.2 = None ->
  consistent (service (CreateShortURL out originalURL expiredAt w).2).
Proof.
  intros Hcons Hok.
  destruct (CreateShortURL_cases out originalURL expiredAt w)
    as [Heq|[Hw _]].
  - rewrite Heq in *.
    pose proof (create_new_cases out originalURL expiredAt w) as Hcases.
    cbv zeta in Hcases.
    set (s' := service (create_new out originalURL expiredAt w).2) in *.
    destruct Hcases
      as [(_ & Hn & _)
         |(row & Hfree & Hurl & _ & _ & Hrepo &
           [(_ & _ & Hn & _)|(_ & _ & Hc & Hb)])];
      [contradiction | contradiction |].
    rewrite <- Hurl in Hc.
    exact (consistent_new_row _ _ row _ _ Hcons Hfree Hrepo Hc Hb).
  - rewrite Hw. exact Hcons.
Qed.

(** X23.  What the methods of the service keep of the consistency of
    its three stores: every row is kept under the sort key of its short
    code, the short code of every row is in the filter, and every entry
    of the cache holds the URL of the row of its short code.  All three
    hold after [GetOriginalURL] and after [InitBloomFilter], whatever
    they return and whatever the database and the connection to the
    cache do.  After [CreateShortURL] the first and the third hold in
    every case, and the second holds whenever the call returns a mapping
    and whenever the database does not lose the answer to an insertion it
    committed: a row whose insertion was reported as failed is not added
    to the filter. *)
Theorem service_keeps_consistency (out : Outside) (env : Env) (up : bool)
    (originalURL shortCode : string) (expiredAt : option Z) (w : World) :
  let created := CreateShortURL out originalURL expiredAt w in
  consistent (service w) ->
  (well_keyed (service created.2) /\ cache_coherent (service created.2) /\
   (create_net out <> Repository.Unanswered ->
    filter_covers (service created.2)) /\
   (created.1.2 = None -> filter_covers (service created.2))) /\
  consistent (GetOriginalURL env shortCode (service w)).2 /\
  consistent (InitBloomFilter up (service w)).2.
Proof.
  cbv zeta. intros Hcons. split; [|split].
  - destruct (CreateShortURL_consistent out originalURL expiredAt w Hcons)
      as (Hk & Hc & Hf).
    split; [exact Hk|]. split; [exact Hc|]. split; [exact Hf|].
    intros Hok.
    apply (CreateShortURL_success_consistent out originalURL expiredAt w
             Hcons Hok).
  - apply GetOriginalURL_consistent, Hcons.
  - unfold InitBloomFilter, Repository.GetAllShortCodes.
    destruct up; [|exact Hcons]. cbn [snd].
    destruct Hcons as (Hk & Hf & Hc).
    split; [exact Hk|]. split; [|exact Hc].
    intros k m Hm. cbn [bloom repo] in *.
    apply FilterSpec.TestString_fold_mono, (Hf k m Hm).
Qed.


(** X25.  Resolution is sound on consistent stores: a URL that
    [GetOriginalURL] returns without error is the URL of the row that
    the durable store keeps for the short code, whether it was read from
    the cache or from the durable store. *)
Theorem resolution_sound (env : Env) (shortCode u : string) (s : State) :
  consistent s ->
  (GetOriginalURL env shortCode s).1 = (u, None) ->
  exists m, repo s !! sort_key shortCode = Some m /\ OriginalURL m = u.
Proof.
  intros (_ & _ & Hc).
  destruct (Filter.Test (bloom s) shortCode) eqn:Hf;
    [|unfold GetOriginalURL; rewrite Hf; discriminate].
  rewrite (GetOriginalURL_past_filter env shortCode s Hf). cbv zeta.
  pose proof (Cache_Get_value (Service.now env) (cache_get_net env)
                shortCode (cache s)) as Hv. cbv zeta in Hv.
  destruct (String.eqb_spec
              (Cache.Get (Service.now env) (cache_get_net env) shortCode
                 (cache s)).2.1 EmptyString) as [_|Hne]; cbn [negb].
  - destruct (negb (repo_up env)); [discriminate|].
    destruct (repo s !! sort_key shortCode) as [m|]; [|discriminate].
    destruct (negb (IsActive m (Service.now env))); [discriminate|].
    intros [= <-]. eauto.
  - intros [= <-].
    destruct (Hv Hne) as (e & He & Hval).
    destruct (Hc _ _ He) as (m & Hm & Hu).
    exists m. split; [exact Hm|]. apply Hval, Hu.
Qed.

(** X26.  Resolution is complete on consistent stores: every active
    mapping of a reachable durable store resolves to its URL under its
    short code, whatever the cache holds and whatever happens to the
    connection to the cache; an existing link is never reported as not
    found.  So does every other short code that the database takes for
    the short code of the mapping, when the filter lets it through. *)
Theorem resolution_complete (env : Env) (shortCode : string) (s : State)
    (m : URLMapping) :
  consistent s ->
  repo s !! sort_key shortCode = Some m ->
  IsActive m (Service.now env) = true ->
  repo_up env = true ->
  (GetOriginalURL env (ShortCode m) s).1 = (OriginalURL m, None) /\
  (GetOriginalURL env (ShortCode m) s).1.2 <> Some ErrNotFound /\
  (Filter.Test (bloom s) shortCode = true ->
   (GetOriginalURL env shortCode s).1 = (OriginalURL m, None)).
Proof.
  intros (Hk & Hf & Hc) Hrepo Hact Hup.
  assert (Hown : (GetOriginalURL env (ShortCode m) s).1 =
                 (OriginalURL m, None)).
  { apply resolve_active; try assumption.
    - apply (Hf _ _ Hrepo).
    - rewrite (Hk _ _ Hrepo). exact Hrepo. }
  rewrite Hown. split; [reflexivity|]. split; [discriminate|].
  intros Hpass. apply resolve_active; assumption.
Qed.

End WithCollation.

Local Existing Instance folding.

Lemma sample_state_consistent : consistent sample_state.
Proof.
  split; [|split].
  - intros code m Hm. cbn [sample_state repo] in Hm.
    apply lookup_singleton_Some in Hm as [<- <-]. reflexivity.
  - intros code m Hm. cbn [sample_state repo] in Hm.
    apply lookup_singleton_Some in Hm as [<- <-]. vm_compute. reflexivity.
  - intros code e He. cbn [sample_state cache] in He.
    rewrite lookup_empty in He. discriminate.
Qed.

(** The answer to the insertion is lost: the call fails and the row is
    in the durable store. *)
Lemma create_failure_leaves_at_most_a_row_witness :
  let r := CreateShortURL (P := sample_parser) (L := sample_library)
             lost_answer "https://example.com/a" None sample_world in
  let s := service sample_world in
  let s' := service r.2 in
  r.1.1 = None /\ bloom s' = bloom s /\ cache s' = cache s /\
  (repo s' = repo s \/
   create_net lost_answer = Repository.Unanswered /\
   exists row,
     repo s !! sort_key (ShortCode row) = None /\
     repo s' = <[sort_key (ShortCode row) := row]> (repo s) /\
     OriginalURL row = "https://example.com/a"%string /\
     ExpiredAt row = None /\ Status row = 1).
Proof.
  apply (create_failure_leaves_at_most_a_row (P := sample_parser)
           (L := sample_library) lost_answer "https://example.com/a" None
           sample_world).
  vm_compute. discriminate.
Defined.

Lemma service_keeps_consistency_witness :
  let created :=
    CreateShortURL (P := sample_parser) (L := sample_library)
      sample_outside "https://example.com/a" None sample_world in
  (well_keyed (service created.2) /\ cache_coherent (service created.2) /\
   (create_net sample_outside <> Repository.Unanswered ->
    filter_covers (service created.2)) /\
   (created.1.2 = None -> filter_covers (service created.2))) /\
  consistent (GetOriginalURL sample_env "abc" (service sample_world)).2 /\
  consistent (InitBloomFilter true (service sample_world)).2.
Proof.
  apply (service_keeps_consistency (P := sample_parser) (L := sample_library)).
  exact sample_state_consistent.
Defined.


Lemma resolution_sound_witness :
  exists m,
    repo sample_state !! sort_key "abc"%string = Some m /\
    OriginalURL m = "https://example.org/"%string.
Proof.
  apply (resolution_sound sample_env "abc" "https://example.org/"
           sample_state).
  - exact sample_state_consistent.
  - vm_compute. reflexivity.
Defined.

(** The short code [ABC] is one the collation takes for [abc], and the
    filter of the example lets it through. *)
Lemma resolution_complete_witness :
  let m := {| ID := 1; ShortCode := "abc";
              OriginalURL := "https://example.org/"; CreatedAt := 0;
              ExpiredAt := None; VisitCount := 0; Status := 1 |} in
  let env := {| Service.now := T0; cache_get_net := NetLost 0;
                cache_set_net := NetDown; repo_up := true |} in
  (GetOriginalURL env (ShortCode m) sample_state).1 =
    (OriginalURL m, None) /\
  (GetOriginalURL env (ShortCode m) sample_state).1.2 <> Some ErrNotFound /\
  (Filter.Test (bloom sample_state) "ABC" = true ->
   (GetOriginalURL env "ABC" sample_state).1 = (OriginalURL m, None)).
Proof.
  apply (resolution_complete _ "ABC" sample_state).
  - exact sample_state_consistent.
  - reflexivity.
  - reflexivity.
  - reflexivity.
Defined.

(** The collation at work.  The durable store has a row for
    [https://example.org/] under the short code [abc].  A request to
    shorten [https://Example.org/] is answered with that row: the
    database takes the two URLs for the same, and no row is made.  A
    resolution of [ABC], which the filter of the example lets through,
    returns the URL of [abc] and writes it to the cache under [ABC]. *)
Example collation_identifies :
  let r := CreateShortURL (P := sample_parser) (L := sample_library)
             sample_outside "https://Example.org/" None sample_world in
  let q := GetOriginalURL sample_env "ABC" sample_state in
  option_map (fun m => (ShortCode m, OriginalURL m)) r.1.1 =
    Some ("abc"%string, "https://example.org/"%string) /\
  r.1.2 = None /\ repo (service r.2) = repo sample_state /\
  q.1 = ("https://example.org/"%string, None) /\
  accesses q.2 =
    [CacheGet "ABC"; RepoGetByShortCode "ABC";
     CacheSet "ABC" "https://example.org/"].
Proof. vm_compute. repeat split; reflexivity. Qed.

(** A lost answer at work.  The insertion of the row for
    [https://example.com/a] is committed and its answer lost:
    [CreateShortURL] returns an error.  The row is there, [GetURLInfo]
    returns it, and a second request to shorten the URL is answered with
    it; but its short code is not in the filter, and [GetOriginalURL]
    reports it as not found without an access to cache or durable
    store. *)
Example lost_answer_leaves_a_dead_link :
  let first := CreateShortURL (P := sample_parser) (L := sample_library)
                 lost_answer "https://example.com/a" None sample_world in
  let again := CreateShortURL (P := sample_parser) (L := sample_library)
                 sample_outside "https://example.com/a" None first.2 in
  let code := "8uIVrOCQMqQ"%string in
  let q := GetOriginalURL sample_env code (service again.2) in
  first.1 = (None, Some (ErrRepository Repository.FailedToCreate)) /\
  option_map ShortCode again.1.1 = Some code /\ again.1.2 = None /\
  option_map ShortCode (GetURLInfo sample_env code (service again.2)).1.1 =
    Some code /\
  Filter.Test (bloom (service again.2)) code = false /\
  q.1 = (EmptyString, Some ErrNotFound) /\
  accesses q.2 = accesses (service again.2).
Proof. vm_compute. repeat split; reflexivity. Qed.

End UrlServiceSpec.

(** ** Identifiers, reuse of mappings and the start of the service *)

Module SnowflakeSpec.
Import Snowflake.

Lemma nodeID_small d w :
  0 <= d < 32 -> 0 <= w < 32 -> nodeID d w = 32 * d + w.
Proof.
  intros Hd Hw.
  assert (Hall : forallb (fun d =>
            forallb (fun w =>
              nodeID (Z.of_nat d) (Z.of_nat w) =?
              32 * Z.of_nat d + Z.of_nat w) (seq 0 32)) (seq 0 32) = true)
    by (vm_compute; reflexivity).
  rewrite forallb_forall in Hall.
  specialize (Hall (Z.to_nat d) ltac:(apply in_seq; lia)).
  rewrite forallb_forall in Hall.
  specialize (Hall (Z.to_nat w) ltac:(apply in_seq; lia)).
  rewrite !Z2Nat.id in Hall by lia. now apply Z.eqb_eq.
Qed.

(** X27.  The node number.  For a datacenter and a worker of five bits
    each, [(datacenterID << 5) | workerID] is [32 * datacenterID +
    workerID], a number from 0 to 1023, and different pairs get
    different node numbers.  Nothing checks the five bits: worker 32 of
    datacenter 0 gets the node number of worker 0 of datacenter 1. *)
Theorem node_id_distinct (datacenterID workerID datacenterID' workerID' : Z) :
  0 <= datacenterID < 32 -> 0 <= workerID < 32 ->
  0 <= datacenterID' < 32 -> 0 <= workerID' < 32 ->
  0 <= nodeID datacenterID workerID < 1024 /\
  (nodeID datacenterID workerID = nodeID datacenterID' workerID' ->
   datacenterID = datacenterID' /\ workerID = workerID') /\
  nodeID 0 32 = nodeID 1 0.
Proof.
  intros Hd Hw Hd' Hw'.
  rewrite (nodeID_small _ _ Hd Hw), (nodeID_small _ _ Hd' Hw').
  split; [lia|]. split; [lia | reflexivity].
Qed.

Lemma node_id_distinct_witness :
  0 <= nodeID 3 7 < 1024 /\
  (nodeID 3 7 = nodeID 7 3 -> 3 = 7 /\ 7 = 3) /\
  nodeID 0 32 = nodeID 1 0.
Proof. apply (node_id_distinct 3 7 7 3); lia. Defined.

Section WithLibrary.
Context `{L : Library}.

(** X28.  [InitSnowflake] takes effect once.  When the library refuses
    the node number of the first call, that call returns the error; every
    later call, with whatever numbers, changes nothing and returns no
    error, and [GenerateID] and [GenerateShortCode] keep answering "not
    initialized": the initialisation cannot be tried again. *)
Theorem init_snowflake_once (datacenterID workerID datacenterID' workerID'
    now : Z) :
  NewNode (nodeID datacenterID workerID) = None ->
  let first := InitSnowflake datacenterID workerID initial in
  let second := InitSnowflake datacenterID' workerID' first.1 in
  first.2 = Some ErrNewNode /\
  second = (first.1, None) /\
  GenerateID now second.1 = (first.1, (0, Some ErrNotInitialized)) /\
  GenerateShortCode now second.1 =
    (first.1, (EmptyString, Some ErrNotInitialized)).
Proof.
  intros Hnew. cbv zeta.
  assert (Hfirst : InitSnowflake datacenterID workerID initial =
                     ({| node := None; once := true |}, Some ErrNewNode)).
  { unfold InitSnowflake. cbn [once initial]. now rewrite Hnew. }
  rewrite Hfirst. cbn [fst snd].
  unfold InitSnowflake, GenerateShortCode, GenerateID. cbn [once node fst].
  repeat split.
Qed.

End WithLibrary.

Lemma init_snowflake_once_witness :
  let first :=
    InitSnowflake (L := ServiceSamples.sample_library) 40 1 initial in
  let second :=
    InitSnowflake (L := ServiceSamples.sample_library) 1 1 first.1 in
  first.2 = Some ErrNewNode /\
  second = (first.1, None) /\
  GenerateID Samples.T0 second.1 = (first.1, (0, Some ErrNotInitialized)) /\
  GenerateShortCode Samples.T0 second.1 =
    (first.1, (EmptyString, Some ErrNotInitialized)).
Proof.
  apply (init_snowflake_once (L := ServiceSamples.sample_library) 40 1 1 1).
  reflexivity.
Defined.

End SnowflakeSpec.

Module StartupSpec.
Import GoTime Redis Service UrlService Samples RedisSpec.
Import ResolutionTerms ServiceTerms ServiceSamples ReuseSamples.

Section WithCollation.
Context `{C : Collation}.

(** X29.  [InitBloomFilter].  When the database is reached, every short
    code of the durable store is in the filter afterwards and no error
    is returned; when it is not, the error is returned and the state is
    the one before: the filter is left empty of the existing short codes,
    which the caller only logs. *)
Theorem init_bloom_filter_covers (s : State) :
  (InitBloomFilter true s).1 = None /\
  filter_covers (InitBloomFilter true s).2 /\
  cache (InitBloomFilter true s).2 = cache s /\
  repo (InitBloomFilter true s).2 = repo s /\
  InitBloomFilter false s =
    (Some (ErrRepository Repository.FailedToGetAll), s).
Proof.
  unfold InitBloomFilter, Repository.GetAllShortCodes. cbn [fst snd].
  split; [reflexivity|]. split; [|repeat split].
  intros k m Hm. cbn [bloom repo] in *.
  apply FilterSpec.TestString_fold_added.
  apply list_elem_of_fmap. exists (k, m). split; [reflexivity|].
  apply elem_of_map_to_list, Hm.
Qed.

Context `{P : NetURL} `{L : Snowflake.Library}.

(** X30.  Which mapping is reused.  [CreateShortURL] looks at one row
    for the URL, the one with the least primary key.  If that row is
    active it is returned and nothing changes, not even the generator.
    If it is not, no row is reused, even when a newer active row for the
    URL exists: a successful call then returns a row under a short code
    that the durable store did not have. *)
Theorem create_reuses_oldest_only (out : Outside) (originalURL : string)
    (expiredAt : option Z) (w : World) (oldest : URLMapping) :
  validateURL originalURL = None ->
  Repository.GetByOriginalURL (url_lookup_up out) (repo (service w))
    originalURL = (Some oldest, None) ->
  let r := CreateShortURL out originalURL expiredAt w in
  if IsActive oldest (now out) then r = ((Some oldest, None), w)
  else
    r.1.1 = None \/
    exists m, r.1.1 = Some m /\
              repo (service w) !! sort_key (ShortCode m) = None /\
              repo (service r.2) !! sort_key (ShortCode m) = Some m.
Proof.
  intros Hvalid Hget. cbv zeta. unfold CreateShortURL.
  rewrite Hvalid, Hget.
  destruct (IsActive oldest (now out)); [reflexivity|].
  pose proof (UrlServiceSpec.create_new_cases out originalURL expiredAt w)
    as Hcases. cbv zeta in Hcases.
  destruct Hcases
    as [(Hn & _)
       |(row & Hfree & _ & _ & _ & Hrepo & [(_ & Hn & _)|(_ & Hr & _)])].
  - left. exact Hn.
  - left. exact Hn.
  - right. exists row. rewrite Hr. split; [reflexivity|].
    split; [exact Hfree|]. rewrite Hrepo. apply lookup_insert_eq.
Qed.

End WithCollation.

Local Existing Instance folding.

(** The older of two rows for the URL has expired: a third row is made. *)
Lemma create_reuses_oldest_only_witness :
  let r := CreateShortURL (P := sample_parser) (L := sample_library)
             sample_outside "https://example.org/" None two_rows_world in
  r.1.1 = None \/
  exists m, r.1.1 = Some m /\
            repo two_rows !! sort_key (ShortCode m) = None /\
            repo (service r.2) !! sort_key (ShortCode m) = Some m.
Proof.
  apply (create_reuses_oldest_only (P := sample_parser)
           (L := sample_library) sample_outside "https://example.org/"
           None two_rows_world
           {| ID := 1; ShortCode := "old";
              OriginalURL := "https://example.org/";
              CreatedAt := 0; ExpiredAt := Some (T0 - Second);
              VisitCount := 0; Status := 1 |}).
  - vm_compute. reflexivity.
  - vm_compute. reflexivity.
Defined.

End StartupSpec.
